(** * rest-client.py: the REST poller of the blue/green demo

    A shallow embedding of [src/rest-client.py] and the properties of its
    polling loop, header flattening, body formatting and argument types.

    Conventions of the embedding:
    - a Python [str] is a list of Unicode code points ([pystr]);
    - Python [int]s that the program keeps non-negative (counters, the
      request count, HTTP status codes) are [nat]; JSON integers are [Z];
    - a Python [float] is never computed with: a decoded float is kept as
      its literal, [interval] and [timeout] are the rationals they denote,
      and the texts the interpreter prints for floats (repr, the [.1f]
      format of a difference of clock readings) are section variables;
      only the argument types compare a float, with zero, and there it is
      a binary64 value;
    - the [dict] of headers is a [gmap]; the [dict] of a decoded JSON
      object keeps its insertion order (association list without repeated
      keys);
    - exceptions are explicit results; the outside world of a run (what
      each [session.get] and each [time.sleep] does) is a script, one tick
      per iteration of the loop.

    The file has three parts: the program, the vocabulary of the
    properties, the properties. *)

From Stdlib Require Floats.
From Stdlib Require Import ZArith NArith QArith Ascii String DecimalNat DecimalPos.
From stdpp Require Import gmap list.

Set Warnings "-register-all,-abstract-large-number".

Local Open Scope nat_scope.
Local Open Scope N_scope.

(* ===================================================================== *)
(** ** Python strings *)
(* ===================================================================== *)

Module PyStr.

(** A [str] is a sequence of code points. *)
Definition pystr : Type := list N.

(** The code point of an ASCII character, and the [str] of an ASCII
    literal. *)
Definition ch (a : ascii) : N := N_of_ascii a.

Definition py (s : string) : pystr := map N_of_ascii (list_ascii_of_string s).

Definition LF : N := 10.

(** [Py_UNICODE_ISSPACE]: the characters [str.strip()] removes. *)
Definition is_space (c : N) : bool :=
  ((9 <=? c) && (c <=? 13)) || ((28 <=? c) && (c <=? 32))
  || (c =? 133) || (c =? 160) || (c =? 5760)
  || ((8192 <=? c) && (c <=? 8202))
  || (c =? 8232) || (c =? 8233) || (c =? 8239) || (c =? 8287)
  || (c =? 12288).

(** [str.lstrip()], [str.rstrip()] and [str.strip()]. *)
Fixpoint lstrip (s : pystr) : pystr :=
  match s with
  | c :: s' => if is_space c then lstrip s' else s
  | [] => []
  end.

Definition rstrip (s : pystr) : pystr := rev (lstrip (rev s)).

Definition strip (s : pystr) : pystr := rstrip (lstrip s).

(** Truth value of a [str]: non-empty. *)
Definition truthy (s : pystr) : bool :=
  match s with [] => false | _ => true end.

(** [a or b] on strings. *)
Definition str_or (a b : pystr) : pystr := if truthy a then a else b.

Definition has_newline (s : pystr) : bool := existsb (N.eqb LF) s.

(** Decimal digits, most significant first: [int.__repr__]. *)
Fixpoint uint_chars (u : Decimal.uint) : pystr :=
  match u with
  | Decimal.Nil => []
  | Decimal.D0 u => ch "0" :: uint_chars u
  | Decimal.D1 u => ch "1" :: uint_chars u
  | Decimal.D2 u => ch "2" :: uint_chars u
  | Decimal.D3 u => ch "3" :: uint_chars u
  | Decimal.D4 u => ch "4" :: uint_chars u
  | Decimal.D5 u => ch "5" :: uint_chars u
  | Decimal.D6 u => ch "6" :: uint_chars u
  | Decimal.D7 u => ch "7" :: uint_chars u
  | Decimal.D8 u => ch "8" :: uint_chars u
  | Decimal.D9 u => ch "9" :: uint_chars u
  end.

Definition str_nat (n : nat) : pystr := uint_chars (Nat.to_uint n).

Definition str_int (z : Z) : pystr :=
  match z with
  | Z0 => py "0"
  | Zpos p => uint_chars (Pos.to_uint p)
  | Zneg p => ch "-" :: uint_chars (Pos.to_uint p)
  end.

(** The format spec [:04] on a non-negative [int]: zero fill up to a
    minimum width of four. *)
Definition format_04 (n : nat) : pystr :=
  let d := str_nat n in
  replicate (4 - length d)%nat (ch "0") ++ d.

Definition is_digit (c : N) : bool := (48 <=? c) && (c <=? 57).

End PyStr.

Import PyStr.

(* ===================================================================== *)
(** ** Values decoded from JSON, and the [json] module *)
(* ===================================================================== *)

Module Json.

(** The Python values [json.loads] builds.  A [float] is kept as the
    literal it was read from ([float(literal)]): the program never
    computes with it, it only prints it. *)
Inductive pyscalar : Type :=
  | PyNone
  | PyBool (b : bool)
  | PyInt (z : Z)
  | PyFloat (literal : pystr)
  | PyStr (s : pystr).

Inductive pyvalue : Type :=
  | PyScalar (a : pyscalar)
  | PyList (l : list pyvalue)
  | PyDict (d : list (pystr * pyvalue)).

(** A [dict] in insertion order. *)
Definition pydict : Type := list (pystr * pyvalue).

(** [d[k] = v]: an existing key keeps its position and takes the new
    value, a new key goes last. *)
Fixpoint dict_set (k : pystr) (v : pyvalue) (d : pydict) : pydict :=
  match d with
  | [] => [(k, v)]
  | (k', v') :: d' =>
      if decide (k = k') then (k, v) :: d' else (k', v') :: dict_set k v d'
  end.

(** [dict(pairs)]. *)
Definition dict_of_pairs (pairs : list (pystr * pyvalue)) : pydict :=
  foldl (fun d kv => dict_set kv.1 kv.2 d) [] pairs.

Fixpoint dict_get (k : pystr) (d : pydict) : option pyvalue :=
  match d with
  | [] => None
  | (k', v') :: d' => if decide (k = k') then Some v' else dict_get k d'
  end.

(** *** Encoder: [json.dumps(data, separators=(",", ":"))] *)

Definition hex_digit (d : N) : N := if d <? 10 then 48 + d else 87 + d.

(** ['\\u{0:04x}'.format(n)] for [n < 0x10000]. *)
Definition u_escape (n : N) : pystr :=
  [ch "\"; ch "u";
   hex_digit (N.land (N.shiftr n 12) 15); hex_digit (N.land (N.shiftr n 8) 15);
   hex_digit (N.land (N.shiftr n 4) 15); hex_digit (N.land n 15)].

(** The replacement of one character in [encode_basestring_ascii]. *)
Definition escape_char (c : N) : pystr :=
  if c =? 34 then [ch "\"; 34]
  else if c =? 92 then [ch "\"; ch "\"]
  else if c =? 10 then [ch "\"; ch "n"]
  else if c =? 13 then [ch "\"; ch "r"]
  else if c =? 9 then [ch "\"; ch "t"]
  else if c =? 8 then [ch "\"; ch "b"]
  else if c =? 12 then [ch "\"; ch "f"]
  else if (32 <=? c) && (c <=? 126) then [c]
  else if c <? 65536 then u_escape c
  else
    let n := c - 65536 in
    u_escape (N.lor 55296 (N.land (N.shiftr n 10) 1023))
    ++ u_escape (N.lor 56320 (N.land n 1023)).

Definition encode_basestring_ascii (s : pystr) : pystr :=
  34 :: flat_map escape_char s ++ [34].

(** [sep.join(parts)]. *)
Fixpoint join (sep : pystr) (parts : list pystr) : pystr :=
  match parts with
  | [] => []
  | [x] => x
  | x :: rest => x ++ sep ++ join sep rest
  end.

Section Dumps.
(** [floatstr] of the encoder applied to [float(literal)]: [NaN],
    [Infinity], [-Infinity] or [float.__repr__]. *)
Variable floatstr : pystr -> pystr.

Definition dumps_scalar (a : pyscalar) : pystr :=
  match a with
  | PyNone => py "null"
  | PyBool true => py "true"
  | PyBool false => py "false"
  | PyInt z => str_int z
  | PyFloat lit => floatstr lit
  | PyStr s => encode_basestring_ascii s
  end.

Fixpoint json_dumps (v : pyvalue) : pystr :=
  match v with
  | PyScalar a => dumps_scalar a
  | PyList l => ch "[" :: join (py ",") (map json_dumps l) ++ py "]"
  | PyDict d =>
      ch "{"
      :: join (py ",")
           (map (fun kv => encode_basestring_ascii kv.1 ++ py ":" ++ json_dumps kv.2) d)
      ++ py "}"
  end.
End Dumps.

(** *** Decoder: [json.loads(text)]

    The decoder follows [json/decoder.py] and [json/scanner.py] of
    CPython, with the choices of the C accelerator where the two differ:
    numbers are made of ASCII digits, a [\u] escape takes four
    hexadecimal digits.  An [int] may have any number of digits. *)

(** [WHITESPACE.match(s, end).end()]: skip [ \t\n\r]. *)
Definition is_json_ws (c : N) : bool :=
  (c =? 32) || (c =? 9) || (c =? 10) || (c =? 13).

Fixpoint skip_ws (s : pystr) : pystr :=
  match s with
  | c :: s' => if is_json_ws c then skip_ws s' else s
  | [] => []
  end.

Definition hex_value (c : N) : option N :=
  if (48 <=? c) && (c <=? 57) then Some (c - 48)
  else if (97 <=? c) && (c <=? 102) then Some (c - 87)
  else if (65 <=? c) && (c <=? 70) then Some (c - 55)
  else None.

(** [_decode_uXXXX]: four hexadecimal digits. *)
Definition decode_uXXXX (h1 h2 h3 h4 : N) : option N :=
  match hex_value h1, hex_value h2, hex_value h3, hex_value h4 with
  | Some a, Some b, Some c, Some d => Some (((a * 16 + b) * 16 + c) * 16 + d)
  | _, _, _, _ => None
  end.

(** The [BACKSLASH] table. *)
Definition backslash (e : N) : option N :=
  if e =? 34 then Some 34
  else if e =? 92 then Some 92
  else if e =? 47 then Some 47
  else if e =? 98 then Some 8
  else if e =? 102 then Some 12
  else if e =? 110 then Some 10
  else if e =? 114 then Some 13
  else if e =? 116 then Some 9
  else None.

Definition is_high_surrogate (u : N) : bool := (55296 <=? u) && (u <=? 56319).
Definition is_low_surrogate (u : N) : bool := (56320 <=? u) && (u <=? 57343).

Definition join_surrogates (u u2 : N) : N :=
  65536 + N.lor (N.shiftl (u - 55296) 10) (u2 - 56320).

Definition cons_char (c : N) (r : option (pystr * pystr)) : option (pystr * pystr) :=
  match r with
  | Some (content, rest) => Some (c :: content, rest)
  | None => None
  end.

(** [scanstring(s, end, strict=True)], from the character after the
    opening quote: the decoded string and what follows the closing
    quote, or [None] for a [JSONDecodeError]. *)
Fixpoint scanstring (s : pystr) : option (pystr * pystr) :=
  match s with
  | [] => None
  | c :: s' =>
      if c =? 34 then Some ([], s')
      else if c =? 92 then
        match s' with
        | [] => None
        | e :: s'' =>
            if e =? 117 then
              match s'' with
              | h1 :: h2 :: h3 :: h4 :: r =>
                  match decode_uXXXX h1 h2 h3 h4 with
                  | None => None
                  | Some uni =>
                      match r with
                      | b :: u :: g1 :: g2 :: g3 :: g4 :: r2 =>
                          if is_high_surrogate uni && (b =? 92) && (u =? 117) then
                            match decode_uXXXX g1 g2 g3 g4 with
                            | None => None
                            | Some uni2 =>
                                if is_low_surrogate uni2
                                then cons_char (join_surrogates uni uni2) (scanstring r2)
                                else cons_char uni (scanstring r)
                            end
                          else cons_char uni (scanstring r)
                      | _ => cons_char uni (scanstring r)
                      end
                  end
              | _ => None
              end
            else
              match backslash e with
              | Some c' => cons_char c' (scanstring s'')
              | None => None
              end
        end
      else if c <? 32 then None
      else cons_char c (scanstring s')
  end.

(** [NUMBER_RE]: an optional minus sign and an integer part without
    leading zero, then optionally a dot with digits, then optionally an
    exponent ([e] or [E], an optional sign, digits). *)
Fixpoint span_digits (s : pystr) : pystr * pystr :=
  match s with
  | c :: s' =>
      if is_digit c then let '(ds, r) := span_digits s' in (c :: ds, r)
      else ([], s)
  | [] => ([], [])
  end.

Definition match_integer (s : pystr) : option (pystr * pystr) :=
  let '(sign, s1) :=
    match s with
    | c :: s' => if c =? 45 then ([c], s') else ([], s)
    | [] => ([], s)
    end in
  match s1 with
  | c :: s2 =>
      if c =? 48 then Some (sign ++ [c], s2)
      else if is_digit c then
        let '(ds, r) := span_digits s2 in Some (sign ++ c :: ds, r)
      else None
  | [] => None
  end.

Definition match_frac (s : pystr) : pystr * pystr :=
  match s with
  | c :: s' =>
      if c =? 46 then
        match span_digits s' with
        | ([], _) => ([], s)
        | (ds, r) => (c :: ds, r)
        end
      else ([], s)
  | [] => ([], s)
  end.

Definition match_exp (s : pystr) : pystr * pystr :=
  match s with
  | c :: s' =>
      if (c =? 101) || (c =? 69) then
        let '(sign, s1) :=
          match s' with
          | d :: s'' => if (d =? 45) || (d =? 43) then ([d], s'') else ([], s')
          | [] => ([], s')
          end in
        match span_digits s1 with
        | ([], _) => ([], s)
        | (ds, r) => (c :: sign ++ ds, r)
        end
      else ([], s)
  | [] => ([], s)
  end.

(** [int(integer)] on a match of the first group. *)
Definition digits_value (ds : pystr) : Z :=
  foldl (fun acc c => (acc * 10 + Z.of_N (c - 48))%Z) 0%Z ds.

Definition parse_int (integer : pystr) : Z :=
  match integer with
  | c :: ds => if c =? 45 then (- digits_value ds)%Z else digits_value integer
  | [] => 0%Z
  end.

Definition match_number (s : pystr) : option (pyscalar * pystr) :=
  match match_integer s with
  | None => None
  | Some (integer, r1) =>
      let '(frac, r2) := match_frac r1 in
      let '(exp, r3) := match_exp r2 in
      if truthy frac || truthy exp
      then Some (PyFloat (integer ++ frac ++ exp), r3)
      else Some (PyInt (parse_int integer), r3)
  end.

(** [string[idx:idx + len(word)] == word], with what follows. *)
Fixpoint startswith (word s : pystr) : option pystr :=
  match word, s with
  | [], _ => Some s
  | w :: word', c :: s' => if w =? c then startswith word' s' else None
  | _ :: _, [] => None
  end.

Inductive scan (A : Type) : Type :=
  | Scanned (a : A) (rest : pystr)
  | ScanError
  | OutOfFuel.
Arguments Scanned {A} a rest.
Arguments ScanError {A}.
Arguments OutOfFuel {A}.

(** The end of [_scan_once]: the constants and the numbers. *)
Definition scan_literal (s : pystr) : scan pyvalue :=
  match startswith (py "null") s, startswith (py "true") s,
        startswith (py "false") s with
  | Some r, _, _ => Scanned (PyScalar PyNone) r
  | _, Some r, _ => Scanned (PyScalar (PyBool true)) r
  | _, _, Some r => Scanned (PyScalar (PyBool false)) r
  | None, None, None =>
      match match_number s with
      | Some (num, r) => Scanned (PyScalar num) r
      | None =>
          match startswith (py "NaN") s, startswith (py "Infinity") s,
                startswith (py "-Infinity") s with
          | Some r, _, _ => Scanned (PyScalar (PyFloat (py "NaN"))) r
          | _, Some r, _ => Scanned (PyScalar (PyFloat (py "Infinity"))) r
          | _, _, Some r => Scanned (PyScalar (PyFloat (py "-Infinity"))) r
          | None, None, None => ScanError
          end
      end
  end.

(** [_scan_once], and the loops of [JSONArray] (at the start of an
    element) and of [JSONObject] (after the opening quote of a key).  The
    recursion of the decoder follows the nesting of the text; [fuel]
    bounds it. *)
Fixpoint scan_once (fuel : nat) (s : pystr) {struct fuel} : scan pyvalue :=
  match fuel with
  | O => OutOfFuel
  | S f =>
      match s with
      | [] => ScanError
      | c :: s' =>
          if c =? 34 then
            match scanstring s' with
            | Some (str, r) => Scanned (PyScalar (PyStr str)) r
            | None => ScanError
            end
          else if c =? 123 then
            match skip_ws s' with
            | q :: r =>
                if q =? 125 then Scanned (PyDict []) r
                else if q =? 34 then object_loop f [] r
                else ScanError
            | [] => ScanError
            end
          else if c =? 91 then
            match skip_ws s' with
            | q :: r =>
                if q =? 93 then Scanned (PyList []) r
                else array_loop f [] (q :: r)
            | [] => array_loop f [] []
            end
          else scan_literal s
      end
  end
with array_loop (fuel : nat) (values : list pyvalue) (s : pystr) {struct fuel}
  : scan pyvalue :=
  match fuel with
  | O => OutOfFuel
  | S f =>
      match scan_once f s with
      | Scanned value r =>
          let values := values ++ [value] in
          match skip_ws r with
          | c :: r' =>
              if c =? 93 then Scanned (PyList values) r'
              else if c =? 44 then array_loop f values (skip_ws r')
              else ScanError
          | [] => ScanError
          end
      | ScanError => ScanError
      | OutOfFuel => OutOfFuel
      end
  end
with object_loop (fuel : nat) (pairs : list (pystr * pyvalue)) (s : pystr)
  {struct fuel} : scan pyvalue :=
  match fuel with
  | O => OutOfFuel
  | S f =>
      match scanstring s with
      | None => ScanError
      | Some (key, r) =>
          match skip_ws r with
          | c :: r1 =>
              if c =? 58 then
                match scan_once f (skip_ws r1) with
                | Scanned value r2 =>
                    let pairs := pairs ++ [(key, value)] in
                    match skip_ws r2 with
                    | c2 :: r3 =>
                        if c2 =? 125 then Scanned (PyDict (dict_of_pairs pairs)) r3
                        else if c2 =? 44 then
                          match skip_ws r3 with
                          | q :: r4 =>
                              if q =? 34 then object_loop f pairs r4 else ScanError
                          | [] => ScanError
                          end
                        else ScanError
                    | [] => ScanError
                    end
                | ScanError => ScanError
                | OutOfFuel => OutOfFuel
                end
              else ScanError
          | [] => ScanError
          end
      end
  end.

(** Fuel that the decoder never exhausts on [s] (see [loads_fuel_enough]). *)
Definition loads_fuel (s : pystr) : nat := S (S (2 * length s)).

(** [JSONDecoder.decode]: one value between optional whitespace, then
    the end of the text. *)
Definition decode (s : pystr) : scan pyvalue :=
  match scan_once (loads_fuel s) (skip_ws s) with
  | Scanned obj r =>
      match skip_ws r with
      | [] => Scanned obj []
      | _ :: _ => ScanError
      end
  | ScanError => ScanError
  | OutOfFuel => OutOfFuel
  end.

(** [json.loads(text)]: [None] stands for the [JSONDecodeError] (a
    [ValueError]) it raises. *)
Definition json_loads (s : pystr) : option pyvalue :=
  match decode s with
  | Scanned obj _ => Some obj
  | _ => None
  end.

End Json.

Import Json.

(* ===================================================================== *)
(** ** Exceptions and the state of a run *)
(* ===================================================================== *)

Module Py.

(** The exceptions the program meets. *)
Inductive exn : Type :=
  | ValueError
  | RequestException (class_name message : pystr)
  | KeyboardInterrupt.

Inductive outcome (A : Type) : Type :=
  | Return (a : A)
  | Raise (e : exn).
Arguments Return {A} a.
Arguments Raise {A} e.

Definition is_ValueError (e : exn) : bool :=
  match e with ValueError => true | _ => false end.

Definition is_RequestException (e : exn) : bool :=
  match e with RequestException _ _ => true | _ => false end.

Definition is_KeyboardInterrupt (e : exn) : bool :=
  match e with KeyboardInterrupt => true | _ => false end.

(** [requests.Response]: what the program reads of it. *)
Record Response : Type := { status_code : nat; text : pystr }.

(** [response.json()]: [json.loads] of the text, the body being decoded
    to the same text for [.json()] and for [.text]; a decoding error is a
    [ValueError]. *)
Definition Response_json (response : Response) : outcome pyvalue :=
  match json_loads (text response) with
  | Some data => Return data
  | None => Raise ValueError
  end.

End Py.

Import Py.

(* ===================================================================== *)
(** ** [format_body] *)
(* ===================================================================== *)

Module Formatting.

Definition empty_body : pystr := py "<empty body>".
Definition non_json_body : pystr := py "<non-JSON body>".

Section WithFloats.
(** [float.__repr__] and the encoder's [floatstr], on [float(literal)]. *)
Variable float_repr : pystr -> pystr.
Variable floatstr : pystr -> pystr.

(** [str(data)] on a value that is neither a [dict] nor a [list]. *)
Definition str (a : pyscalar) : pystr :=
  match a with
  | PyNone => py "None"
  | PyBool true => py "True"
  | PyBool false => py "False"
  | PyInt z => str_int z
  | PyFloat lit => float_repr lit
  | PyStr s => s
  end.

(** [try: data = response.json() / except ValueError: return snippet or
    ...], then the rest of the function on [data]. *)
Definition format_body (response : Response) (raw : bool) : outcome pystr :=
  if raw then
    let body := strip (text response) in
    Return (str_or body empty_body)
  else
    match Response_json response with
    | Raise e =>
        if is_ValueError e then
          let snippet := strip (text response) in
          Return (str_or snippet non_json_body)
        else Raise e
    | Return data =>
        match data with
        | PyDict _ | PyList _ => Return (json_dumps floatstr data)
        | PyScalar a => Return (str a)
        end
    end.
End WithFloats.

End Formatting.

Import Formatting.

(* ===================================================================== *)
(** ** [flatten_headers] *)
(* ===================================================================== *)

Module Headers.

(** [for name, value in items: headers[name] = value]. *)
Definition flatten_headers (items : list (pystr * pystr)) : gmap pystr pystr :=
  foldl (fun headers item => <[item.1 := item.2]> headers) ∅ items.

End Headers.

Import Headers.

(* ===================================================================== *)
(** ** [poll] *)
(* ===================================================================== *)

Module Polling.

(** [argparse.Namespace] as [build_parser] fills it.  [interval] and
    [timeout] are finite floats, read here as the rationals they
    denote. *)
Record Namespace : Type := {
    url : pystr;
    interval : Q;
    timeout : Q;
    count : nat;
    header : list (pystr * pystr);
    insecure : bool;
    raw : bool
  }.

Record PollStats : Type := { total : nat; success : nat; failure : nat }.

Inductive stream : Type := stdout | stderr.

(** What a run does to the outside. *)
Inductive event : Type :=
  | EvGet (url : pystr) (timeout : Q) (headers : gmap pystr pystr) (verify : bool)
  | EvPrint (file : stream) (line : pystr)
  | EvSleep (seconds : Q).

(** The state of a run: the counters, and the events so far, each with
    the counters at the moment it happened. *)
Record world : Type := { stats : PollStats; log : list (PollStats * event) }.

(** What [session.get] does on one call: the transport answers, fails
    with a [requests.RequestException], or the user interrupts the call.
    [KeyboardInterrupt] is raised where the program blocks: in
    [session.get] and in [time.sleep]. *)
Inductive get_result : Type :=
  | Responded (response : Response)
  | Failed (class_name message : pystr)
  | Interrupted.

(** A state and exception monad over [world]. *)
Definition M (A : Type) : Type := world -> outcome A * world.

Definition ret {A} (a : A) : M A := fun w => (Return a, w).

Definition bind {A B} (m : M A) (k : A -> M B) : M B :=
  fun w =>
    match m w with
    | (Return a, w') => k a w'
    | (Raise e, w') => (Raise e, w')
    end.

Definition raise {A} (e : exn) : M A := fun w => (Raise e, w).

Definition lift {A} (o : outcome A) : M A := fun w => (o, w).

(** [try: body / except <catches> as exc: handler / else: orelse]. *)
Definition try_except_else {A B} (body : M A) (catches : exn -> bool)
    (handler : exn -> M B) (orelse : A -> M B) : M B :=
  fun w =>
    match body w with
    | (Return a, w') => orelse a w'
    | (Raise e, w') => if catches e then handler e w' else (Raise e, w')
    end.

Declare Scope poll_scope.
Delimit Scope poll_scope with poll.
Notation "x <- m ;; k" := (bind m (fun x => k))
  (at level 100, m at next level, right associativity) : poll_scope.
Notation "m ;; k" := (bind m (fun _ => k))
  (at level 100, right associativity) : poll_scope.
Local Open Scope poll_scope.

Definition get_stats : M PollStats := fun w => (Return (stats w), w).

Definition set_stats (s : PollStats) : M unit :=
  fun w => (Return tt, {| stats := s; log := log w |}).

Definition emit (ev : event) : M unit :=
  fun w => (Return tt, {| stats := stats w; log := log w ++ [(stats w, ev)] |}).

Definition incr_total : M unit :=
  s <- get_stats ;;
  set_stats {| total := total s + 1; success := success s; failure := failure s |}.

Definition incr_success : M unit :=
  s <- get_stats ;;
  set_stats {| total := total s; success := success s + 1; failure := failure s |}.

Definition incr_failure : M unit :=
  s <- get_stats ;;
  set_stats {| total := total s; success := success s; failure := failure s + 1 |}.

Definition print (file : stream) (line : pystr) : M unit := emit (EvPrint file line).

(** [x > 0] on a float. *)
Definition gt_zero (x : Q) : bool := negb (Qle_bool x 0).

(** Truth value of an [int]. *)
Definition nat_truthy (n : nat) : bool :=
  match n with O => false | S _ => true end.

Section Run.
Variable float_repr : pystr -> pystr.
Variable floatstr : pystr -> pystr.

(** Readings of [time.perf_counter()], and the two float formats
    applied to them: [f"{(t1 - t0) * 1000:.1f}"] and [f"{t1 - t0:.1f}"]. *)
Variable time : Type.
Variable millis_1f : time -> time -> pystr.
Variable seconds_1f : time -> time -> pystr.

(** The outside world during one iteration of the loop. *)
Record tick : Type := {
    tick_start : time;
    get_outcome : get_result;
    tick_end : time;
    sleep_interrupted : bool
  }.

Variable args : Namespace.

(** [session.get(url, timeout=..., headers=..., verify=...)]. *)
Definition session_get (tk : tick) (headers : gmap pystr pystr) (verify : bool)
  : M Response :=
  emit (EvGet (url args) (timeout args) headers verify) ;;
  match get_outcome tk with
  | Responded response => ret response
  | Failed cls msg => raise (RequestException cls msg)
  | Interrupted => raise KeyboardInterrupt
  end.

(** [time.sleep(seconds)]. *)
Definition time_sleep (tk : tick) (seconds : Q) : M unit :=
  emit (EvSleep seconds) ;;
  if sleep_interrupted tk then raise KeyboardInterrupt else ret tt.

Definition error_line (request_id : nat) (e : exn) : pystr :=
  match e with
  | RequestException cls msg =>
      py "[" ++ format_04 request_id ++ py "] ERROR " ++ cls ++ py ": " ++ msg
  | _ => []
  end.

Definition response_line (request_id : nat) (response : Response)
    (latency_ms body : pystr) : pystr :=
  py "[" ++ format_04 request_id ++ py "] " ++ str_nat (status_code response)
  ++ py " " ++ latency_ms ++ py "ms " ++ body.

Definition limit_reached (limit : option nat) (s : PollStats) : bool :=
  match limit with
  | Some n => bool_decide (n <= total s)%nat
  | None => false
  end.

(** The condition of the [while]. *)
Definition keep_going (limit : option nat) (s : PollStats) : bool :=
  match limit with
  | Some n => bool_decide (total s < n)%nat
  | None => true
  end.

(** The body of the [while] loop; the result says whether the loop
    was left by [break]. *)
Definition iteration (headers : gmap pystr pystr) (limit : option nat)
    (verify : bool) (tk : tick) : M bool :=
  s <- get_stats ;;
  let request_id := (total s + 1)%nat in
  incr_total ;;
  let tick_start := tick_start tk in
  try_except_else (session_get tk headers verify) is_RequestException
    (fun exc =>
       incr_failure ;;
       print stderr (error_line request_id exc))
    (fun response =>
       incr_success ;;
       let latency_ms := millis_1f tick_start (tick_end tk) in
       body <- lift (format_body float_repr floatstr response (raw args)) ;;
       print stdout (response_line request_id response latency_ms body)) ;;
  s <- get_stats ;;
  if limit_reached limit s then ret true
  else
    (if gt_zero (interval args)
     then time_sleep tk (interval args)
     else ret tt) ;;
    ret false.

(** How far a script of the outside world takes the loop. *)
Inductive loop_result : Type :=
  | Finished (r : outcome unit) (w : world)
  | Running (w : world).

(** [while limit is None or stats.total < limit: ...] against the
    ticks of the outside world, one per iteration. *)
Fixpoint while_loop (headers : gmap pystr pystr) (limit : option nat)
    (verify : bool) (script : list tick) (w : world) : loop_result :=
  if keep_going limit (stats w) then
    match script with
    | [] => Running w
    | tk :: script' =>
        match iteration headers limit verify tk w with
        | (Return true, w') => Finished (Return tt) w'
        | (Return false, w') => while_loop headers limit verify script' w'
        | (Raise e, w') => Finished (Raise e) w'
        end
    end
  else Finished (Return tt) w.

Definition interrupted_notice : pystr := LF :: py "Interrupted by user.".

(** The [try: while ... / except KeyboardInterrupt: print(...)]. *)
Definition guarded_loop (headers : gmap pystr pystr) (limit : option nat)
    (verify : bool) (script : list tick) (w : world) : loop_result :=
  match while_loop headers limit verify script w with
  | Finished (Raise e) w' =>
      if is_KeyboardInterrupt e
      then Finished (Return tt) (print stdout interrupted_notice w').2
      else Finished (Raise e) w'
  | r => r
  end.

Definition summary_line (s : PollStats) (duration : pystr) : pystr :=
  py "Stopped after " ++ str_nat (total s) ++ py " request(s) in " ++ duration
  ++ py "s " ++ [226; 8364; 8221] ++ py " "
  ++ str_nat (success s) ++ py " succeeded, " ++ str_nat (failure s) ++ py " failed.".

Definition initial_world : world :=
  {| stats := {| total := 0; success := 0; failure := 0 |}; log := [] |}.

(** [limit = None if args.count == 0 else args.count]. *)
Definition limit_of : option nat :=
  if bool_decide (count args = 0%nat) then None else Some (count args).

(** [poll(args)]: [None] while the script has not brought the loop to
    an end; otherwise the value returned (the exit status) or the
    exception that escapes, and the final state. *)
Definition poll (start_time : time) (script : list tick) (end_time : time)
  : option (outcome nat * world) :=
  let headers := flatten_headers (header args) in
  let limit := limit_of in
  let verify := negb (insecure args) in
  match guarded_loop headers limit verify script initial_world with
  | Running _ => None
  | Finished (Raise e) w => Some (Raise e, w)
  | Finished (Return _) w =>
      let duration := seconds_1f start_time end_time in
      let w := (print stdout (summary_line (stats w) duration) w).2 in
      Some (Return (if nat_truthy (success (stats w)) then 0 else 1)%nat, w)
  end.

End Run.

End Polling.

Import Polling.

(* ===================================================================== *)
(** ** The argument types of [build_parser] *)
(* ===================================================================== *)

(** [positive_float], [non_negative_float], [non_negative_int] and
    [header_type], the functions [build_parser] gives [argparse] as
    [type=].  In these functions a [float] is compared with zero, so here
    it is a binary64 value; the conversion [float(value)] itself is the
    interpreter's and is a section variable. *)
Module Validators.

(** What a [type=] function gives [argparse] for one argument string:
    the converted value, or the [argparse.ArgumentTypeError] it raises;
    [Uncaught] is any other exception leaving the function. *)
Inductive conversion (A : Type) : Type :=
  | Converted (a : A)
  | ArgumentTypeError (message : pystr)
  | Uncaught (e : exn).
Arguments Converted {A} a.
Arguments ArgumentTypeError {A} message.
Arguments Uncaught {A} e.

(** [c in s] for a string [c] of one character. *)
Definition contains (c : N) (s : pystr) : bool := existsb (N.eqb c) s.

(** A text cut at the first [sep]: what precedes it and, when there is
    one, what follows it. *)
Fixpoint cut (sep : N) (s : pystr) : pystr * option pystr :=
  match s with
  | [] => ([], None)
  | c :: s' =>
      if c =? sep then ([], Some s')
      else let '(before, after) := cut sep s' in (c :: before, after)
  end.

(** [s.split(sep, 1)] for a separator of one character. *)
Definition split_1 (sep : N) (s : pystr) : list pystr :=
  match cut sep s with
  | (before, Some after) => [before; after]
  | (before, None) => [before]
  end.

(** [header_type]; the unpacking [name, value = ...] raises [ValueError]
    on a list that has not two items. *)
Definition header_type (header : pystr) : conversion (pystr * pystr) :=
  if negb (contains (ch "=") header) then
    ArgumentTypeError (py "Header must look like NAME=VALUE")
  else
    match split_1 (ch "=") header with
    | [name; value] =>
        let name := strip name in
        if negb (truthy name) then
          ArgumentTypeError (py "Header name cannot be empty")
        else Converted (name, value)
    | _ => Uncaught ValueError
    end.

(** *** [int(value)] on a [str]

    [PyLong_FromUnicodeObject] in base 10: the text is first brought to
    ASCII, then read by [PyLong_FromString]. *)

(** [Py_ISSPACE]: the whitespace of the C locale. *)
Definition is_c_space (c : N) : bool := (c =? 32) || ((9 <=? c) && (c <=? 13)).

Fixpoint skip_c_space (s : pystr) : pystr :=
  match s with
  | c :: s' => if is_c_space c then skip_c_space s' else s
  | [] => []
  end.

(** The loop of [long_from_string_base] over digits and underscores,
    [prev] being the character before: the text it accepts and what
    follows, or [None] for two underscores in a row or one at the end. *)
Fixpoint scan_digits (prev : N) (s : pystr) : option (pystr * pystr) :=
  match s with
  | c :: s' =>
      if is_digit c || (c =? 95) then
        if (c =? 95) && (prev =? 95) then None
        else
          match scan_digits c s' with
          | Some (text, rest) => Some (c :: text, rest)
          | None => None
          end
      else if prev =? 95 then None else Some ([], s)
  | [] => if prev =? 95 then None else Some ([], [])
  end.

Section Conversions.
(** [Py_UNICODE_TODECIMAL] of the interpreter's Unicode database, on the
    characters that are not ASCII; the limit [sys.get_int_max_str_digits()]
    (4300 unless configured, 0 for none); [repr] of a [str]. *)
Variable todecimal : N -> option N.
Variable max_str_digits : nat.
Variable repr : pystr -> pystr.

(** [_PyUnicode_TransformDecimalAndSpaceToASCII]: an ASCII text is taken
    as it is; otherwise whitespace becomes a space, a decimal digit of any
    script its ASCII digit, and the text is cut with a question mark at the
    first character that is neither. *)
Fixpoint transform (s : pystr) : pystr :=
  match s with
  | [] => []
  | c :: s' =>
      if c <? 127 then c :: transform s'
      else if is_space c then 32 :: transform s'
      else
        match todecimal c with
        | Some decimal => (48 + decimal) :: transform s'
        | None => [63]
        end
  end.

Definition to_ascii (s : pystr) : pystr :=
  if forallb (fun c => c <? 128) s then s else transform s.

(** [PyLong_FromString(text, &end, 10)] with the test that [end] is the
    end of the text: leading whitespace, a sign, digits with single
    underscores between them, trailing whitespace; then the limit on the
    number of digits.  [None] is a [ValueError]. *)
Definition long_from_string (s : pystr) : option Z :=
  let s := skip_c_space s in
  let '(negative, s) :=
    match s with
    | c :: s' =>
        if c =? 43 then (false, s') else if c =? 45 then (true, s') else (false, s)
    | [] => (false, s)
    end in
  if match s with c :: _ => c =? 95 | [] => false end then None
  else
    match scan_digits 0 s with
    | None => None
    | Some (text, rest) =>
        match text, skip_c_space rest with
        | [], _ => None
        | _, _ :: _ => None
        | _, [] =>
            let digits := List.filter is_digit text in
            if Nat.ltb 640 (length digits) && Nat.ltb 0 max_str_digits
               && Nat.ltb max_str_digits (length digits)
            then None
            else
              let z := digits_value digits in
              Some (if negative then (- z)%Z else z)
        end
    end.

(** [int(value)]. *)
Definition int (value : pystr) : option Z := long_from_string (to_ascii value).

Definition non_negative_int (value : pystr) : conversion Z :=
  match int value with
  | None => ArgumentTypeError (py "Expected an integer, got " ++ repr value)
  | Some parsed =>
      if (parsed <? 0)%Z then ArgumentTypeError (py "Value must be >= 0")
      else Converted parsed
  end.

(** [float(value)]: a binary64 value, or [None] for a [ValueError]. *)
Variable float : pystr -> option PrimFloat.float.

Definition positive_float (value : pystr) : conversion PrimFloat.float :=
  match float value with
  | None => ArgumentTypeError (py "Expected a number, got " ++ repr value)
  | Some parsed =>
      if PrimFloat.leb parsed PrimFloat.zero
      then ArgumentTypeError (py "Value must be greater than 0")
      else Converted parsed
  end.

Definition non_negative_float (value : pystr) : conversion PrimFloat.float :=
  match float value with
  | None => ArgumentTypeError (py "Expected a number, got " ++ repr value)
  | Some parsed =>
      if PrimFloat.ltb parsed PrimFloat.zero
      then ArgumentTypeError (py "Value must be >= 0")
      else Converted parsed
  end.

End Conversions.

End Validators.

(* ===================================================================== *)
(** * Vocabulary of the properties *)
(* ===================================================================== *)

(** The notions the properties below are stated with; none of them is
    part of the program. *)
Module Vocabulary.

Local Open Scope nat_scope.

(** ** Texts *)

(** The number a run of decimal digits denotes. *)
Definition nat_of_digits (s : pystr) : nat :=
  foldl (fun acc c => (acc * 10 + (N.to_nat c - 48))%nat) 0%nat s.

(** Printable ASCII. *)
Definition plain (c : N) : bool := N.leb 32 c && N.leb c 126.

(** The specification's trimming: [t] is [s] without a leading and a
    trailing run of whitespace, and [t] itself neither starts nor ends
    with whitespace. *)
Definition trimmed (s t : pystr) : Prop :=
  exists l r,
    s = l ++ t ++ r
    /\ forallb is_space l = true /\ forallb is_space r = true
    /\ from_option (fun c => is_space c = false) True (head t)
    /\ from_option (fun c => is_space c = false) True (last t).

(** The raw rendering of a body: its trimmed text, or the placeholder
    when nothing is left. *)
Definition raw_rendering (body placeholder out : pystr) : Prop :=
  exists t, trimmed body t /\ out = match t with [] => placeholder | _ => t end.

(** A text in printable ASCII, but for what the rendering of a float may
    bring. *)
Definition ascii_outside_floats (floatstr : pystr -> pystr) (out : pystr) : Prop :=
  forall c, c ∈ out -> plain c = true \/ exists lit, c ∈ floatstr lit.

(** ** The decoder *)

(** A scan that did not run out of fuel, and that consumed something
    when it succeeded. *)
Definition consumes (s : pystr) (x : scan pyvalue) : Prop :=
  match x with
  | Scanned _ r => length r < length s
  | ScanError => True
  | OutOfFuel => False
  end.

(** The decoder gave an answer. *)
Definition decided (x : scan pyvalue) : Prop :=
  match x with OutOfFuel => False | _ => True end.

(** A Unicode scalar value: a code point that is not a surrogate. *)
Definition unicode_scalar (c : N) : bool :=
  (c <? 55296)%N || ((57343 <? c)%N && (c <? 1114112)%N).

(** What can follow a value inside a JSON text: nothing, a comma or a
    closing bracket. *)
Definition delimited (rest : pystr) : bool :=
  match rest with
  | [] => true
  | c :: _ => (c =? 44)%N || (c =? 93)%N || (c =? 125)%N
  end.

(** A text that starts with the first character of a value. *)
Definition value_start (s : pystr) : Prop :=
  exists c s', s = c :: s' /\ is_json_ws c = false /\ c <> 93%N.

(** A value that the encoder writes in a way the decoder reads back:
    no float (its text is the interpreter's), strings of Unicode scalar
    values, no repeated key. *)
Fixpoint reloadable (v : pyvalue) : bool :=
  match v with
  | PyScalar (PyFloat _) => false
  | PyScalar (PyStr s) => forallb unicode_scalar s
  | PyScalar _ => true
  | PyList l => forallb reloadable l
  | PyDict d =>
      forallb (fun kv => forallb unicode_scalar kv.1 && reloadable kv.2) d
      && bool_decide (NoDup d.*1)
  end.

Section Reload.
Variable floatstr : pystr -> pystr.

(** A member of an object, as the encoder writes it. *)
Definition member_text (kv : pystr * pyvalue) : pystr :=
  encode_basestring_ascii kv.1 ++ py ":" ++ json_dumps floatstr kv.2.

(** Reading back a value written by the encoder, whatever follows. *)
Definition reloads (v : pyvalue) : Prop :=
  forall rest, delimited rest = true ->
    exists f, scan_once f (json_dumps floatstr v ++ rest) = Scanned v rest.

End Reload.

(** ** Headers *)

(** The specification's rule: the value of the pair that comes last
    among the pairs with that name. *)
Fixpoint last_value (name : pystr) (items : list (pystr * pystr)) : option pystr :=
  match items with
  | [] => None
  | (n, v) :: rest =>
      match last_value name rest with
      | Some v' => Some v'
      | None => if decide (n = name) then Some v else None
      end
  end.

(** ** Runs of the polling loop *)

(** The three increments. *)
Definition bump_total (s : PollStats) : PollStats :=
  {| total := total s + 1; success := success s; failure := failure s |}.

Definition bump_success (s : PollStats) : PollStats :=
  {| total := total s; success := success s + 1; failure := failure s |}.

Definition bump_failure (s : PollStats) : PollStats :=
  {| total := total s; success := success s; failure := failure s + 1 |}.

(** The state with counters [s] after the events [evs]. *)
Definition record (s : PollStats) (evs : list event) (w : world) : world :=
  {| stats := s; log := log w ++ map (pair s) evs |}.

(** The increment that goes with a line on [file]. *)
Definition settle (file : stream) (s : PollStats) : PollStats :=
  match file with
  | stdout => bump_success s
  | stderr => bump_failure s
  end.

(** Counter by counter. *)
Definition stats_le (a b : PollStats) : Prop :=
  total a <= total b /\ success a <= success b /\ failure a <= failure b.

(** The state a script leaves the loop in. *)
Definition world_of (r : loop_result) : world :=
  match r with
  | Finished _ w => w
  | Running w => w
  end.

(** A run is a sequence of four kinds of moves: a request is issued (the
    total was just incremented), the request in flight is settled as a
    success or a failure (its line is printed), the loop sleeps.  The
    request is _in flight_ between the first two: the last event is its
    [EvGet]. *)
Definition in_flight (w : world) : nat :=
  match last (log w) with
  | Some (_, EvGet _ _ _ _) => 1
  | _ => 0
  end.

(** A line that starts with the bracketed sequence number. *)
Definition numbered (request_id : nat) (line : pystr) : Prop :=
  exists rest, line = py "[" ++ format_04 request_id ++ py "] " ++ rest.

(** The lines printed. *)
Definition prints (l : list (PollStats * event)) : list (stream * pystr) :=
  omap (fun se => match se.2 with EvPrint file line => Some (file, line) | _ => None end) l.

(** The counters at each request issued. *)
Definition issued (l : list (PollStats * event)) : list PollStats :=
  omap (fun se => match se.2 with EvGet _ _ _ _ => Some se.1 | _ => None end) l.

(** The durations slept. *)
Definition sleeps (l : list (PollStats * event)) : list Q :=
  omap (fun se => match se.2 with EvSleep q => Some q | _ => None end) l.

(** A line that went to [file]. *)
Definition on_stream (file : stream) (p : stream * pystr) : bool :=
  match file, p.1 with
  | stdout, stdout | stderr, stderr => true
  | _, _ => false
  end.

(** Counters never decrease from one event to a later one. *)
Definition monotone (l : list (PollStats * event)) : Prop :=
  forall i j se1 se2, i <= j ->
    l !! i = Some se1 -> l !! j = Some se2 -> stats_le se1.1 se2.1.

(** The [i]-th line printed carries the sequence number [i], counting
    from one. *)
Definition numbered_from_one (lines : list (stream * pystr)) : Prop :=
  forall i file line, lines !! i = Some (file, line) -> numbered (S i) line.

Section Run.
Variable float_repr : pystr -> pystr.
Variable floatstr : pystr -> pystr.
Variable time : Type.
Variable millis_1f : time -> time -> pystr.
Variable args : Namespace.
Variable headers : gmap pystr pystr.
Variable limit : option nat.
Variable verify : bool.

Abbreviation tick := (tick time).

(** The request every iteration issues. *)
Definition get_event : event := EvGet (url args) (timeout args) headers verify.

(** The end of an iteration, once the attempt is classified. *)
Definition after_attempt (tk : tick) (w : world) : outcome bool * world :=
  if limit_reached limit (stats w) then (Return true, w)
  else if gt_zero (interval args) then
    (if sleep_interrupted time tk then Raise KeyboardInterrupt else Return false,
     record (stats w) [EvSleep (interval args)] w)
  else (Return false, w).

(** The line an attempt prints, by its outcome. *)
Definition attempt_line (request_id : nat) (tk : tick) : option (stream * pystr) :=
  match get_outcome time tk with
  | Responded response =>
      match format_body float_repr floatstr response (raw args) with
      | Return body =>
          Some (stdout,
                response_line request_id response
                  (millis_1f (tick_start time tk) (tick_end time tk)) body)
      | Raise _ => None
      end
  | Failed cls msg => Some (stderr, error_line request_id (RequestException cls msg))
  | Interrupted => None
  end.

(** The counters after the classification. *)
Definition classify (tk : tick) (s : PollStats) : PollStats :=
  match get_outcome time tk with
  | Responded _ => bump_success s
  | Failed _ _ => bump_failure s
  | Interrupted => s
  end.

(** The states a run goes through, move by move. *)
Inductive reachable : world -> Prop :=
| reach_start : reachable initial_world
| reach_issue w :
  reachable w -> in_flight w = 0 ->
  reachable (record (bump_total (stats w)) [get_event] w)
| reach_settle w file line :
  reachable w -> in_flight w = 1 -> numbered (total (stats w)) line ->
  reachable (record (settle file (stats w)) [EvPrint file line] w)
| reach_sleep w :
  reachable w -> in_flight w = 0 ->
  reachable (record (stats w) [EvSleep (interval args)] w).

(** A tick that lets the iteration run to its end. *)
Definition uninterrupted (tk : tick) : Prop :=
  get_outcome time tk <> Interrupted /\ sleep_interrupted time tk = false.

End Run.

(** The loop of [poll args], from the first iteration. *)
Definition poll_while (float_repr floatstr : pystr -> pystr) (time : Type)
    (millis_1f : time -> time -> pystr) (args : Namespace)
    (script : list (tick time)) : loop_result :=
  while_loop float_repr floatstr time millis_1f args
    (flatten_headers (header args)) (limit_of args) (negb (insecure args))
    script initial_world.

End Vocabulary.

Import Vocabulary.

(** Concrete runs used below: the demo endpoint with the default
    arguments, a clock whose readings are not looked at, and float
    formats that print a fixed text. *)
Module Demo.

(** A text written with apostrophes where it has double quotes. *)
Definition quoted (s : string) : pystr :=
  map (fun c => if c =? 39 then 34 else c) (py s).

Definition blue : pystr := quoted "{'color':'blue'}".

Definition fixed_float (lit : pystr) : pystr := py "0.0".
Definition fixed_1f (t0 t1 : unit) : pystr := py "0.0".

Definition default_args (count : nat) : Namespace :=
  {| url := py "http://localhost:9001/color";
     interval := 1 # 2;
     timeout := 1;
     count := count;
     header := [];
     insecure := false;
     raw := false |}.

Definition answers (status : nat) (body : pystr) : tick unit :=
  {| tick_start := tt;
     get_outcome := Responded {| status_code := status; text := body |};
     tick_end := tt;
     sleep_interrupted := false |}.

Definition refused : tick unit :=
  {| tick_start := tt;
     get_outcome := Failed (py "ConnectionError") (py "connection refused");
     tick_end := tt;
     sleep_interrupted := false |}.

Definition interrupted_in_request : tick unit :=
  {| tick_start := tt;
     get_outcome := Interrupted;
     tick_end := tt;
     sleep_interrupted := false |}.

Definition interrupted_in_sleep (status : nat) (body : pystr) : tick unit :=
  {| tick_start := tt;
     get_outcome := Responded {| status_code := status; text := body |};
     tick_end := tt;
     sleep_interrupted := true |}.

End Demo.

(** ** Whole runs *)

(** Notions for the properties of a whole run of [poll]. *)
Module RunVocabulary.

Local Open Scope nat_scope.

(** An event that carries what the arguments configure: a request with
    the URL, the timeout, the flattened headers and the verification flag
    of the run; a sleep of the interval, which is then above zero. *)
Definition as_configured (args : Namespace) (ev : event) : Prop :=
  match ev with
  | EvGet u t h v =>
      u = url args /\ t = timeout args
      /\ h = flatten_headers (header args) /\ v = negb (insecure args)
  | EvSleep seconds => seconds = interval args /\ (0 < seconds)%Q
  | EvPrint _ _ => True
  end.

(** The attempts settled so far. *)
Definition settled (w : world) : nat := success (stats w) + failure (stats w).

(** The loop was left by [break], at the count limit. *)
Definition stopped_at_limit (r : loop_result) : bool :=
  match r with Finished (Return _) _ => true | _ => false end.

(** The loop was left by an exception. *)
Definition was_interrupted (r : loop_result) : bool :=
  match r with Finished (Raise _) _ => true | _ => false end.

(** The transport answered; the transport failed. *)
Definition responded {time : Type} (tk : tick time) : bool :=
  match get_outcome time tk with Responded _ => true | _ => false end.

Definition failed {time : Type} (tk : tick time) : bool :=
  match get_outcome time tk with Failed _ _ => true | _ => false end.

(** The lines of consecutive attempts, the first one numbered [first]. *)
Fixpoint transcript (float_repr floatstr : pystr -> pystr) (time : Type)
    (millis_1f : time -> time -> pystr) (args : Namespace)
    (first : nat) (ticks : list (tick time)) : list (stream * pystr) :=
  match ticks with
  | [] => []
  | tk :: ticks' =>
      match attempt_line float_repr floatstr time millis_1f args first tk with
      | Some line => [line]
      | None => []
      end
      ++ transcript float_repr floatstr time millis_1f args (S first) ticks'
  end.

End RunVocabulary.

(** ** Text after a JSON document *)

Module Padding.

(** A result of the string or number scanners, with [ws] added to what
    is left of the text. *)
Definition pad_rest {A : Type} (ws : pystr) (x : option (A * pystr)) : option (A * pystr) :=
  match x with
  | Some (a, rest) => Some (a, rest ++ ws)
  | None => None
  end.

(** The same for a result of the decoder. *)
Definition padded (ws : pystr) (x : scan pyvalue) : scan pyvalue :=
  match x with
  | Scanned v rest => Scanned v (rest ++ ws)
  | ScanError => ScanError
  | OutOfFuel => OutOfFuel
  end.

End Padding.

(** Concrete settings of the conversions, used in examples below: the
    Arabic-Indic digits as the only decimal digits outside ASCII, the
    default limit on the digits of an integer, and the [repr] of a text
    that needs no escape. *)
Module ValidatorsDemo.

Definition arabic_indic (c : N) : option N :=
  if (1632 <=? c) && (c <=? 1641) then Some (c - 1632) else None.

Definition default_max_str_digits : nat := 4300.

Definition quote (s : pystr) : pystr := 39 :: s ++ [39].

End ValidatorsDemo.


(* ===================================================================== *)
(** * Properties *)
(* ===================================================================== *)

(** ** Strings *)

Module PyStrFacts.

Lemma lstrip_suffix s : exists l, s = l ++ lstrip s /\ forallb is_space l = true.
Proof.
  induction s as [|c s [l [Hl Hsp]]]; simpl.
  - exists []. done.
  - destruct (is_space c) eqn:Hc.
    + exists (c :: l). simpl. rewrite Hc, Hsp. split; [by f_equal | done].
    + exists []. done.
Qed.

Lemma lstrip_head s c s' : lstrip s = c :: s' -> is_space c = false.
Proof.
  induction s as [|a s IH]; simpl; [done|].
  destruct (is_space a) eqn:Ha; [done|]. intros [= -> ->]. done.
Qed.

Lemma lstrip_spaces l s : forallb is_space l = true -> lstrip (l ++ s) = lstrip s.
Proof.
  induction l as [|a l IH]; simpl; [done|].
  intros [Ha Hl]%andb_true_iff. rewrite Ha. auto.
Qed.

Lemma lstrip_nonspace c s : is_space c = false -> lstrip (c :: s) = c :: s.
Proof. simpl. by intros ->. Qed.

Lemma forallb_rev (f : N -> bool) l : forallb f (rev l) = forallb f l.
Proof.
  induction l as [|a l IH]; simpl; [done|].
  rewrite forallb_app, IH. simpl. rewrite andb_true_r. apply andb_comm.
Qed.

Lemma rstrip_prefix s : exists r, s = rstrip s ++ r /\ forallb is_space r = true.
Proof.
  unfold rstrip. destruct (lstrip_suffix (rev s)) as [l [Hl Hsp]].
  exists (rev l). split.
  - rewrite <- rev_app_distr, <- Hl. by rewrite rev_involutive.
  - by rewrite forallb_rev.
Qed.

Lemma rstrip_last s t c : rstrip s = t ++ [c] -> is_space c = false.
Proof.
  unfold rstrip. intros H. apply (f_equal (@rev N)) in H.
  rewrite rev_involutive, rev_app_distr in H. simpl in H.
  by apply lstrip_head in H.
Qed.

(** [strip] keeps a middle part of the text, between two runs of
    whitespace, and the part kept neither starts nor ends with
    whitespace. *)
Lemma strip_decompose s :
  exists l r, s = l ++ strip s ++ r
              /\ forallb is_space l = true /\ forallb is_space r = true.
Proof.
  unfold strip. destruct (lstrip_suffix s) as [l [Hl Hsl]].
  destruct (rstrip_prefix (lstrip s)) as [r [Hr Hsr]].
  exists l, r. split; [|done]. by rewrite <- Hr.
Qed.

Lemma rstrip_head s c t : rstrip s = c :: t -> exists t', s = c :: t'.
Proof.
  destruct (rstrip_prefix s) as [r [Hr _]]. intros H. rewrite H in Hr.
  simpl in Hr. eauto.
Qed.

Lemma strip_head s c t : strip s = c :: t -> is_space c = false.
Proof.
  unfold strip. intros H. destruct (rstrip_head _ _ _ H) as [t' Ht'].
  by apply lstrip_head in Ht'.
Qed.

Lemma strip_last s t c : strip s = t ++ [c] -> is_space c = false.
Proof. unfold strip. apply rstrip_last. Qed.

Lemma rstrip_spaces s r : forallb is_space r = true -> rstrip (s ++ r) = rstrip s.
Proof.
  intros H. unfold rstrip. rewrite rev_app_distr, lstrip_spaces; [done|].
  by rewrite forallb_rev.
Qed.

Lemma rstrip_nonspace s c : is_space c = false -> rstrip (s ++ [c]) = s ++ [c].
Proof.
  intros H. unfold rstrip. rewrite rev_app_distr. simpl. rewrite H.
  simpl. by rewrite rev_involutive.
Qed.

(** The three shapes of a text, and what [strip] makes of each. *)
Lemma strip_blank s : forallb is_space s = true -> strip s = [].
Proof.
  intros H. unfold strip. rewrite <- (app_nil_r s), lstrip_spaces by done.
  done.
Qed.

Lemma strip_single l c r :
  forallb is_space l = true -> forallb is_space r = true ->
  is_space c = false -> strip (l ++ [c] ++ r) = [c].
Proof.
  intros Hl Hr Hc. unfold strip. rewrite lstrip_spaces by done.
  simpl. rewrite Hc. change (c :: r) with ([c] ++ r).
  rewrite rstrip_spaces by done. by apply (rstrip_nonspace []).
Qed.

Lemma strip_middle l a m b r :
  forallb is_space l = true -> forallb is_space r = true ->
  is_space a = false -> is_space b = false ->
  strip (l ++ (a :: m ++ [b]) ++ r) = a :: m ++ [b].
Proof.
  intros Hl Hr Ha Hb. unfold strip. rewrite lstrip_spaces by done.
  simpl. rewrite Ha. change (a :: (m ++ [b]) ++ r) with ((a :: m ++ [b]) ++ r).
  rewrite rstrip_spaces by done. by apply (rstrip_nonspace (a :: m)).
Qed.

Lemma has_newline_app a b : has_newline (a ++ b) = has_newline a || has_newline b.
Proof. unfold has_newline. apply existsb_app. Qed.

Lemma has_newline_false s : has_newline s = false <-> LF ∉ s.
Proof.
  unfold has_newline. induction s as [|c s IH]; cbn [existsb].
  - split; [intros _; apply not_elem_of_nil | done].
  - rewrite orb_false_iff, IH, not_elem_of_cons, N.eqb_neq. done.
Qed.

(** *** Sequence numbers as text *)

Lemma uint_chars_value u acc :
  foldl (fun acc c => (acc * 10 + (N.to_nat c - 48))%nat) acc (uint_chars u)
  = Nat.of_uint_acc u acc.
Proof.
  revert acc. induction u; intros acc; simpl; rewrite ?IHu, ?Nat.tail_mul_spec;
    try reflexivity; f_equal; lia.
Qed.

Lemma str_nat_value n : nat_of_digits (str_nat n) = n.
Proof.
  unfold nat_of_digits, str_nat. rewrite uint_chars_value.
  apply DecimalNat.Unsigned.of_to.
Qed.

Lemma format_04_value n : nat_of_digits (format_04 n) = n.
Proof.
  unfold format_04. rewrite <- (str_nat_value n) at 3. unfold nat_of_digits.
  rewrite foldl_app. f_equal.
  induction (4 - length (str_nat n))%nat as [|k IH]; simpl; [done|]. exact IH.
Qed.

(** Two sequence numbers never print alike. *)
Lemma format_04_inj m n : format_04 m = format_04 n -> m = n.
Proof.
  intros H. rewrite <- (format_04_value m), <- (format_04_value n). by rewrite H.
Qed.

Lemma format_04_length n :
  length (format_04 n) = Nat.max 4 (length (str_nat n)).
Proof. unfold format_04. rewrite length_app, length_replicate. lia. Qed.

Lemma uint_chars_digits u : forallb is_digit (uint_chars u) = true.
Proof. induction u; simpl; done. Qed.

(** A numeral is worth at least its leading part shifted by the digits that
    follow it. *)
Lemma digits_lower_bound ds acc :
  (acc * 10 ^ length ds
   <= foldl (fun acc c => acc * 10 + (N.to_nat c - 48)) acc ds)%nat.
Proof.
  revert acc. induction ds as [|d ds IH]; intros acc; simpl; [lia|].
  etrans; [|apply IH]. nia.
Qed.

(** [str] of a natural number is [0], or starts with a digit other than
    zero. *)
Lemma str_nat_head n :
  str_nat n = py "0"
  \/ exists c ds, str_nat n = c :: ds /\ 49 <= c.
Proof.
  unfold str_nat.
  assert (Hnorm : Nat.to_uint n = Decimal.unorm (Nat.to_uint n)).
  { rewrite <- (DecimalNat.Unsigned.to_of (Nat.to_uint n)).
    by rewrite DecimalNat.Unsigned.of_to. }
  destruct (Nat.to_uint n) as [|u|u|u|u|u|u|u|u|u|u] eqn:E; simpl;
    try (right; eexists _, _; split; [reflexivity|done]).
  - done.
  - left. rewrite DecimalFacts.unorm_D0 in Hnorm. unfold Decimal.unorm in Hnorm.
    destruct (Decimal.nzhead u) eqn:Hu; try done.
    + by injection Hnorm as ->.
    + by apply DecimalFacts.nzhead_nonzero in Hu.
Qed.

Lemma str_nat_length n : (n < 10000)%nat -> (length (str_nat n) <= 4)%nat.
Proof.
  intros Hn. destruct (str_nat_head n) as [->|(c & ds & E & Hc)]; [simpl; lia|].
  pose proof (str_nat_value n) as Hv. rewrite E in *. unfold nat_of_digits in Hv.
  simpl in Hv. pose proof (digits_lower_bound ds (N.to_nat c - 48)) as Hb.
  rewrite Hv in Hb. simpl.
  destruct (Nat.le_gt_cases (length ds) 3) as [|Hlen]; [lia|].
  assert (10 ^ 4 <= 10 ^ length ds)%nat by (apply Nat.pow_le_mono_r; lia).
  change (10 ^ 4)%nat with 10000%nat in *. nia.
Qed.

(** Below ten thousand the field is exactly four digits wide. *)
Lemma format_04_width n :
  (n < 10000)%nat -> length (format_04 n) = 4%nat /\ forallb is_digit (format_04 n) = true.
Proof.
  intros Hn. split.
  - rewrite format_04_length. pose proof (str_nat_length n Hn). lia.
  - unfold format_04. rewrite forallb_app. apply andb_true_iff. split.
    + induction (4 - length (str_nat n))%nat as [|k IH]; simpl; done.
    + apply uint_chars_digits.
Qed.

End PyStrFacts.

Import PyStrFacts.

(** ** [format_body] always returns *)

Module FormattingFacts.

Section WithFloats.
Variable float_repr : pystr -> pystr.
Variable floatstr : pystr -> pystr.

Lemma format_body_returns response raw :
  exists body, format_body float_repr floatstr response raw = Return body.
Proof.
  unfold format_body, Response_json. destruct raw; [eauto|].
  destruct (json_loads (text response)) as [[a|l|d]|]; simpl; eauto.
Qed.
End WithFloats.

End FormattingFacts.

Import FormattingFacts.

(** ** The polling loop *)

Module PollingFacts.

Local Open Scope nat_scope.

Section Run.
Variable float_repr : pystr -> pystr.
Variable floatstr : pystr -> pystr.
Variable time : Type.
Variable millis_1f : time -> time -> pystr.
Variable args : Namespace.
Variable headers : gmap pystr pystr.
Variable limit : option nat.
Variable verify : bool.

Abbreviation tick := (tick time).
Abbreviation iteration :=
  (iteration float_repr floatstr time millis_1f args headers limit verify).
Abbreviation while_loop :=
  (while_loop float_repr floatstr time millis_1f args headers limit verify).
Abbreviation guarded_loop :=
  (guarded_loop float_repr floatstr time millis_1f args headers limit verify).
Abbreviation get_event := (Vocabulary.get_event args headers verify).
Abbreviation after_attempt := (Vocabulary.after_attempt time args limit).
Abbreviation attempt_line :=
  (Vocabulary.attempt_line float_repr floatstr time millis_1f args).
Abbreviation classify := (Vocabulary.classify time).
Abbreviation reachable := (Vocabulary.reachable args headers verify).
Abbreviation uninterrupted := (Vocabulary.uninterrupted time).

Lemma iteration_interrupted tk w :
  get_outcome time tk = Interrupted ->
  iteration tk w
  = (Raise KeyboardInterrupt, record (bump_total (stats w)) [get_event] w).
Proof.
  intros H. unfold Polling.iteration, bind, try_except_else, session_get, bind.
  simpl. rewrite H. reflexivity.
Qed.

Lemma iteration_completed tk w :
  get_outcome time tk <> Interrupted ->
  exists file line,
    attempt_line (total (stats w) + 1) tk = Some (file, line)
    /\ iteration tk w
       = after_attempt tk
           (record (classify tk (bump_total (stats w))) [EvPrint file line]
              (record (bump_total (stats w)) [get_event] w)).
Proof.
  intros H. unfold attempt_line, classify.
  unfold Polling.iteration, bind, try_except_else, session_get, bind, after_attempt.
  simpl. destruct (get_outcome time tk) as [response|cls msg|] eqn:Hget; [| |done].
  - destruct (format_body_returns float_repr floatstr response (raw args))
      as [body Hbody].
    unfold lift. rewrite Hbody. simpl. rewrite Hbody.
    exists stdout. eexists. split; [done|].
    unfold record, bump_success, bump_total, print, emit, ret. simpl.
    rewrite <- !app_assoc. simpl.
    destruct (limit_reached _ _); [done|].
    destruct (gt_zero _); [|done].
    unfold time_sleep, bind, emit. simpl. rewrite <- !app_assoc. simpl.
    by destruct (sleep_interrupted time tk).
  - simpl. exists stderr. eexists. split; [done|].
    unfold record, bump_failure, bump_total. simpl.
    rewrite <- !app_assoc. simpl.
    destruct (limit_reached _ _); [done|].
    destruct (gt_zero _); [|done].
    unfold time_sleep, bind, emit. simpl. rewrite <- !app_assoc. simpl.
    by destruct (sleep_interrupted time tk).
Qed.

(** *** Elementary moves of a run *)

Lemma in_flight_record s ev w :
  in_flight (record s [ev] w) = match ev with EvGet _ _ _ _ => 1 | _ => 0 end.
Proof. unfold in_flight, record. simpl. by rewrite last_snoc. Qed.

Lemma attempt_line_settle request_id tk file line s :
  attempt_line request_id tk = Some (file, line) ->
  classify tk s = settle file s /\ numbered request_id line.
Proof.
  unfold attempt_line, classify.
  destruct (get_outcome time tk) as [response|cls msg|]; [| |done].
  - destruct (format_body _ _ _ _) as [body|]; [|done].
    intros [= <- <-]. split; [done|]. unfold response_line. by eexists.
  - intros [= <- <-]. split; [done|]. unfold error_line.
    exists (py "ERROR " ++ cls ++ py ": " ++ msg). reflexivity.
Qed.

Lemma after_attempt_reachable tk w r w' :
  reachable w -> in_flight w = 0 -> after_attempt tk w = (r, w') ->
  reachable w' /\ in_flight w' = 0
  /\ match r with Return _ => True | Raise e => e = KeyboardInterrupt end.
Proof.
  intros Hw Hf. unfold after_attempt.
  destruct (limit_reached limit (stats w)); [by intros [= <- <-]|].
  destruct (gt_zero (interval args)); [|by intros [= <- <-]].
  intros [= <- <-]. split; [by apply reach_sleep|].
  split; [by rewrite in_flight_record|]. by destruct (sleep_interrupted time tk).
Qed.

Lemma iteration_reachable tk w r w' :
  reachable w -> in_flight w = 0 -> iteration tk w = (r, w') ->
  reachable w'
  /\ match r with
     | Return _ => in_flight w' = 0
     | Raise e => e = KeyboardInterrupt
     end.
Proof.
  intros Hw Hf Hit.
  assert (get_outcome time tk = Interrupted \/ get_outcome time tk <> Interrupted)
    as [Hget|Hget] by (destruct (get_outcome time tk); auto).
  - rewrite iteration_interrupted in Hit by done. injection Hit as <- <-.
    split; [by apply reach_issue|done].
  - destruct (iteration_completed tk w Hget) as (file & line & Hline & Heq).
    rewrite Heq in Hit.
    destruct (attempt_line_settle _ _ _ _ (bump_total (stats w)) Hline) as [Hc Hn].
    rewrite Hc in Hit.
    apply after_attempt_reachable in Hit as (? & ? & ?).
    + split; [done|]. by destruct r.
    + apply (reach_settle args headers verify
               (record (bump_total (stats w)) [get_event] w)).
      * by apply reach_issue.
      * by rewrite in_flight_record.
      * simpl. done.
    + by rewrite in_flight_record.
Qed.

Lemma while_loop_reachable script w :
  reachable w -> in_flight w = 0 ->
  match while_loop script w with
  | Finished (Return _) w' => reachable w' /\ in_flight w' = 0
  | Finished (Raise e) w' => e = KeyboardInterrupt /\ reachable w'
  | Running w' => reachable w' /\ in_flight w' = 0
  end.
Proof.
  revert w. induction script as [|tk script IH]; intros w Hw Hf; simpl.
  - by destruct (keep_going limit (stats w)).
  - destruct (keep_going limit (stats w)); [|done].
    destruct (iteration tk w) as [r w'] eqn:Hit.
    destruct (iteration_reachable _ _ _ _ Hw Hf Hit) as [Hw' Hr].
    destruct r as [[|]|e]; [done| |done]. by apply IH.
Qed.

(** *** Invariants of the reachable states *)

Lemma stats_le_refl a : stats_le a a.
Proof. unfold stats_le. lia. Qed.

Lemma stats_le_trans a b c : stats_le a b -> stats_le b c -> stats_le a c.
Proof. unfold stats_le. lia. Qed.

Lemma stats_le_settle file s : stats_le s (settle file s).
Proof. unfold stats_le. destruct file; simpl; lia. Qed.

Lemma stats_le_bump_total s : stats_le s (bump_total s).
Proof. unfold stats_le. simpl. lia. Qed.

Lemma reachable_balance w :
  reachable w ->
  total (stats w) = success (stats w) + failure (stats w) + in_flight w.
Proof.
  induction 1 as [|w Hw IH Hf|w file line Hw IH Hf Hn|w Hw IH Hf].
  - reflexivity.
  - rewrite in_flight_record. simpl. lia.
  - rewrite in_flight_record. destruct file; simpl; lia.
  - rewrite in_flight_record. simpl. lia.
Qed.

Lemma reachable_snapshots w :
  reachable w ->
  Forall (fun se =>
            success se.1 + failure se.1 <= total se.1 <= success se.1 + failure se.1 + 1
            /\ stats_le se.1 (stats w)) (log w).
Proof.
  induction 1 as [|w Hw IH Hf|w file line Hw IH Hf Hn|w Hw IH Hf]; simpl.
  - constructor.
  - pose proof (reachable_balance w Hw) as Hb.
    apply Forall_app. split.
    + eapply Forall_impl; [exact IH|]. intros se [? ?]. split; [done|].
      eapply stats_le_trans; [done|]. apply stats_le_bump_total.
    + repeat constructor; simpl; lia.
  - pose proof (reachable_balance w Hw) as Hb.
    apply Forall_app. split.
    + eapply Forall_impl; [exact IH|]. intros se [? ?]. split; [done|].
      eapply stats_le_trans; [done|]. apply stats_le_settle.
    + repeat constructor; destruct file; simpl; lia.
  - pose proof (reachable_balance w Hw) as Hb.
    apply Forall_app. split.
    + done.
    + repeat constructor; simpl; lia.
Qed.

Lemma reachable_monotone w : reachable w -> monotone (log w).
Proof.
  unfold monotone.
  assert (Hsnoc : forall (w : world) s ev,
    (forall i j se1 se2, i <= j ->
       log w !! i = Some se1 -> log w !! j = Some se2 -> stats_le se1.1 se2.1) ->
    Forall (fun se => stats_le se.1 s) (log w) ->
    forall i j se1 se2, i <= j ->
      (log w ++ [(s, ev)]) !! i = Some se1 -> (log w ++ [(s, ev)]) !! j = Some se2 ->
      stats_le se1.1 se2.1).
  { intros w0 s ev IH Hall i j se1 se2 Hij H1 H2.
    apply lookup_app_Some in H2 as [H2|[Hlen H2]].
    - apply lookup_app_Some in H1 as [H1|[Hlen1 H1]].
      + eauto.
      + apply lookup_lt_Some in H2. lia.
    - apply list_lookup_singleton_Some in H2 as [_ <-]. simpl.
      apply lookup_app_Some in H1 as [H1|[Hlen1 H1]].
      + rewrite Forall_forall in Hall. apply (Hall se1).
        by eapply list_elem_of_lookup_2.
      + apply list_lookup_singleton_Some in H1 as [_ <-]. apply stats_le_refl. }
  induction 1 as [|w Hw IH Hf|w file line Hw IH Hf Hn|w Hw IH Hf]; simpl.
  - intros i j se1 se2 _ H1. by rewrite lookup_nil in H1.
  - apply Hsnoc; [done|].
    eapply Forall_impl; [exact (reachable_snapshots w Hw)|]. intros se [_ ?].
    eapply stats_le_trans; [done|]. apply stats_le_bump_total.
  - apply Hsnoc; [done|].
    eapply Forall_impl; [exact (reachable_snapshots w Hw)|]. intros se [_ ?].
    eapply stats_le_trans; [done|]. apply stats_le_settle.
  - apply Hsnoc; [done|].
    eapply Forall_impl; [exact (reachable_snapshots w Hw)|]. by intros se [_ ?].
Qed.

Lemma reachable_prints w :
  reachable w ->
  length (prints (log w)) = success (stats w) + failure (stats w)
  /\ length (filter (on_stream stdout) (prints (log w))) = success (stats w)
  /\ length (filter (on_stream stderr) (prints (log w))) = failure (stats w)
  /\ numbered_from_one (prints (log w)).
Proof.
  unfold numbered_from_one.
  induction 1 as [|w Hw IH Hf|w file line Hw IH Hf Hn|w Hw IH Hf];
    unfold prints, record in *; cbn [log stats map].
  - repeat split; try done; intros i file line H; by rewrite lookup_nil in H.
  - rewrite omap_app. cbn [omap snd]. by rewrite app_nil_r.
  - rewrite omap_app. cbn [omap snd mbind option_bind].
    destruct IH as (Hlen & Hout & Herr & Hnum).
    pose proof (reachable_balance w Hw) as Hb. rewrite Hf in Hb.
    rewrite !filter_app, !length_app, Hlen, Hout, Herr.
    repeat split.
    + destruct file; simpl; lia.
    + destruct file; simpl; lia.
    + destruct file; simpl; lia.
    + intros i f l H. apply lookup_app_Some in H as [H|[Hlen' H]]; [eauto|].
      apply list_lookup_singleton_Some in H as [Hi [= <- <-]].
      replace (S i) with (total (stats w)) by lia. done.
  - rewrite omap_app. cbn [omap snd]. by rewrite app_nil_r.
Qed.

Lemma reachable_issued w :
  reachable w ->
  map total (issued (log w)) = seq 1 (total (stats w))
  /\ Forall (fun s => total s = success s + failure s + 1) (issued (log w)).
Proof.
  induction 1 as [|w Hw IH Hf|w file line Hw IH Hf Hn|w Hw IH Hf];
    unfold issued in *; simpl.
  - split; [done|constructor].
  - rewrite omap_app. simpl. destruct IH as [Hseq Hall].
    pose proof (reachable_balance w Hw) as Hb. rewrite Hf in Hb.
    split.
    + rewrite map_app, Hseq. simpl.
      replace (total (stats w) + 1) with (S (total (stats w))) by lia.
      by rewrite seq_S.
    + apply Forall_app. split; [done|]. repeat constructor. simpl. lia.
  - rewrite omap_app. simpl. rewrite app_nil_r.
    destruct IH as [Hseq Hall]. split; [|done]. by destruct file.
  - rewrite omap_app. simpl. by rewrite app_nil_r.
Qed.

(** *** One iteration, counter by counter *)

Lemma after_attempt_stats tk w : stats (after_attempt tk w).2 = stats w.
Proof.
  unfold after_attempt. destruct (limit_reached limit (stats w)); [done|].
  by destruct (gt_zero (interval args)).
Qed.

Lemma iteration_stats tk w :
  stats (iteration tk w).2 = classify tk (bump_total (stats w)).
Proof.
  assert (get_outcome time tk = Interrupted \/ get_outcome time tk <> Interrupted)
    as [Hget|Hget] by (destruct (get_outcome time tk); auto).
  - rewrite iteration_interrupted by done. unfold classify. by rewrite Hget.
  - destruct (iteration_completed tk w Hget) as (file & line & _ & ->).
    by rewrite after_attempt_stats.
Qed.

Lemma iteration_total tk w : total (stats (iteration tk w).2) = S (total (stats w)).
Proof.
  rewrite iteration_stats. unfold classify.
  destruct (get_outcome time tk); simpl; lia.
Qed.

Lemma iteration_break tk w w' :
  iteration tk w = (Return true, w') -> limit_reached limit (stats w') = true.
Proof.
  assert (get_outcome time tk = Interrupted \/ get_outcome time tk <> Interrupted)
    as [Hget|Hget] by (destruct (get_outcome time tk); auto).
  - by rewrite iteration_interrupted.
  - destruct (iteration_completed tk w Hget) as (file & line & _ & ->).
    unfold after_attempt.
    destruct (limit_reached limit _) eqn:Hl; [by intros [= <-]|].
    destruct (gt_zero (interval args)); [|done].
    by destruct (sleep_interrupted time tk).
Qed.

Lemma after_attempt_prints tk w :
  prints (log (after_attempt tk w).2) = prints (log w).
Proof.
  unfold after_attempt. destruct (limit_reached limit (stats w)); [done|].
  destruct (gt_zero (interval args)); [|done].
  unfold prints, record. simpl. rewrite omap_app. simpl. by rewrite app_nil_r.
Qed.

Lemma iteration_uninterrupted tk w :
  uninterrupted tk ->
  exists w', iteration tk w = (Return (limit_reached limit (stats w')), w').
Proof.
  intros [Hget Hsleep].
  destruct (iteration_completed tk w Hget) as (file & line & _ & ->).
  unfold after_attempt.
  destruct (limit_reached limit _) eqn:Hl.
  - eexists. apply pair_equal_spec. split; [|reflexivity]. by rewrite Hl.
  - destruct (gt_zero (interval args)).
    + rewrite Hsleep. eexists. apply pair_equal_spec. split; [|reflexivity].
      simpl in Hl |- *. by rewrite Hl.
    + eexists. apply pair_equal_spec. split; [|reflexivity]. by rewrite Hl.
Qed.

Lemma while_loop_reachable_world script :
  reachable (world_of (while_loop script initial_world)).
Proof.
  pose proof (while_loop_reachable script initial_world
                (reach_start args headers verify) eq_refl) as H.
  destruct (while_loop script initial_world) as [[[]|e] w|w]; simpl; tauto.
Qed.

(** *** The count limit *)

Lemma while_loop_total_le n script w :
  limit = Some n -> total (stats w) <= n ->
  total (stats (world_of (while_loop script w))) <= n.
Proof.
  intros Hlim. revert w. induction script as [|tk script IH]; intros w Hle; simpl.
  - by destruct (keep_going limit (stats w)).
  - destruct (keep_going limit (stats w)) eqn:Hk; [|done].
    rewrite Hlim in Hk. simpl in Hk. apply bool_decide_eq_true in Hk.
    pose proof (iteration_total tk w) as Ht.
    destruct (iteration tk w) as [[[|]|e] w']; simpl in *; try lia.
    apply IH. lia.
Qed.

Lemma while_loop_at_limit n script w w' :
  limit = Some n -> total (stats w) <= n ->
  while_loop script w = Finished (Return tt) w' -> total (stats w') = n.
Proof.
  intros Hlim. revert w. induction script as [|tk script IH]; intros w Hle; simpl.
  - destruct (keep_going limit (stats w)) eqn:Hk; [done|]. intros [= <-].
    rewrite Hlim in Hk. simpl in Hk. apply bool_decide_eq_false in Hk. lia.
  - destruct (keep_going limit (stats w)) eqn:Hk.
    + rewrite Hlim in Hk. simpl in Hk. apply bool_decide_eq_true in Hk.
      pose proof (iteration_total tk w) as Ht.
      destruct (iteration tk w) as [[[|]|e] w1] eqn:Hit; simpl in *; [| |done].
      * intros [= <-]. apply iteration_break in Hit. rewrite Hlim in Hit.
        simpl in Hit. apply bool_decide_eq_true in Hit. lia.
      * apply IH. lia.
    + intros [= <-]. rewrite Hlim in Hk. simpl in Hk.
      apply bool_decide_eq_false in Hk. lia.
Qed.

Lemma while_loop_terminates n script w :
  limit = Some n ->
  n - total (stats w) <= length script ->
  Forall uninterrupted (take (n - total (stats w)) script) ->
  exists w', while_loop script w = Finished (Return tt) w'.
Proof.
  intros Hlim. revert w. induction script as [|tk script IH]; intros w Hlen Hun; simpl.
  - destruct (keep_going limit (stats w)) eqn:Hk; [|eauto].
    rewrite Hlim in Hk. simpl in *. apply bool_decide_eq_true in Hk. lia.
  - destruct (keep_going limit (stats w)) eqn:Hk; [|eauto].
    rewrite Hlim in Hk. simpl in Hk. apply bool_decide_eq_true in Hk.
    destruct (n - total (stats w)) as [|k] eqn:Hn; [lia|].
    simpl in Hun. apply Forall_cons in Hun as [Htk Hun].
    destruct (iteration_uninterrupted tk w Htk) as [w1 Hit].
    pose proof (iteration_total tk w) as Ht. rewrite Hit in *. simpl in Ht.
    destruct (limit_reached limit (stats w1)); [eauto|].
    apply IH.
    + simpl in Hlen. lia.
    + replace (n - total (stats w1)) with k by lia. done.
Qed.

End Run.

End PollingFacts.

Import PollingFacts.

(* ===================================================================== *)
(** * The polling engine against its specification *)
(* ===================================================================== *)

Module PollingSpec.

Local Open Scope nat_scope.

Section Engine.
Variable float_repr : pystr -> pystr.
Variable floatstr : pystr -> pystr.
Variable time : Type.
Variable millis_1f : time -> time -> pystr.
Variable seconds_1f : time -> time -> pystr.
Variable args : Namespace.

Abbreviation poll_while :=
  (Vocabulary.poll_while float_repr floatstr time millis_1f args).

Lemma poll_while_reachable script :
  reachable args (flatten_headers (header args)) (negb (insecure args))
    (world_of (poll_while script)).
Proof. apply while_loop_reachable_world. Qed.

Lemma poll_while_result script :
  match poll_while script with
  | Finished (Return _) w => in_flight w = 0
  | Finished (Raise e) w => e = KeyboardInterrupt
  | Running w => in_flight w = 0
  end.
Proof.
  pose proof (while_loop_reachable float_repr floatstr time millis_1f args
                (flatten_headers (header args)) (limit_of args)
                (negb (insecure args)) script initial_world
                (reach_start _ _ _) eq_refl) as H.
  unfold poll_while.
  destruct (while_loop _ _ _ _ _ _ _ _ script initial_world) as [[[]|e] w|w]; tauto.
Qed.







End Engine.


(** C5 on the specification's runs: one success among three failures
    exits with 0; failures only, or an interrupt before any answer, exit
    with 1. *)
Lemma exit_status_examples :
  (fst <$> poll Demo.fixed_float Demo.fixed_float unit Demo.fixed_1f Demo.fixed_1f
             (Demo.default_args 4) tt
             [Demo.refused; Demo.answers 503 (py "busy"); Demo.refused; Demo.refused] tt)
  = Some (Return 0)
  /\ (fst <$> poll Demo.fixed_float Demo.fixed_float unit Demo.fixed_1f Demo.fixed_1f
                (Demo.default_args 2) tt [Demo.refused; Demo.refused] tt)
     = Some (Return 1)
  /\ (fst <$> poll Demo.fixed_float Demo.fixed_float unit Demo.fixed_1f Demo.fixed_1f
                (Demo.default_args 0) tt [Demo.interrupted_in_request] tt)
     = Some (Return 1)
  /\ (fst <$> poll Demo.fixed_float Demo.fixed_float unit Demo.fixed_1f Demo.fixed_1f
                (Demo.default_args 0) tt
                [Demo.answers 200 Demo.blue; Demo.interrupted_in_sleep 200 Demo.blue] tt)
     = Some (Return 0)
  /\ poll Demo.fixed_float Demo.fixed_float unit Demo.fixed_1f Demo.fixed_1f
       (Demo.default_args 0) tt [Demo.answers 200 Demo.blue] tt
     = None.
Proof. repeat split; vm_compute; reflexivity. Qed.

(** What a short run prints, line by line. *)
Lemma transcript_example :
  prints (log (world_of
                 (poll_while Demo.fixed_float Demo.fixed_float unit Demo.fixed_1f
                    (Demo.default_args 0)
                    [Demo.answers 200 Demo.blue; Demo.refused;
                     Demo.interrupted_in_sleep 404 (py "  gone ")])))
  = [(stdout, Demo.quoted "[0001] 200 0.0ms {'color':'blue'}");
     (stderr, py "[0002] ERROR ConnectionError: connection refused");
     (stdout, py "[0003] 404 0.0ms gone")].
Proof. vm_compute. reflexivity. Qed.


End PollingSpec.

(* ===================================================================== *)
(** * The header set builder against its specification *)
(* ===================================================================== *)

Module HeadersSpec.

Lemma last_value_app name (items : list (pystr * pystr)) value after :
  name ∉ after.*1 ->
  last_value name (items ++ (name, value) :: after) = Some value.
Proof.
  intros Hafter.
  assert (Hnone : last_value name after = None).
  { induction after as [|[n v] after IH]; simpl; [done|].
    simpl in Hafter. apply not_elem_of_cons in Hafter as [Hn Hafter].
    rewrite IH by done. by rewrite decide_False. }
  induction items as [|[n v] items IH]; simpl.
  - rewrite Hnone. by rewrite decide_True.
  - by rewrite IH.
Qed.

Lemma last_value_none name (items : list (pystr * pystr)) :
  last_value name items = None <-> name ∉ items.*1.
Proof.
  induction items as [|[n v] items IH]; simpl.
  - split; [intros _; apply not_elem_of_nil|done].
  - rewrite not_elem_of_cons, <- IH.
    destruct (last_value name items) as [v'|].
    + split; [done|]. by intros [_ H].
    + destruct (decide (n = name)) as [->|Hne].
      * split; [done|]. by intros [H _].
      * split; [intros _; by split|done].
Qed.

Lemma foldl_insert_lookup (items : list (pystr * pystr)) (acc : gmap pystr pystr) name :
  foldl (fun headers item => <[item.1 := item.2]> headers) acc items !! name
  = match last_value name items with
    | Some v => Some v
    | None => acc !! name
    end.
Proof.
  revert acc. induction items as [|[n v] items IH]; intros acc; simpl; [done|].
  rewrite IH. destruct (last_value name items); [done|].
  destruct (decide (n = name)) as [->|Hne].
  - by rewrite lookup_insert_eq.
  - by rewrite lookup_insert_ne.
Qed.

(** C6.  The header set binds each name to the value of the last pair
    with that name, and binds nothing else; [X=1] then [X=2] leaves
    [X -> 2]. *)
Theorem last_header_wins (items : list (pystr * pystr)) (name : pystr) :
  flatten_headers items !! name = last_value name items
  /\ (forall before value after,
        items = before ++ (name, value) :: after -> name ∉ after.*1 ->
        flatten_headers items !! name = Some value)
  /\ (flatten_headers items !! name = None <-> name ∉ items.*1)
  /\ flatten_headers [(py "X", py "1"); (py "X", py "2")] = {[ py "X" := py "2" ]}.
Proof.
  assert (H : flatten_headers items !! name = last_value name items).
  { unfold flatten_headers. rewrite foldl_insert_lookup.
    destruct (last_value name items); [done|]. apply lookup_empty. }
  split; [done|]. split; [|split].
  - intros before value after -> Hafter. rewrite H. by apply last_value_app.
  - rewrite H. apply last_value_none.
  - unfold flatten_headers. simpl. apply insert_insert_eq.
Qed.

(** C6 on the specification's example, read through the first
    occurrence: the later pair hides it. *)
Lemma last_header_wins_witness :
  flatten_headers [(py "X", py "1"); (py "X", py "2")] !! py "X" = Some (py "2").
Proof.
  destruct (last_header_wins [(py "X", py "1"); (py "X", py "2")] (py "X"))
    as (_ & Hlast & _).
  apply (Hlast [(py "X", py "1")] (py "2") []).
  - reflexivity.
  - simpl. apply not_elem_of_nil.
Defined.

End HeadersSpec.

(* ===================================================================== *)
(** * The decoder never runs out of fuel *)
(* ===================================================================== *)

Module JsonFacts.

Local Open Scope nat_scope.

Lemma skip_ws_length s : length (skip_ws s) <= length s.
Proof.
  induction s as [|c s IH]; simpl; [done|].
  destruct (is_json_ws c); simpl; lia.
Qed.

Lemma cons_char_length c x content rest n :
  cons_char c x = Some (content, rest) ->
  (forall content', x = Some (content', rest) -> length rest < n) ->
  length rest < n.
Proof.
  destruct x as [[content' rest']|]; simpl; [|done].
  intros [= _ <-] H. by eapply H.
Qed.

Lemma scanstring_length s content rest :
  scanstring s = Some (content, rest) -> length rest < length s.
Proof.
  remember (length s) as n eqn:Hn.
  assert (Hle : length s <= n) by lia. clear Hn.
  revert s content rest Hle.
  induction n as [|n IH]; intros s content rest Hle.
  { destruct s; [done|simpl in Hle; lia]. }
  assert (IH' : forall s' c content,
             length s' <= n -> cons_char c (scanstring s') = Some (content, rest) ->
             length rest < S n).
  { intros s' c content' Hs' Hc. eapply cons_char_length; [exact Hc|].
    intros content'' Hx. apply IH in Hx; [lia|done]. }
  destruct s as [|c s']; [done|]. simpl in Hle. simpl.
  destruct (N.eqb c 34). { intros [= _ <-]. lia. }
  destruct (N.eqb c 92).
  - destruct s' as [|e s'']; [done|]. simpl in Hle.
    destruct (N.eqb e 117).
    + destruct s'' as [|h1 [|h2 [|h3 [|h4 r]]]]; try done. simpl in Hle.
      destruct (decode_uXXXX h1 h2 h3 h4) as [uni|]; [|done].
      destruct r as [|b [|u [|g1 [|g2 [|g3 [|g4 r2]]]]]];
        try (intros H; eapply (IH' _ _ _ _ H)).
      destruct (is_high_surrogate uni && N.eqb b 92 && N.eqb u 117);
        [|intros H; eapply (IH' _ _ _ _ H)].
      destruct (decode_uXXXX g1 g2 g3 g4) as [uni2|]; [|done].
      destruct (is_low_surrogate uni2); intros H; eapply (IH' _ _ _ _ H).
    + destruct (backslash e) as [c'|]; [|done].
      intros H; eapply (IH' _ _ _ _ H).
  - destruct (N.ltb c 32); [done|]. intros H; eapply (IH' _ _ _ _ H).
  Unshelve. all: simpl in *; lia.
Qed.

Lemma startswith_length word s rest :
  startswith word s = Some rest -> length s = length word + length rest.
Proof.
  revert s. induction word as [|w word IH]; intros s; simpl.
  - by intros [= ->].
  - destruct s as [|c s]; [done|]. destruct (N.eqb w c); [|done].
    intros H. apply IH in H. simpl. lia.
Qed.

Lemma span_digits_length s : length (span_digits s).2 <= length s.
Proof.
  induction s as [|c s IH]; simpl; [done|].
  destruct (is_digit c); [|simpl; lia].
  destruct (span_digits s) as [ds r]. simpl in *. lia.
Qed.

Lemma match_integer_length s integer rest :
  match_integer s = Some (integer, rest) -> length rest < length s.
Proof.
  unfold match_integer.
  assert (Hd : forall c s2 sign,
             (if N.eqb c 48 then Some (sign ++ [c], s2)
              else if is_digit c
                   then let '(ds, r) := span_digits s2 in Some (sign ++ c :: ds, r)
                   else None) = Some (integer, rest) ->
             length rest <= length s2).
  { intros c s2 sign. destruct (N.eqb c 48); [by intros [= _ <-]|].
    destruct (is_digit c); [|done].
    pose proof (span_digits_length s2) as Hs.
    destruct (span_digits s2) as [ds r]. intros [= _ <-]. done. }
  destruct s as [|c s']; [done|].
  destruct (N.eqb c 45).
  - destruct s' as [|c' s2]; [done|]. intros H%Hd. simpl. lia.
  - intros H%Hd. simpl. lia.
Qed.

Lemma match_frac_length s : length (match_frac s).2 <= length s.
Proof.
  unfold match_frac. destruct s as [|c s']; [done|].
  destruct (N.eqb c 46); [|done].
  pose proof (span_digits_length s') as Hs.
  destruct (span_digits s') as [[|d ds] r]; simpl in *; lia.
Qed.

Lemma match_exp_length s : length (match_exp s).2 <= length s.
Proof.
  unfold match_exp. destruct s as [|c s']; [done|].
  destruct (N.eqb c 101 || N.eqb c 69); [|done].
  assert (Hs1 : forall sign s1, length s1 <= length s' ->
            length (match span_digits s1 with
                    | ([], _) => ([], c :: s')
                    | (ds, r) => (c :: sign ++ ds, r)
                    end).2 <= length (c :: s')).
  { intros sign s1 Hle. pose proof (span_digits_length s1) as Hs.
    destruct (span_digits s1) as [[|d ds] r]; simpl in *; lia. }
  destruct s' as [|d s'']; [by apply Hs1|].
  destruct (N.eqb d 45 || N.eqb d 43); apply Hs1; simpl; lia.
Qed.

Lemma match_number_length s num rest :
  match_number s = Some (num, rest) -> length rest < length s.
Proof.
  unfold match_number.
  destruct (match_integer s) as [[integer r1]|] eqn:Hint; [|done].
  apply match_integer_length in Hint.
  pose proof (match_frac_length r1) as Hf.
  destruct (match_frac r1) as [frac r2].
  pose proof (match_exp_length r2) as He.
  destruct (match_exp r2) as [exp r3]. simpl in *.
  destruct (truthy frac || truthy exp); intros [= _ <-]; lia.
Qed.

Lemma consumes_mono s s' x : consumes s x -> length s <= length s' -> consumes s' x.
Proof. destruct x; simpl; [lia|done|done]. Qed.

(** One unfolding of each of the three mutually recursive scanners. *)
Lemma scan_once_S f c s' :
  scan_once (S f) (c :: s')
  = if N.eqb c 34 then
      match scanstring s' with
      | Some (str, r) => Scanned (PyScalar (PyStr str)) r
      | None => ScanError
      end
    else if N.eqb c 123 then
      match skip_ws s' with
      | q :: r =>
          if N.eqb q 125 then Scanned (PyDict []) r
          else if N.eqb q 34 then object_loop f [] r
          else ScanError
      | [] => ScanError
      end
    else if N.eqb c 91 then
      match skip_ws s' with
      | q :: r =>
          if N.eqb q 93 then Scanned (PyList []) r
          else array_loop f [] (q :: r)
      | [] => array_loop f [] []
      end
    else scan_literal (c :: s').
Proof. reflexivity. Qed.

Lemma array_loop_S f values s :
  array_loop (S f) values s
  = match scan_once f s with
    | Scanned value r =>
        match skip_ws r with
        | c :: r' =>
            if N.eqb c 93 then Scanned (PyList (values ++ [value])) r'
            else if N.eqb c 44 then array_loop f (values ++ [value]) (skip_ws r')
            else ScanError
        | [] => ScanError
        end
    | ScanError => ScanError
    | OutOfFuel => OutOfFuel
    end.
Proof. reflexivity. Qed.

Lemma object_loop_S f pairs s :
  object_loop (S f) pairs s
  = match scanstring s with
    | None => ScanError
    | Some (key, r) =>
        match skip_ws r with
        | c :: r1 =>
            if N.eqb c 58 then
              match scan_once f (skip_ws r1) with
              | Scanned value r2 =>
                  match skip_ws r2 with
                  | c2 :: r3 =>
                      if N.eqb c2 125
                      then Scanned (PyDict (dict_of_pairs (pairs ++ [(key, value)]))) r3
                      else if N.eqb c2 44 then
                        match skip_ws r3 with
                        | q :: r4 =>
                            if N.eqb q 34
                            then object_loop f (pairs ++ [(key, value)]) r4
                            else ScanError
                        | [] => ScanError
                        end
                      else ScanError
                  | [] => ScanError
                  end
              | ScanError => ScanError
              | OutOfFuel => OutOfFuel
              end
            else ScanError
        | [] => ScanError
        end
    end.
Proof. reflexivity. Qed.

Lemma scan_literal_consumes s : s <> [] -> consumes s (scan_literal s).
Proof.
  intros Hs. unfold scan_literal.
  destruct (startswith (py "null") s) as [r|] eqn:H1.
  { apply startswith_length in H1. simpl in *. lia. }
  destruct (startswith (py "true") s) as [r|] eqn:H2.
  { apply startswith_length in H2. simpl in *. lia. }
  destruct (startswith (py "false") s) as [r|] eqn:H3.
  { apply startswith_length in H3. simpl in *. lia. }
  destruct (match_number s) as [[num r]|] eqn:H4.
  { apply match_number_length in H4. simpl. lia. }
  destruct (startswith (py "NaN") s) as [r|] eqn:H5.
  { apply startswith_length in H5. simpl in *. lia. }
  destruct (startswith (py "Infinity") s) as [r|] eqn:H6.
  { apply startswith_length in H6. simpl in *. lia. }
  destruct (startswith (py "-Infinity") s) as [r|] eqn:H7.
  { apply startswith_length in H7. simpl in *. lia. }
  done.
Qed.

Lemma scan_fuel fuel :
  (forall s, 2 * length s < fuel -> consumes s (scan_once fuel s))
  /\ (forall values s, 2 * length s + 1 < fuel ->
        consumes s (array_loop fuel values s))
  /\ (forall pairs s, 2 * length s + 1 < fuel ->
        consumes s (object_loop fuel pairs s)).
Proof.
  induction fuel as [|f (IHs & IHa & IHo)].
  { repeat split; intros; lia. }
  split; [|split].
  - intros [|c s'] Hf; [done|]. rewrite scan_once_S. simpl in Hf.
    destruct (N.eqb c 34).
    { destruct (scanstring s') as [[str r]|] eqn:Hstr; [|done].
      apply scanstring_length in Hstr. simpl. lia. }
    pose proof (skip_ws_length s') as Hws.
    destruct (N.eqb c 123).
    { destruct (skip_ws s') as [|q r]; [done|]. simpl in Hws.
      destruct (N.eqb q 125); [simpl; lia|].
      destruct (N.eqb q 34); [|done].
      eapply consumes_mono; [apply IHo|]; simpl; lia. }
    destruct (N.eqb c 91).
    { destruct (skip_ws s') as [|q r].
      - eapply consumes_mono; [apply IHa|]; simpl; lia.
      - simpl in Hws. destruct (N.eqb q 93); [simpl; lia|].
        eapply consumes_mono; [apply IHa|]; simpl; lia. }
    by apply scan_literal_consumes.
  - intros values s Hf. rewrite array_loop_S.
    pose proof (IHs s ltac:(lia)) as Hv.
    destruct (scan_once f s) as [value r| |]; [|done|done]. simpl in Hv.
    pose proof (skip_ws_length r) as Hws.
    destruct (skip_ws r) as [|c r']; [done|]. simpl in Hws.
    destruct (N.eqb c 93); [simpl; lia|].
    destruct (N.eqb c 44); [|done].
    pose proof (skip_ws_length r') as Hws'.
    eapply consumes_mono; [apply IHa|]; lia.
  - intros pairs s Hf. rewrite object_loop_S.
    destruct (scanstring s) as [[key r]|] eqn:Hkey; [|done].
    apply scanstring_length in Hkey.
    pose proof (skip_ws_length r) as Hws.
    destruct (skip_ws r) as [|c r1]; [done|]. simpl in Hws.
    destruct (N.eqb c 58); [|done].
    pose proof (skip_ws_length r1) as Hws1.
    pose proof (IHs (skip_ws r1) ltac:(lia)) as Hv.
    destruct (scan_once f (skip_ws r1)) as [value r2| |]; [|done|done].
    simpl in Hv.
    pose proof (skip_ws_length r2) as Hws2.
    destruct (skip_ws r2) as [|c2 r3]; [done|]. simpl in Hws2.
    destruct (N.eqb c2 125); [simpl; lia|].
    destruct (N.eqb c2 44); [|done].
    pose proof (skip_ws_length r3) as Hws3.
    destruct (skip_ws r3) as [|q r4]; [done|]. simpl in Hws3.
    destruct (N.eqb q 34); [|done].
    eapply consumes_mono; [apply IHo|]; lia.
Qed.

(** The decoder decides every text: it returns a value or raises, the
    fuel it gives itself is never the reason for a failure. *)
Lemma loads_fuel_enough s : decode s <> OutOfFuel.
Proof.
  unfold decode.
  pose proof (proj1 (scan_fuel (loads_fuel s)) (skip_ws s)) as H.
  pose proof (skip_ws_length s) as Hws.
  destruct (scan_once (loads_fuel s) (skip_ws s)) as [obj r| |].
  - by destruct (skip_ws r).
  - done.
  - exfalso. apply H. unfold loads_fuel. lia.
Qed.

(** *** The [dict] of a decoded object *)

Lemma dict_set_fresh k v (d : pydict) : k ∉ d.*1 -> dict_set k v d = d ++ [(k, v)].
Proof.
  induction d as [|[k' v'] d IH]; simpl; [done|].
  intros [Hne Hd]%not_elem_of_cons. rewrite decide_False by done.
  by rewrite IH.
Qed.

Lemma dict_set_keys k v (d : pydict) :
  (dict_set k v d).*1 = if decide (k ∈ d.*1) then d.*1 else d.*1 ++ [k].
Proof.
  induction d as [|[k' v'] d IH].
  - rewrite decide_False; [done|apply not_elem_of_nil].
  - cbn [dict_set]. rewrite !fmap_cons. cbn [fst].
    destruct (decide (k = k')) as [->|Hne].
    + rewrite decide_True; [done|apply list_elem_of_here].
    + rewrite fmap_cons, IH. cbn [fst].
      destruct (decide (k ∈ d.*1)) as [Hin|Hout].
      * rewrite decide_True; [done|by apply list_elem_of_further].
      * rewrite decide_False; [done|]. by apply not_elem_of_cons.
Qed.

Lemma dict_set_NoDup k v (d : pydict) : NoDup d.*1 -> NoDup (dict_set k v d).*1.
Proof.
  intros Hd. rewrite dict_set_keys. destruct (decide (k ∈ d.*1)); [done|].
  apply NoDup_app. split; [done|]. split; [|apply NoDup_singleton].
  intros x Hx ->%list_elem_of_singleton. done.
Qed.

Lemma dict_get_set k k' v (d : pydict) :
  dict_get k' (dict_set k v d) = if decide (k' = k) then Some v else dict_get k' d.
Proof.
  induction d as [|[k0 v0] d IH]; simpl.
  - destruct (decide (k' = k)) as [->|Hne]; [done|]. done.
  - destruct (decide (k = k0)) as [->|Hne]; simpl.
    + destruct (decide (k' = k0)); done.
    + rewrite IH. destruct (decide (k' = k0)) as [->|]; [|done].
      by rewrite decide_False.
Qed.

(** [dict(pairs)] has no repeated key; a repeated key keeps the place of
    its first pair and the value of its last. *)
Lemma dict_of_pairs_NoDup pairs : NoDup (dict_of_pairs pairs).*1.
Proof.
  unfold dict_of_pairs.
  assert (H : forall acc : pydict, NoDup acc.*1 ->
            NoDup (foldl (fun d kv => dict_set kv.1 kv.2 d) acc pairs).*1).
  { induction pairs as [|[k v] pairs IH]; intros acc Hacc; simpl; [done|].
    apply IH. by apply dict_set_NoDup. }
  apply H. constructor.
Qed.

(** When the keys of the text are distinct, the [dict] is the members of
    the text, in the order of the text. *)
Lemma dict_of_pairs_distinct pairs : NoDup pairs.*1 -> dict_of_pairs pairs = pairs.
Proof.
  unfold dict_of_pairs.
  assert (H : forall acc : pydict, NoDup (acc ++ pairs).*1 ->
            foldl (fun d kv => dict_set kv.1 kv.2 d) acc pairs = acc ++ pairs).
  { induction pairs as [|[k v] pairs IH]; intros acc Hnd; simpl.
    - by rewrite app_nil_r.
    - rewrite dict_set_fresh.
      + rewrite IH; [by rewrite <- app_assoc|]. by rewrite <- app_assoc.
      + rewrite fmap_app in Hnd. apply NoDup_app in Hnd as (_ & Hdisj & _).
        intros Hin. apply (Hdisj k Hin). simpl. apply list_elem_of_here. }
  intros Hnd. by apply (H []).
Qed.

Lemma object_loop_dict fuel pairs s v r :
  object_loop fuel pairs s = Scanned v r ->
  exists pairs', v = PyDict (dict_of_pairs pairs').
Proof.
  revert pairs s. induction fuel as [|f IH]; intros pairs s; [done|].
  rewrite object_loop_S.
  destruct (scanstring s) as [[key r0]|]; [|done].
  destruct (skip_ws r0) as [|c r1]; [done|].
  destruct (N.eqb c 58); [|done].
  destruct (scan_once f (skip_ws r1)) as [value r2| |]; [|done|done].
  destruct (skip_ws r2) as [|c2 r3]; [done|].
  destruct (N.eqb c2 125); [intros [= <- _]; eauto|].
  destruct (N.eqb c2 44); [|done].
  destruct (skip_ws r3) as [|q r4]; [done|].
  destruct (N.eqb q 34); [|done]. apply IH.
Qed.

Lemma array_loop_list fuel values s v r :
  array_loop fuel values s = Scanned v r -> exists l, v = PyList l.
Proof.
  revert values s. induction fuel as [|f IH]; intros values s; [done|].
  rewrite array_loop_S.
  destruct (scan_once f s) as [value r0| |]; [|done|done].
  destruct (skip_ws r0) as [|c r']; [done|].
  destruct (N.eqb c 93); [intros [= <- _]; eauto|].
  destruct (N.eqb c 44); [|done]. apply IH.
Qed.

Lemma scan_literal_scalar s v r :
  scan_literal s = Scanned v r -> exists a, v = PyScalar a.
Proof.
  unfold scan_literal.
  repeat match goal with
         | |- context [match startswith ?w s with _ => _ end] =>
             destruct (startswith w s)
         | |- context [match match_number s with _ => _ end] =>
             destruct (match_number s) as [[? ?]|]
         end; intros [= <- _]; eauto.
Qed.

(** The [dict] of a decoded object has no repeated key. *)
Lemma loads_dict_NoDup s d : json_loads s = Some (PyDict d) -> NoDup d.*1.
Proof.
  unfold json_loads, decode, loads_fuel.
  destruct (skip_ws s) as [|c s'].
  { simpl. done. }
  rewrite scan_once_S.
  destruct (N.eqb c 34).
  { destruct (scanstring s') as [[str r]|]; [|done]. by destruct (skip_ws r). }
  destruct (N.eqb c 123).
  { destruct (skip_ws s') as [|q r]; [done|].
    destruct (N.eqb q 125).
    { destruct (skip_ws r); [|done]. intros [= <-]. constructor. }
    destruct (N.eqb q 34); [|done].
    destruct (object_loop _ [] r) as [v r'| |] eqn:Hobj; [|done|done].
    apply object_loop_dict in Hobj as [pairs ->].
    destruct (skip_ws r'); [|done]. intros [= <-]. apply dict_of_pairs_NoDup. }
  destruct (N.eqb c 91).
  { assert (H : forall x, (exists v r, x = Scanned v r /\ exists l, v = PyList l)
                          \/ x = ScanError \/ x = OutOfFuel ->
                match match x with
                      | Scanned obj r =>
                          match skip_ws r with
                          | [] => Scanned obj []
                          | _ :: _ => ScanError
                          end
                      | ScanError => ScanError
                      | OutOfFuel => OutOfFuel
                      end with
                | Scanned obj _ => Some obj
                | _ => None
                end = Some (PyDict d) -> NoDup d.*1).
    { intros x [(v & r & -> & l & ->)|[->| ->]]; [|done|done].
      by destruct (skip_ws r). }
    assert (Ha : forall s0, let x := array_loop (S (2 * length s)) [] s0 in
                 (exists v r, x = Scanned v r /\ exists l, v = PyList l)
                 \/ x = ScanError \/ x = OutOfFuel).
    { intros s0 x. destruct x as [v r| |] eqn:Hx; [left|auto|auto].
      exists v, r. split; [done|]. by eapply array_loop_list. }
    destruct (skip_ws s') as [|q r]; [apply H, Ha|].
    destruct (N.eqb q 93); [|apply H, Ha].
    by destruct (skip_ws r). }
  destruct (scan_literal (c :: s')) as [v r| |] eqn:Hlit; [|done|done].
  apply scan_literal_scalar in Hlit as [a ->]. by destruct (skip_ws r).
Qed.

(** *** What the encoder writes *)

(** Induction on a decoded value, through its lists and dicts. *)
Lemma pyvalue_nested_ind (P : pyvalue -> Prop) :
  (forall a, P (PyScalar a)) ->
  (forall l, Forall P l -> P (PyList l)) ->
  (forall d, Forall (fun kv => P kv.2) d -> P (PyDict d)) ->
  forall v, P v.
Proof.
  intros Hs Hl Hd. fix IH 1. intros [a|l|d].
  - apply Hs.
  - apply Hl. induction l as [|v l IHl]; constructor; [apply IH|exact IHl].
  - apply Hd. induction d as [|[k v] d IHd]; constructor; [apply IH|exact IHd].
Qed.

Lemma plain_excludes c s : forallb plain s = true -> plain c = false -> c ∉ s.
Proof.
  intros Hs Hc Hin. rewrite forallb_forall in Hs.
  apply list_elem_of_In in Hin. apply Hs in Hin. congruence.
Qed.

Lemma hex_digit_plain x : plain (hex_digit (N.land x 15)) = true.
Proof.
  assert (H : (N.land x 15 < 16)%N).
  { change 15%N with (N.ones 4). rewrite N.land_ones. by apply N.mod_lt. }
  unfold hex_digit, plain. destruct (N.ltb_spec (N.land x 15) 10);
    apply andb_true_iff; split; apply N.leb_le; lia.
Qed.

Lemma u_escape_plain n : forallb plain (u_escape n) = true.
Proof. unfold u_escape. simpl. by rewrite !hex_digit_plain. Qed.

Lemma escape_char_plain c : forallb plain (escape_char c) = true.
Proof.
  unfold escape_char.
  repeat match goal with
         | |- context [if N.eqb c ?k then _ else _] => destruct (N.eqb c k); [done|]
         end.
  destruct (N.leb 32 c && N.leb c 126) eqn:Hp.
  { simpl. unfold plain. by rewrite Hp. }
  destruct (N.ltb c 65536); [apply u_escape_plain|].
  rewrite forallb_app, !u_escape_plain. done.
Qed.

Lemma encode_basestring_ascii_plain s :
  forallb plain (encode_basestring_ascii s) = true.
Proof.
  unfold encode_basestring_ascii. simpl. rewrite forallb_app. simpl.
  rewrite andb_true_r. induction s as [|c s IH]; simpl; [done|].
  by rewrite forallb_app, escape_char_plain, IH.
Qed.

Lemma uint_chars_plain u : forallb plain (uint_chars u) = true.
Proof. induction u; simpl; done. Qed.

Lemma str_int_plain z : forallb plain (str_int z) = true.
Proof. destruct z; simpl; [done|apply uint_chars_plain|apply uint_chars_plain]. Qed.

Lemma plain_elem c s : forallb plain s = true -> c ∈ s -> plain c = true.
Proof.
  intros Hs Hin. rewrite forallb_forall in Hs. apply Hs. by apply list_elem_of_In.
Qed.

Lemma join_elem c sep parts :
  c ∈ join sep parts -> c ∈ sep \/ Exists (fun part => c ∈ part) parts.
Proof.
  induction parts as [|x parts IH]; simpl.
  - by intros ?%not_elem_of_nil.
  - destruct parts as [|y parts].
    + intros Hx. right. by constructor.
    + rewrite !elem_of_app. intros [Hx|[Hsep|Hrest]].
      * right. by constructor.
      * by left.
      * destruct (IH Hrest) as [?|?]; [by left|right; by constructor].
Qed.

(** Every character the encoder writes is printable ASCII, or comes from
    the rendering of a float. *)
Lemma json_dumps_chars floatstr v : ascii_outside_floats floatstr (json_dumps floatstr v).
Proof.
  unfold ascii_outside_floats.
  induction v as [a|l IH|d IH] using pyvalue_nested_ind; intros c.
  - destruct a as [|[|]|z|lit|s]; simpl; intros Hin.
    + left. eapply plain_elem; [|exact Hin]; reflexivity.
    + left. eapply plain_elem; [|exact Hin]; reflexivity.
    + left. eapply plain_elem; [|exact Hin]; reflexivity.
    + left. eapply plain_elem; [apply str_int_plain|done].
    + right. eauto.
    + left. eapply plain_elem; [apply encode_basestring_ascii_plain|done].
  - cbn [json_dumps]. rewrite elem_of_cons, elem_of_app.
    intros [->|[Hin|Hin]]; [by left| |left; eapply plain_elem; [|exact Hin]; reflexivity].
    apply join_elem in Hin as [Hin|Hin]; [left; eapply plain_elem; [|exact Hin]; reflexivity|].
    induction IH as [|v l Hv Hl IHl]; cbn [map] in Hin.
    + by apply Exists_nil in Hin.
    + apply Exists_cons in Hin as [Hin|Hin]; [by apply Hv|by apply IHl].
  - cbn [json_dumps]. rewrite elem_of_cons, elem_of_app.
    intros [->|[Hin|Hin]]; [by left| |left; eapply plain_elem; [|exact Hin]; reflexivity].
    apply join_elem in Hin as [Hin|Hin]; [left; eapply plain_elem; [|exact Hin]; reflexivity|].
    induction IH as [|[k v] d Hv Hd IHd]; cbn [map] in Hin.
    + by apply Exists_nil in Hin.
    + apply Exists_cons in Hin as [Hin|Hin]; [|by apply IHd].
      cbn [fst snd] in *. rewrite !elem_of_app in Hin.
      destruct Hin as [Hin|[Hin|Hin]].
      * left. eapply plain_elem; [apply encode_basestring_ascii_plain|done].
      * left. eapply plain_elem; [|exact Hin]; reflexivity.
      * by apply Hv.
Qed.

(** In particular a character that is not printable ASCII, a newline for
    one, appears in the output only if the rendering of a float brings
    it. *)
Lemma json_dumps_excludes floatstr c v :
  plain c = false -> (forall lit, c ∉ floatstr lit) -> c ∉ json_dumps floatstr v.
Proof.
  intros Hc Hfloat Hin. apply json_dumps_chars in Hin as [Hp|[lit Hin]].
  - congruence.
  - by apply Hfloat in Hin.
Qed.

End JsonFacts.

Import JsonFacts.

(* ===================================================================== *)
(** * The decoder reads back what the encoder writes *)
(* ===================================================================== *)

Module JsonRoundTrip.

Local Open Scope N_scope.

(** Linear arithmetic with divisions by constants. *)
Ltac divmod_lia := zify; Z.to_euclidean_division_equations; lia.

(** *** Strings *)

Lemma hex_value_digit d : d < 16 -> hex_value (hex_digit d) = Some d.
Proof.
  intros Hd. unfold hex_digit, hex_value.
  destruct (N.ltb_spec d 10).
  - replace ((48 <=? 48 + d) && (48 + d <=? 57)) with true.
    + f_equal. lia.
    + symmetry. apply andb_true_iff. split; apply N.leb_le; lia.
  - replace ((48 <=? 87 + d) && (87 + d <=? 57)) with false.
    + replace ((97 <=? 87 + d) && (87 + d <=? 102)) with true.
      * f_equal. lia.
      * symmetry. apply andb_true_iff. split; apply N.leb_le; lia.
    + symmetry. apply andb_false_iff. right. apply N.leb_gt. lia.
Qed.

Lemma nibble_lt x : N.land x 15 < 16.
Proof. change 15 with (N.ones 4). rewrite N.land_ones. by apply N.mod_lt. Qed.

Lemma decode_u_escape n :
  n < 65536 ->
  decode_uXXXX (hex_digit (N.land (N.shiftr n 12) 15)) (hex_digit (N.land (N.shiftr n 8) 15))
    (hex_digit (N.land (N.shiftr n 4) 15)) (hex_digit (N.land n 15)) = Some n.
Proof.
  intros Hn. unfold decode_uXXXX. rewrite !hex_value_digit by apply nibble_lt.
  f_equal. change 15 with (N.ones 4). rewrite !N.land_ones, !N.shiftr_div_pow2.
  change (2 ^ 12) with 4096. change (2 ^ 8) with 256. change (2 ^ 4) with 16.
  divmod_lia.
Qed.

Lemma lor_disjoint a b : N.land a b = 0 -> N.lor a b = a + b.
Proof.
  intros H. rewrite <- N.lxor_lor by done. symmetry. by apply N.add_nocarry_lxor.
Qed.

Lemma land_shiftl_low a b k : b < 2 ^ k -> N.land (N.shiftl a k) b = 0.
Proof.
  intros Hb. apply N.bits_inj_0. intros i. rewrite N.land_spec.
  destruct (N.lt_ge_cases i k) as [Hi|Hi].
  - by rewrite N.shiftl_spec_low.
  - destruct (N.eq_dec b 0) as [->|Hb0].
    + by rewrite N.bits_0, andb_false_r.
    + rewrite (N.bits_above_log2 b i), andb_false_r; [done|].
      apply N.lt_le_trans with k; [|done]. apply N.log2_lt_pow2; lia.
Qed.

Lemma lor_shiftl a b k : b < 2 ^ k -> N.lor (N.shiftl a k) b = a * 2 ^ k + b.
Proof.
  intros Hb. rewrite lor_disjoint by by apply land_shiftl_low.
  by rewrite N.shiftl_mul_pow2.
Qed.

Lemma lor_base base x :
  N.land base 1023 = 0 -> N.lor base (N.land x 1023) = base + N.land x 1023.
Proof.
  intros Hbase. apply lor_disjoint.
  rewrite N.land_assoc, (N.land_comm base x), <- N.land_assoc, Hbase.
  apply N.land_0_r.
Qed.

Lemma land_1023 x : N.land x 1023 = x mod 1024.
Proof. change 1023 with (N.ones 10). by rewrite N.land_ones. Qed.

(** The surrogate pair the encoder writes for a code point above the
    basic plane joins back into that code point. *)
Lemma surrogate_pair c :
  65536 <= c -> c < 1114112 ->
  let n := c - 65536 in
  let hi := N.lor 55296 (N.land (N.shiftr n 10) 1023) in
  let lo := N.lor 56320 (N.land n 1023) in
  hi < 65536 /\ lo < 65536
  /\ is_high_surrogate hi = true /\ is_low_surrogate lo = true
  /\ join_surrogates hi lo = c.
Proof.
  intros Hlo Hhi. cbv zeta.
  assert (Hc : c = c - 65536 + 65536) by lia.
  assert (Hn : c - 65536 < 1048576) by lia.
  revert Hc Hn. generalize (c - 65536). intros n Hc Hn.
  rewrite !lor_base by done. rewrite !land_1023, N.shiftr_div_pow2.
  change (2 ^ 10) with 1024.
  assert (Ha : (n / 1024) mod 1024 < 1024) by by apply N.mod_lt.
  assert (Hb : n mod 1024 < 1024) by by apply N.mod_lt.
  unfold is_high_surrogate, is_low_surrogate, join_surrogates.
  repeat split.
  - lia.
  - lia.
  - apply andb_true_iff. split; apply N.leb_le; divmod_lia.
  - apply andb_true_iff. split; apply N.leb_le; divmod_lia.
  - replace (55296 + (n / 1024) mod 1024 - 55296) with ((n / 1024) mod 1024) by divmod_lia.
    replace (56320 + n mod 1024 - 56320) with (n mod 1024) by divmod_lia.
    rewrite lor_shiftl by done. change (2 ^ 10) with 1024. divmod_lia.
Qed.

Lemma scanstring_u h1 h2 h3 h4 r :
  scanstring (92 :: 117 :: h1 :: h2 :: h3 :: h4 :: r)
  = match decode_uXXXX h1 h2 h3 h4 with
    | None => None
    | Some uni =>
        match r with
        | b :: u :: g1 :: g2 :: g3 :: g4 :: r2 =>
            if is_high_surrogate uni && (b =? 92) && (u =? 117) then
              match decode_uXXXX g1 g2 g3 g4 with
              | None => None
              | Some uni2 =>
                  if is_low_surrogate uni2
                  then cons_char (join_surrogates uni uni2) (scanstring r2)
                  else cons_char uni (scanstring r)
              end
            else cons_char uni (scanstring r)
        | _ => cons_char uni (scanstring r)
        end
    end.
Proof. reflexivity. Qed.

Lemma scanstring_u_escape n r :
  n < 65536 -> is_high_surrogate n = false ->
  scanstring (u_escape n ++ r) = cons_char n (scanstring r).
Proof.
  intros Hn Hs. unfold u_escape. cbn [app]. change (ch "\") with 92. change (ch "u") with 117.
  rewrite scanstring_u, decode_u_escape by done. rewrite Hs.
  by destruct r as [|b [|u [|g1 [|g2 [|g3 [|g4 r2]]]]]].
Qed.

Lemma scanstring_u_pair hi lo r :
  hi < 65536 -> lo < 65536 ->
  is_high_surrogate hi = true -> is_low_surrogate lo = true ->
  scanstring (u_escape hi ++ u_escape lo ++ r)
  = cons_char (join_surrogates hi lo) (scanstring r).
Proof.
  intros Hhi Hlo Hh Hl. unfold u_escape. cbn [app].
  change (ch "\") with 92. change (ch "u") with 117.
  rewrite scanstring_u, decode_u_escape by done. rewrite Hh.
  cbn [andb N.eqb Pos.eqb]. rewrite decode_u_escape by done. by rewrite Hl.
Qed.

Lemma scanstring_cons c s' :
  scanstring (c :: s')
  = if c =? 34 then Some ([], s')
    else if c =? 92 then scanstring (92 :: s')
    else if c <? 32 then None
    else cons_char c (scanstring s').
Proof.
  destruct (N.eqb_spec c 34) as [->|H34]; [done|].
  destruct (N.eqb_spec c 92) as [->|H92]; [done|].
  cbn [scanstring]. apply N.eqb_neq in H34, H92. by rewrite H34, H92.
Qed.

Lemma scanstring_escape_char c r :
  unicode_scalar c = true ->
  scanstring (escape_char c ++ r) = cons_char c (scanstring r).
Proof.
  intros Hc. unfold escape_char.
  destruct (N.eqb_spec c 34) as [->|H34]; [done|].
  destruct (N.eqb_spec c 92) as [->|H92]; [done|].
  destruct (N.eqb_spec c 10) as [->|H10]; [done|].
  destruct (N.eqb_spec c 13) as [->|H13]; [done|].
  destruct (N.eqb_spec c 9) as [->|H9]; [done|].
  destruct (N.eqb_spec c 8) as [->|H8]; [done|].
  destruct (N.eqb_spec c 12) as [->|H12]; [done|].
  destruct (N.leb_spec 32 c) as [H32|H32]; cbn [andb].
  - destruct (N.leb_spec c 126) as [H126|H126].
    + cbn [app]. rewrite scanstring_cons.
      apply N.eqb_neq in H34, H92. rewrite H34, H92.
      destruct (N.ltb_spec c 32); [lia|done].
    + destruct (N.ltb_spec c 65536) as [Hlt|Hge].
      * apply scanstring_u_escape; [done|].
        unfold unicode_scalar in Hc. unfold is_high_surrogate.
        apply andb_false_iff. rewrite !N.leb_gt.
        apply orb_true_iff in Hc as [Hc|Hc].
        -- apply N.ltb_lt in Hc. lia.
        -- apply andb_true_iff in Hc as [Hc _]. apply N.ltb_lt in Hc. lia.
      * assert (Hmax : c < 1114112).
        { unfold unicode_scalar in Hc. apply orb_true_iff in Hc as [Hc|Hc].
          - apply N.ltb_lt in Hc. lia.
          - apply andb_true_iff in Hc as [_ Hc]. by apply N.ltb_lt in Hc. }
        destruct (surrogate_pair c Hge Hmax) as (H1 & H2 & H3 & H4 & H5).
        rewrite <- app_assoc, scanstring_u_pair by done. by rewrite H5.
  - destruct (N.ltb_spec c 65536); [|lia].
    apply scanstring_u_escape; [lia|].
    unfold is_high_surrogate. apply andb_false_iff. left. apply N.leb_gt. lia.
Qed.

(** The decoder reads an encoded string back. *)
Lemma scanstring_encoded s rest :
  forallb unicode_scalar s = true ->
  scanstring (flat_map escape_char s ++ 34 :: rest) = Some (s, rest).
Proof.
  induction s as [|c s IH]; [done|].
  intros [Hc Hs]%andb_true_iff. cbn [flat_map]. rewrite <- app_assoc.
  rewrite scanstring_escape_char by done. by rewrite IH.
Qed.

(** *** Integers *)

Lemma span_digits_app ds rest :
  forallb is_digit ds = true -> delimited rest = true ->
  span_digits (ds ++ rest) = (ds, rest).
Proof.
  intros Hds Hrest. induction ds as [|d ds IH]; simpl.
  - destruct rest as [|c rest]; [done|]. simpl in Hrest. simpl.
    destruct (is_digit c) eqn:Hc; [|done]. exfalso.
    unfold is_digit in Hc. apply andb_true_iff in Hc as [H1 H2].
    apply N.leb_le in H1, H2.
    repeat apply orb_true_iff in Hrest as [Hrest|Hrest];
      apply N.eqb_eq in Hrest; lia.
  - simpl in Hds. apply andb_true_iff in Hds as [Hd Hds].
    rewrite Hd, IH by done. done.
Qed.

Lemma match_frac_delimited rest : delimited rest = true -> match_frac rest = ([], rest).
Proof.
  destruct rest as [|c rest]; [done|]. simpl. intros H.
  destruct (N.eqb_spec c 46) as [->|]; [done|done].
Qed.

Lemma match_exp_delimited rest : delimited rest = true -> match_exp rest = ([], rest).
Proof.
  destruct rest as [|c rest]; [done|]. simpl. intros H.
  destruct (N.eqb_spec c 101) as [->|]; [done|].
  destruct (N.eqb_spec c 69) as [->|]; [done|done].
Qed.

Lemma digits_value_acc u acc :
  foldl (fun a c => (a * 10 + Z.of_N (c - 48))%Z) (Zpos acc) (uint_chars u)
  = Zpos (Pos.of_uint_acc u acc).
Proof.
  revert acc. induction u; intros acc; simpl; [done|..];
    match goal with
    | |- foldl _ ?a _ = _ =>
        let x := fresh in
        evar (x : positive);
        replace a with (Zpos x); [subst x; apply IHu|subst x; lia]
    end.
Qed.

Lemma digits_value_uint u : digits_value (uint_chars u) = Z.of_N (Pos.of_uint u).
Proof.
  unfold digits_value. induction u; simpl; try done; apply digits_value_acc.
Qed.

Lemma digits_value_pos p : digits_value (uint_chars (Pos.to_uint p)) = Zpos p.
Proof. by rewrite digits_value_uint, DecimalPos.Unsigned.of_to. Qed.

Lemma to_uint_normal p : Pos.to_uint p = Decimal.unorm (Pos.to_uint p).
Proof.
  rewrite <- (DecimalPos.Unsigned.to_of (Pos.to_uint p)).
  by rewrite DecimalPos.Unsigned.of_to.
Qed.

(** A printed positive number starts with a digit other than zero. *)
Lemma to_uint_head p :
  exists c ds, uint_chars (Pos.to_uint p) = c :: ds
               /\ is_digit c = true /\ c <> 48.
Proof.
  pose proof (to_uint_normal p) as Hnorm.
  pose proof (DecimalPos.Unsigned.to_uint_nonzero p) as Hnz.
  pose proof (uint_chars_digits (Pos.to_uint p)) as Hd.
  destruct (Pos.to_uint p) as [|u|u|u|u|u|u|u|u|u|u] eqn:E; simpl in *;
    try (eexists _, _; split; [reflexivity|split; [done|done]]).
  - by apply DecimalPos.Unsigned.to_uint_nonnil in E.
  - exfalso. rewrite DecimalFacts.unorm_D0 in Hnorm. unfold Decimal.unorm in Hnorm.
    destruct (Decimal.nzhead u) eqn:Hu; try done;
      first [by apply DecimalFacts.nzhead_nonzero in Hu
            |injection Hnorm as ->; by apply Hnz].
Qed.

Lemma match_integer_pos p rest :
  delimited rest = true ->
  match_integer (uint_chars (Pos.to_uint p) ++ rest)
  = Some (uint_chars (Pos.to_uint p), rest)
  /\ match_integer (45 :: uint_chars (Pos.to_uint p) ++ rest)
     = Some (45 :: uint_chars (Pos.to_uint p), rest)
  /\ parse_int (uint_chars (Pos.to_uint p)) = Zpos p.
Proof.
  intros Hrest.
  destruct (to_uint_head p) as (c & ds & E & Hc & H48).
  pose proof (uint_chars_digits (Pos.to_uint p)) as Hd.
  pose proof (digits_value_pos p) as Hv.
  rewrite E in *. simpl in Hd. apply andb_true_iff in Hd as [_ Hd].
  assert (H45 : c <> 45).
  { unfold is_digit in Hc. apply andb_true_iff in Hc as [H1 H2].
    apply N.leb_le in H1, H2. lia. }
  apply N.eqb_neq in H45, H48.
  unfold match_integer, parse_int. cbn [app N.eqb Pos.eqb].
  rewrite H45, H48, Hc, span_digits_app by done. done.
Qed.

(** The decoder reads a printed integer back. *)
Lemma match_number_int z rest :
  delimited rest = true -> match_number (str_int z ++ rest) = Some (PyInt z, rest).
Proof.
  intros Hrest. unfold match_number.
  destruct z as [|p|p]; cbn [str_int].
  - simpl. rewrite match_frac_delimited, match_exp_delimited by done. done.
  - destruct (match_integer_pos p rest Hrest) as (-> & _ & Hv).
    rewrite match_frac_delimited, match_exp_delimited by done. simpl.
    by rewrite Hv.
  - change (ch "-") with 45. cbn [app].
    destruct (match_integer_pos p rest Hrest) as (_ & -> & Hv).
    rewrite match_frac_delimited, match_exp_delimited by done. simpl.
    unfold parse_int in Hv.
    destruct (uint_chars (Pos.to_uint p)) as [|c ds] eqn:E.
    + simpl in Hv. done.
    + destruct (N.eqb_spec c 45) as [->|H45].
      * exfalso. pose proof (uint_chars_digits (Pos.to_uint p)) as Hd.
        rewrite E in Hd. simpl in Hd. done.
      * by rewrite Hv.
Qed.

(** *** More fuel changes nothing *)
Local Open Scope nat_scope.

(** Once a scan has an answer, more fuel gives the same answer. *)
Lemma scan_fuel_mono f :
  (forall s f', f <= f' -> scan_once f s <> OutOfFuel -> scan_once f' s = scan_once f s)
  /\ (forall values s f', f <= f' -> array_loop f values s <> OutOfFuel ->
        array_loop f' values s = array_loop f values s)
  /\ (forall pairs s f', f <= f' -> object_loop f pairs s <> OutOfFuel ->
        object_loop f' pairs s = object_loop f pairs s).
Proof.
  induction f as [|f (IHs & IHa & IHo)].
  { repeat split; intros; done. }
  split; [|split].
  - intros s [|f'] Hle; [lia|]. destruct s as [|c s']; [done|].
    rewrite !scan_once_S.
    destruct (N.eqb c 34); [done|].
    destruct (N.eqb c 123).
    { destruct (skip_ws s') as [|q r]; [done|].
      destruct (N.eqb q 125); [done|]. destruct (N.eqb q 34); [|done].
      apply IHo. lia. }
    destruct (N.eqb c 91); [|done].
    destruct (skip_ws s') as [|q r]; [apply IHa; lia|].
    destruct (N.eqb q 93); [done|]. apply IHa. lia.
  - intros values s [|f'] Hle; [lia|]. rewrite !array_loop_S.
    destruct (scan_once f s) as [value r| |] eqn:Hscan; [| |done].
    + rewrite (IHs s f') by (rewrite ?Hscan; done || lia). rewrite Hscan.
      destruct (skip_ws r) as [|c r']; [done|].
      destruct (N.eqb c 93); [done|]. destruct (N.eqb c 44); [|done].
      apply IHa. lia.
    + rewrite (IHs s f') by (rewrite ?Hscan; done || lia). by rewrite Hscan.
  - intros pairs s [|f'] Hle; [lia|]. rewrite !object_loop_S.
    destruct (scanstring s) as [[key r]|]; [|done].
    destruct (skip_ws r) as [|c r1]; [done|].
    destruct (N.eqb c 58); [|done].
    destruct (scan_once f (skip_ws r1)) as [value r2| |] eqn:Hscan; [| |done].
    + rewrite (IHs (skip_ws r1) f') by (rewrite ?Hscan; done || lia). rewrite Hscan.
      destruct (skip_ws r2) as [|c2 r3]; [done|].
      destruct (N.eqb c2 125); [done|]. destruct (N.eqb c2 44); [|done].
      destruct (skip_ws r3) as [|q r4]; [done|].
      destruct (N.eqb q 34); [|done]. apply IHo. lia.
    + rewrite (IHs (skip_ws r1) f') by (rewrite ?Hscan; done || lia). by rewrite Hscan.
Qed.

Lemma scan_once_more f f' s v r :
  scan_once f s = Scanned v r -> f <= f' -> scan_once f' s = Scanned v r.
Proof.
  intros H Hle. rewrite <- H. apply (proj1 (scan_fuel_mono f)); [done|]. by rewrite H.
Qed.

Lemma array_loop_more f f' values s v r :
  array_loop f values s = Scanned v r -> f <= f' -> array_loop f' values s = Scanned v r.
Proof.
  intros H Hle. rewrite <- H.
  apply (proj1 (proj2 (scan_fuel_mono f))); [done|]. by rewrite H.
Qed.

Lemma object_loop_more f f' pairs s v r :
  object_loop f pairs s = Scanned v r -> f <= f' ->
  object_loop f' pairs s = Scanned v r.
Proof.
  intros H Hle. rewrite <- H.
  apply (proj2 (proj2 (scan_fuel_mono f))); [done|]. by rewrite H.
Qed.

(** *** Values *)
Local Open Scope N_scope.

Lemma skip_ws_start s : value_start s -> skip_ws s = s.
Proof. intros (c & s' & -> & Hc & _). simpl. by rewrite Hc. Qed.

Lemma skip_ws_cons c s : is_json_ws c = false -> skip_ws (c :: s) = c :: s.
Proof. intros H. simpl. by rewrite H. Qed.

Lemma str_int_head z :
  exists c ds, str_int z = c :: ds /\ (is_digit c = true \/ c = 45).
Proof.
  destruct z as [|p|p]; simpl.
  - eexists _, _. split; [done|]. by left.
  - destruct (to_uint_head p) as (c & ds & E & Hc & _). eauto.
  - eexists _, _. split; [done|]. by right.
Qed.

Lemma digit_or_minus c :
  is_digit c = true \/ c = 45 ->
  is_json_ws c = false /\ c <> 93 /\ (c =? 34) = false /\ (c =? 123) = false
  /\ (c =? 91) = false /\ (110 =? c) = false /\ (116 =? c) = false
  /\ (102 =? c) = false.
Proof.
  intros H.
  assert (Hr : 45 <= c <= 57).
  { destruct H as [H| ->]; [|lia]. unfold is_digit in H.
    apply andb_true_iff in H as [H1 H2]. apply N.leb_le in H1, H2. lia. }
  unfold is_json_ws. rewrite !orb_false_iff, !N.eqb_neq. lia.
Qed.

Section Reload.
Variable floatstr : pystr -> pystr.

Abbreviation reloads := (Vocabulary.reloads floatstr).
Abbreviation member_text := (Vocabulary.member_text floatstr).

Lemma json_dumps_start v rest :
  reloadable v = true -> value_start (json_dumps floatstr v ++ rest).
Proof.
  unfold value_start. destruct v as [[|[|]|z|lit|s]|l|d]; simpl; try done;
    try (intros _; eexists _, _; split; [reflexivity|split; [reflexivity|done]]).
  intros _. destruct (str_int_head z) as (c & ds & -> & Hc).
  apply digit_or_minus in Hc as (? & ? & _). eexists _, _. split; [reflexivity|done].
Qed.

Lemma reloads_scalar a : reloadable (PyScalar a) = true -> reloads (PyScalar a).
Proof.
  intros Ha rest Hrest. exists 1%nat.
  destruct a as [|[|]|z|lit|s]; try done.
  - simpl json_dumps. destruct (str_int_head z) as (c & ds & E & Hc).
    pose proof (match_number_int z rest Hrest) as Hnum. rewrite E in *.
    apply digit_or_minus in Hc as (_ & _ & H34 & H123 & H91 & Hn & Ht & Hf).
    cbn [app] in *. rewrite scan_once_S, H34, H123, H91.
    unfold scan_literal. cbn [startswith py map list_ascii_of_string].
    change (N_of_ascii "n") with 110. change (N_of_ascii "t") with 116.
    change (N_of_ascii "f") with 102.
    rewrite Hn, Ht, Hf, Hnum. done.
  - simpl in Ha. simpl json_dumps. unfold encode_basestring_ascii. cbn [app].
    rewrite scan_once_S. cbn [N.eqb Pos.eqb]. rewrite <- app_assoc. cbn [app].
    by rewrite scanstring_encoded.
Qed.

Lemma join_two (sep x y : pystr) parts t :
  join sep (x :: y :: parts) ++ t = x ++ sep ++ (join sep (y :: parts) ++ t).
Proof. cbn [join]. by rewrite <- !app_assoc. Qed.

Lemma reloads_elements l :
  Forall (fun v => reloadable v = true /\ reloads v) l -> l <> [] ->
  forall values rest,
    exists f, array_loop f values
                (join (py ",") (map (json_dumps floatstr) l) ++ 93 :: rest)
              = Scanned (PyList (values ++ l)) rest.
Proof.
  induction 1 as [|v l [Hv Hrel] Hl IH]; [done|]. intros _ values rest.
  destruct l as [|v2 l2].
  - cbn [map join].
    destruct (Hrel (93 :: rest) eq_refl) as [f Hf].
    exists (S f). rewrite array_loop_S, Hf. rewrite skip_ws_cons by done. done.
  - cbn [map]. rewrite join_two.
    destruct (Hrel (py "," ++ (join (py ",") (json_dumps floatstr v2 :: map (json_dumps floatstr) l2)
                               ++ 93 :: rest)) eq_refl) as [f1 Hf1].
    destruct (IH ltac:(done) (values ++ [v]) rest) as [f2 Hf2].
    exists (S (Nat.max f1 f2)). rewrite array_loop_S.
    rewrite (scan_once_more _ _ _ _ _ Hf1) by lia.
    cbn [py map list_ascii_of_string app]. change (N_of_ascii ",") with 44.
    rewrite skip_ws_cons by done. cbn [N.eqb Pos.eqb].
    rewrite skip_ws_start.
    + rewrite (array_loop_more _ _ _ _ _ _ Hf2) by lia. by rewrite <- app_assoc.
    + apply Forall_cons in Hl as [[Hv2 _] _]. cbn [join].
      destruct (map (json_dumps floatstr) l2); [by apply json_dumps_start|].
      rewrite <- app_assoc. by apply json_dumps_start.
Qed.

Lemma reloads_members (d : list (pystr * pyvalue)) :
  Forall (fun kv => forallb unicode_scalar kv.1 = true
                    /\ reloadable kv.2 = true /\ reloads kv.2) d ->
  d <> [] ->
  forall pairs rest,
    exists f, object_loop f pairs
                (tail (join (py ",") (map member_text d) ++ 125 :: rest))
              = Scanned (PyDict (dict_of_pairs (pairs ++ d))) rest.
Proof.
  induction 1 as [|[k v] d (Hk & Hv & Hrel) Hd IH]; [done|]. intros _ pairs rest.
  cbn [fst snd] in *.
  destruct d as [|[k2 v2] d2].
  - cbn [map join]. unfold member_text, encode_basestring_ascii. cbn [fst snd app tail].
    destruct (Hrel (125 :: rest) eq_refl) as [f Hf].
    exists (S f). rewrite object_loop_S.
    rewrite <- !app_assoc. cbn [app]. rewrite scanstring_encoded by done.
    cbn [py map list_ascii_of_string app]. change (N_of_ascii ":") with 58.
    rewrite skip_ws_cons by done. cbn [N.eqb Pos.eqb].
    rewrite skip_ws_start by by apply json_dumps_start.
    rewrite Hf. rewrite skip_ws_cons by done. done.
  - cbn [map]. rewrite join_two.
    unfold member_text at 1. unfold encode_basestring_ascii at 1. cbn [fst snd app tail].
    set (more := join (py ",") (member_text (k2, v2) :: map member_text d2) ++ 125 :: rest).
    destruct (Hrel (py "," ++ more) eq_refl) as [f1 Hf1].
    destruct (IH ltac:(done) (pairs ++ [(k, v)]) rest) as [f2 Hf2].
    exists (S (Nat.max f1 f2)). rewrite object_loop_S.
    rewrite <- !app_assoc. cbn [app]. rewrite scanstring_encoded by done.
    cbn [py map list_ascii_of_string app]. change (N_of_ascii ":") with 58.
    rewrite skip_ws_cons by done. cbn [N.eqb Pos.eqb].
    rewrite skip_ws_start by by apply json_dumps_start.
    rewrite (scan_once_more _ _ _ _ _ Hf1) by lia.
    cbn [py map list_ascii_of_string app]. change (N_of_ascii ",") with 44.
    rewrite skip_ws_cons by done. cbn [N.eqb Pos.eqb].
    assert (Hmore : exists t, more = 34 :: t).
    { unfold more. unfold member_text at 1, encode_basestring_ascii.
      destruct (map member_text d2); cbn [join app fst]; eauto. }
    destruct Hmore as [t Ht]. cbn [map] in Hf2. fold more in Hf2.
    rewrite Ht in Hf2 |- *. cbn [tail] in Hf2.
    rewrite skip_ws_cons by done. cbn [N.eqb Pos.eqb].
    rewrite (object_loop_more _ _ _ _ _ _ Hf2) by lia. by rewrite <- app_assoc.
Qed.

Lemma reloads_all v : reloadable v = true -> reloads v.
Proof.
  induction v as [a|l IH|d IH] using pyvalue_nested_ind; intros Hv.
  - by apply reloads_scalar.
  - intros rest Hrest. cbn [json_dumps].
    change (ch "[") with 91%N. change (py "]") with [93%N].
    destruct l as [|v l].
    + exists 1%nat. done.
    + assert (Hall : Forall (fun v => reloadable v = true /\ reloads v) (v :: l)).
      { change (forallb reloadable (v :: l) = true) in Hv.
        rewrite forallb_forall in Hv. rewrite Forall_forall in IH.
        apply Forall_forall. intros x Hx.
        assert (Hx' : reloadable x = true) by by apply Hv, list_elem_of_In.
        split; [done|]. by apply IH. }
      destruct (reloads_elements (v :: l) Hall ltac:(done) [] rest) as [f Hf].
      exists (S f). cbn [app]. rewrite scan_once_S. cbn [N.eqb Pos.eqb].
      rewrite <- app_assoc. cbn [app].
      rewrite skip_ws_start.
      * destruct (join _ _ ++ _) as [|q r] eqn:E; [done|].
        assert (Hq : (q =? 93) = false).
        { assert (Hs : value_start (q :: r)).
          { rewrite <- E. apply Forall_cons in Hall as [[Hv1 _] _]. cbn [map join].
            destruct (map (json_dumps floatstr) l); [by apply json_dumps_start|].
            rewrite <- app_assoc. by apply json_dumps_start. }
          destruct Hs as (c & s' & [= -> ->] & _ & Hc). by apply N.eqb_neq. }
        by rewrite Hq.
      * apply Forall_cons in Hall as [[Hv1 _] _]. cbn [map join].
        destruct (map (json_dumps floatstr) l); [by apply json_dumps_start|].
        rewrite <- app_assoc. by apply json_dumps_start.
  - intros rest Hrest. cbn [json_dumps].
    change (ch "{") with 123%N. change (py "}") with [125%N].
    destruct d as [|[k v] d].
    + exists 1%nat. done.
    + change (forallb (fun kv => forallb unicode_scalar kv.1 && reloadable kv.2)
                ((k, v) :: d)
              && bool_decide (NoDup ((k, v) :: d).*1) = true) in Hv.
      apply andb_true_iff in Hv as [Hv Hnd].
      apply bool_decide_eq_true in Hnd.
      assert (Hall : Forall (fun kv => forallb unicode_scalar kv.1 = true
                                       /\ reloadable kv.2 = true /\ reloads kv.2)
                       ((k, v) :: d)).
      { rewrite forallb_forall in Hv. rewrite Forall_forall in IH.
        apply Forall_forall. intros x Hx.
        assert (Hx' : forallb unicode_scalar x.1 && reloadable x.2 = true)
          by by apply Hv, list_elem_of_In.
        apply andb_true_iff in Hx' as [H1 H2].
        split; [done|]. split; [done|]. by apply IH. }
      destruct (reloads_members ((k, v) :: d) Hall ltac:(done) [] rest) as [f Hf].
      exists (S f). cbn [app]. rewrite scan_once_S. cbn [N.eqb Pos.eqb].
      rewrite <- app_assoc. cbn [app].
      fold (member_text). change (fun kv : pystr * pyvalue =>
              encode_basestring_ascii kv.1 ++ py ":" ++ json_dumps floatstr kv.2)
        with member_text in *.
      assert (Hhead : exists t, join (py ",") (map member_text ((k, v) :: d)) ++ 125 :: rest
                                = 34 :: t).
      { cbn [map]. destruct (map member_text d); cbn [join];
          unfold member_text, encode_basestring_ascii; cbn [app fst]; eauto. }
      destruct Hhead as [t Ht]. unfold pystr in *. rewrite Ht in Hf |- *.
      cbn [tail] in Hf.
      rewrite skip_ws_cons by done. cbn [N.eqb Pos.eqb]. rewrite Hf.
      cbn [app]. by rewrite dict_of_pairs_distinct.
Qed.

End Reload.

(** What the encoder writes for a value without floats, with strings of
    Unicode scalar values and dicts without repeated keys, the decoder
    reads back as that value. *)
Lemma loads_dumps floatstr v :
  reloadable v = true -> json_loads (json_dumps floatstr v) = Some v.
Proof.
  intros Hv.
  destruct (reloads_all floatstr v Hv [] eq_refl) as [f Hf].
  rewrite app_nil_r in Hf.
  pose proof (json_dumps_start floatstr v [] Hv) as Hstart.
  rewrite app_nil_r in Hstart.
  unfold json_loads, decode. rewrite skip_ws_start by done.
  set (s := json_dumps floatstr v) in *.
  assert (Hfuel : scan_once (loads_fuel s) s <> OutOfFuel).
  { pose proof (proj1 (scan_fuel (loads_fuel s)) s) as H.
    intros E. rewrite E in H. apply H. unfold loads_fuel. lia. }
  assert (E : scan_once (loads_fuel s) s = Scanned v []).
  { rewrite <- (proj1 (scan_fuel_mono (loads_fuel s)) s (Nat.max f (loads_fuel s)))
      by (done || lia).
    apply (scan_once_more f); [done|lia]. }
  by rewrite E.
Qed.

End JsonRoundTrip.

Import JsonRoundTrip.

(* ===================================================================== *)
(** * The response formatter against its specification *)
(* ===================================================================== *)

Module FormattingSpec.

Lemma strip_trimmed s : trimmed s (strip s).
Proof.
  destruct (strip_decompose s) as (l & r & Hs & Hl & Hr).
  exists l, r. repeat split; try done.
  - destruct (strip s) as [|c t] eqn:E; simpl; [done|]. by eapply strip_head.
  - destruct (last (strip s)) as [c|] eqn:E; simpl; [|done].
    apply last_Some in E as [t E]. by eapply strip_last.
Qed.

Lemma trimmed_strip s t : trimmed s t -> strip s = t.
Proof.
  intros (l & r & -> & Hl & Hr & Hhead & Hlast).
  destruct t as [|a t]; simpl in *.
  - apply strip_blank. by rewrite forallb_app, Hl, Hr.
  - destruct t as [|b t _] using rev_ind.
    + by apply (strip_single l a r).
    + change (a :: t ++ [b]) with ((a :: t) ++ [b]) in Hlast.
      rewrite last_snoc in Hlast. simpl in Hlast.
      by apply (strip_middle l a t b r).
Qed.

Lemma raw_rendering_str_or body placeholder :
  raw_rendering body placeholder (str_or (strip body) placeholder).
Proof.
  exists (strip body). split; [apply strip_trimmed|].
  unfold str_or. by destruct (strip body).
Qed.

Section WithFloats.
Variable float_repr : pystr -> pystr.
Variable floatstr : pystr -> pystr.


(** C10.  In parsed mode a JSON scalar is rendered by [str], not as
    JSON: [true] gives [True], [null] gives [None], a string gives its
    content without quotes, and the empty string gives an empty line, with
    no placeholder. *)
Theorem scalar_rendering response :
  match json_loads (text response) with
  | Some (PyScalar a) =>
      format_body float_repr floatstr response false
      = Return match a with
               | PyNone => py "None"
               | PyBool true => py "True"
               | PyBool false => py "False"
               | PyInt z => str_int z
               | PyFloat lit => float_repr lit
               | PyStr s => s
               end
  | _ => True
  end
  /\ format_body float_repr floatstr {| status_code := 200; text := py "true" |} false
     = Return (py "True")
  /\ format_body float_repr floatstr {| status_code := 200; text := py "null" |} false
     = Return (py "None")
  /\ format_body float_repr floatstr
       {| status_code := 200; text := Demo.quoted "'blue'" |} false
     = Return (py "blue")
  /\ format_body float_repr floatstr
       {| status_code := 200; text := Demo.quoted "''" |} false
     = Return []
  /\ json_dumps floatstr (PyScalar (PyBool true)) = py "true"
  /\ json_dumps floatstr (PyScalar PyNone) = py "null"
  /\ json_dumps floatstr (PyScalar (PyStr (py "blue"))) = Demo.quoted "'blue'".
Proof.
  split; [|repeat split].
  unfold format_body, Response_json.
  destruct (json_loads (text response)) as [[a|l|d]|]; [|done..].
  simpl. by destruct a as [|[|]|z|lit|s].
Qed.


End WithFloats.



(** The specification's examples. *)
Lemma format_body_examples :
  format_body Demo.fixed_float Demo.fixed_float
    {| status_code := 200; text := Demo.blue |} false = Return Demo.blue
  /\ format_body Demo.fixed_float Demo.fixed_float
       {| status_code := 200; text := py "  " ++ Demo.blue ++ [LF] |} true
     = Return Demo.blue
  /\ format_body Demo.fixed_float Demo.fixed_float
       {| status_code := 200; text := Demo.quoted "{ 'b' : [1, 2],  'a' : null }" |} false
     = Return (Demo.quoted "{'b':[1,2],'a':null}")
  /\ format_body Demo.fixed_float Demo.fixed_float
       {| status_code := 200; text := [] |} true = Return (py "<empty body>")
  /\ format_body Demo.fixed_float Demo.fixed_float
       {| status_code := 200; text := py "not json" |} false = Return (py "not json")
  /\ format_body Demo.fixed_float Demo.fixed_float
       {| status_code := 200; text := py "   " |} false = Return (py "<non-JSON body>")
  /\ (reloadable <$> json_loads (Demo.quoted "{ 'b' : [1, 2],  'a' : null }"))
     = Some true.
Proof. repeat split; vm_compute; reflexivity. Qed.

End FormattingSpec.

(* ===================================================================== *)
(** * The argument types *)
(* ===================================================================== *)

Import Validators RunVocabulary Padding.

(** ** Strings, integers and floats *)

Module ValidatorsFacts.

Lemma cut_found sep s before after :
  cut sep s = (before, Some after) ->
  s = before ++ sep :: after /\ sep ∉ before.
Proof.
  revert before. induction s as [|c s IH]; intros before; simpl; [done|].
  destruct (N.eqb_spec c sep) as [->|Hne].
  - intros [= <- <-]. split; [done|]. apply not_elem_of_nil.
  - destruct (cut sep s) as [b a]. intros [= <- ->].
    destruct (IH b eq_refl) as [-> Hb]. split; [done|].
    apply not_elem_of_cons. done.
Qed.

Lemma cut_app sep before after :
  sep ∉ before -> cut sep (before ++ sep :: after) = (before, Some after).
Proof.
  induction before as [|c before IH]; simpl; intros Hb.
  - by rewrite N.eqb_refl.
  - apply not_elem_of_cons in Hb as [Hc Hb].
    destruct (N.eqb_spec c sep) as [->|_]; [done|]. by rewrite IH.
Qed.

Lemma contains_false sep s :
  contains sep s = false <-> sep ∉ s.
Proof.
  unfold contains. induction s as [|c s IH]; simpl.
  - split; [intros _; apply not_elem_of_nil|done].
  - rewrite orb_false_iff, IH, not_elem_of_cons.
    destruct (N.eqb_spec sep c); split; intros [? ?]; done.
Qed.

Lemma contains_cut sep s :
  contains sep s = true -> exists before after, cut sep s = (before, Some after).
Proof.
  unfold contains. induction s as [|c s IH]; simpl; [done|].
  destruct (N.eqb_spec c sep) as [->|Hne].
  - intros _. by eexists _, _.
  - destruct (N.eqb_spec sep c) as [->|_]; [done|]. simpl. intros H.
    destruct (IH H) as (b & a & ->). by eexists _, _.
Qed.


Lemma strip_empty s : strip s = [] -> forallb is_space s = true.
Proof.
  intros H. destruct (strip_decompose s) as (l & r & Hs & Hl & Hr).
  rewrite H in Hs. rewrite Hs. simpl. by rewrite forallb_app, Hl, Hr.
Qed.

(** Whitespace around a text does not change what [strip] leaves. *)
Lemma strip_pad l s r :
  forallb is_space l = true -> forallb is_space r = true ->
  strip (l ++ s ++ r) = strip s.
Proof.
  intros Hl Hr. apply FormattingSpec.trimmed_strip.
  destruct (FormattingSpec.strip_trimmed s) as (l' & r' & Hs & Hl' & Hr' & Hh & Hla).
  exists (l ++ l'), (r' ++ r). split.
  - rewrite Hs at 1. by rewrite <- !app_assoc.
  - rewrite !forallb_app, Hl, Hl', Hr, Hr'. done.
Qed.

Lemma strip_strip s : strip (strip s) = strip s.
Proof.
  apply FormattingSpec.trimmed_strip.
  destruct (FormattingSpec.strip_trimmed s) as (l' & r' & Hs & Hl' & Hr' & Hh & Hla).
  exists [], []. rewrite app_nil_r. done.
Qed.

Lemma spaces_exclude c s : is_space c = false -> forallb is_space s = true -> c ∉ s.
Proof.
  intros Hc Hs Hin. rewrite forallb_forall in Hs.
  apply list_elem_of_In in Hin. apply Hs in Hin. congruence.
Qed.


Lemma last_value_split name (items : list (pystr * pystr)) value :
  last_value name items = Some value ->
  exists before after, items = before ++ (name, value) :: after /\ name ∉ after.*1.
Proof.
  induction items as [|[n v] items IH]; simpl; [done|].
  destruct (last_value name items) as [v'|] eqn:Hl.
  - intros [= ->]. destruct (IH eq_refl) as (before & after & -> & Hafter).
    by exists ((n, v) :: before), after.
  - destruct (decide (n = name)) as [->|]; [|done]. intros [= ->].
    exists [], items. split; [done|]. by apply HeadersSpec.last_value_none.
Qed.

Lemma flatten_headers_lookup items name :
  flatten_headers items !! name = last_value name items.
Proof.
  unfold flatten_headers. rewrite HeadersSpec.foldl_insert_lookup.
  destruct (last_value name items); [done|]. apply lookup_empty.
Qed.


(** *** Reading an integer *)

Lemma forallb_weaken (f g : N -> bool) l :
  (forall c, f c = true -> g c = true) -> forallb f l = true -> forallb g l = true.
Proof.
  intros Hfg. induction l as [|c l IH]; simpl; [done|].
  intros [Hc Hl]%andb_true_iff. rewrite (Hfg c Hc). auto.
Qed.

Lemma skip_c_space_prefix s :
  exists ws, s = ws ++ skip_c_space s /\ forallb is_c_space ws = true.
Proof.
  induction s as [|c s (ws & Hs & Hws)]; simpl.
  - by exists [].
  - destruct (is_c_space c) eqn:Hc.
    + exists (c :: ws). simpl. rewrite Hc, Hws. split; [by f_equal|done].
    + by exists [].
Qed.

Lemma skip_c_space_all ws s :
  forallb is_c_space ws = true -> skip_c_space (ws ++ s) = skip_c_space s.
Proof.
  induction ws as [|c ws IH]; simpl; [done|].
  intros [Hc Hws]%andb_true_iff. rewrite Hc. auto.
Qed.

Lemma skip_c_space_blank ws : forallb is_c_space ws = true -> skip_c_space ws = [].
Proof. intros H. rewrite <- (app_nil_r ws). by rewrite skip_c_space_all. Qed.

Lemma skip_c_space_nil s : skip_c_space s = [] -> forallb is_c_space s = true.
Proof.
  intros H. destruct (skip_c_space_prefix s) as (ws & Hs & Hws).
  rewrite H, app_nil_r in Hs. by subst.
Qed.

Lemma scan_digits_shape prev s text rest :
  scan_digits prev s = Some (text, rest) ->
  s = text ++ rest /\ forallb (fun c => is_digit c || (c =? 95)) text = true.
Proof.
  revert prev text. induction s as [|c s IH]; intros prev text; simpl.
  - destruct (prev =? 95); [done|]. by intros [= <- <-].
  - destruct (is_digit c || (c =? 95)) eqn:Hc.
    + destruct ((c =? 95) && (prev =? 95)); [done|].
      destruct (scan_digits c s) as [[t r]|] eqn:Hs; [|done].
      intros [= <- <-]. destruct (IH _ _ Hs) as [-> Ht]. simpl. by rewrite Hc, Ht.
    + destruct (prev =? 95); [done|]. by intros [= <- <-].
Qed.

Lemma is_digit_range c : is_digit c = true <-> 48 <= c <= 57.
Proof. unfold is_digit. rewrite andb_true_iff, !N.leb_le. done. Qed.

Lemma is_c_space_range c : is_c_space c = true <-> c = 32 \/ 9 <= c <= 13.
Proof.
  unfold is_c_space. rewrite orb_true_iff, andb_true_iff, N.eqb_eq, !N.leb_le. done.
Qed.

Lemma scan_digits_all prev ds rest :
  forallb is_digit ds = true -> (prev =? 95) = false ->
  match rest with c :: _ => is_digit c || (c =? 95) | [] => false end = false ->
  scan_digits prev (ds ++ rest) = Some (ds, rest).
Proof.
  revert prev. induction ds as [|d ds IH]; intros prev Hds Hprev Hrest; simpl.
  - destruct rest as [|c rest]; simpl; rewrite ?Hrest, Hprev; done.
  - simpl in Hds. apply andb_true_iff in Hds as [Hd Hds]. rewrite Hd. simpl.
    assert (H95 : (d =? 95) = false).
    { apply is_digit_range in Hd. apply N.eqb_neq. lia. }
    rewrite H95. simpl. by rewrite IH.
Qed.

Lemma filter_digits ds : forallb is_digit ds = true -> List.filter is_digit ds = ds.
Proof.
  induction ds as [|d ds IH]; simpl; [done|].
  intros [Hd Hds]%andb_true_iff. rewrite Hd. by rewrite IH.
Qed.

Lemma filter_no_digit s :
  forallb (fun c => negb (is_digit c)) s = true -> List.filter is_digit s = [].
Proof.
  induction s as [|c s IH]; simpl; [done|].
  intros [Hc Hs]%andb_true_iff. apply negb_true_iff in Hc. rewrite Hc. auto.
Qed.

Lemma digits_value_nat_acc ds (acc : nat) :
  foldl (fun acc c => (acc * 10 + Z.of_N (c - 48))%Z) (Z.of_nat acc) ds
  = Z.of_nat (foldl (fun acc c => (acc * 10 + (N.to_nat c - 48))%nat) acc ds).
Proof.
  revert acc. induction ds as [|d ds IH]; intros acc; cbn [foldl]; [done|].
  rewrite <- IH. f_equal. lia.
Qed.

Lemma digits_value_nat ds : digits_value ds = Z.of_nat (nat_of_digits ds).
Proof. apply (digits_value_nat_acc ds 0). Qed.

Lemma digits_value_nonneg ds : (0 <= digits_value ds)%Z.
Proof. rewrite digits_value_nat. lia. Qed.

Lemma c_space_ascii c :
  is_c_space c = true ->
  c < 128 /\ is_digit c = false /\ c <> 95 /\ c <> 43 /\ c <> 45.
Proof.
  intros H%is_c_space_range. rewrite <- not_true_iff_false, is_digit_range. lia.
Qed.

Lemma digit_ascii c :
  is_digit c = true ->
  c < 128 /\ is_c_space c = false /\ c <> 95 /\ c <> 43 /\ c <> 45.
Proof.
  intros H%is_digit_range. rewrite <- not_true_iff_false, is_c_space_range. lia.
Qed.

Section Conversions.
Variable todecimal : N -> option N.
Variable max_str_digits : nat.

Abbreviation transform := (transform todecimal).
Abbreviation to_ascii := (to_ascii todecimal).
Abbreviation long_from_string := (long_from_string max_str_digits).
Abbreviation int := (int todecimal max_str_digits).

(** The shape of a text that [PyLong_FromString] reads. *)
Lemma long_from_string_shape t z :
  long_from_string t = Some z ->
  exists ws sign text ws',
    t = ws ++ sign ++ text ++ ws'
    /\ forallb is_c_space ws = true /\ forallb is_c_space ws' = true
    /\ forallb (fun c => is_digit c || (c =? 95)) text = true
    /\ ((sign = [] \/ sign = [43]) /\ z = digits_value (List.filter is_digit text)
        \/ sign = [45] /\ z = (- digits_value (List.filter is_digit text))%Z).
Proof.
  unfold Validators.long_from_string.
  destruct (skip_c_space_prefix t) as (ws & Ht & Hws).
  set (s := skip_c_space t) in *. clearbody s. subst t.
  assert (Hgen : forall negative s1 sign,
    s = sign ++ s1 ->
    ((sign = [] \/ sign = [43]) /\ negative = false \/ sign = [45] /\ negative = true) ->
    (if match s1 with c :: _ => c =? 95 | [] => false end then None
     else match scan_digits 0 s1 with
          | None => None
          | Some (text, rest) =>
              match text, skip_c_space rest with
              | [], _ => None
              | _, _ :: _ => None
              | _, [] =>
                  let digits := List.filter is_digit text in
                  if Nat.ltb 640 (length digits) && Nat.ltb 0 max_str_digits
                     && Nat.ltb max_str_digits (length digits)
                  then None
                  else let z := digits_value digits in
                       Some (if negative then (- z)%Z else z)
              end
          end) = Some z ->
    exists ws0 sign0 text ws',
      ws ++ s = ws0 ++ sign0 ++ text ++ ws'
      /\ forallb is_c_space ws0 = true /\ forallb is_c_space ws' = true
      /\ forallb (fun c => is_digit c || (c =? 95)) text = true
      /\ ((sign0 = [] \/ sign0 = [43]) /\ z = digits_value (List.filter is_digit text)
          \/ sign0 = [45] /\ z = (- digits_value (List.filter is_digit text))%Z)).
  { intros negative s1 sign -> Hsign.
    destruct (match s1 with c :: _ => c =? 95 | [] => false end); [done|].
    destruct (scan_digits 0 s1) as [[text rest]|] eqn:Hscan; [|done].
    destruct (scan_digits_shape _ _ _ _ Hscan) as [-> Htext].
    destruct text as [|d text]; [done|].
    destruct (skip_c_space rest) eqn:Hrest; [|done].
    apply skip_c_space_nil in Hrest. cbv zeta.
    destruct (_ && _); [done|]. intros [= <-].
    exists ws, sign, (d :: text), rest. repeat split; try done.
    destruct Hsign as [[Hs ->]|[Hs ->]]; [left|right]; done. }
  destruct s as [|c s']; [apply (Hgen false [] []); auto|].
  destruct (N.eqb_spec c 43) as [->|H43].
  { apply (Hgen false s' [43]); auto. }
  destruct (N.eqb_spec c 45) as [->|H45].
  { apply (Hgen true s' [45]); auto. }
  apply (Hgen false (c :: s') []); auto.
Qed.

Lemma transform_keeps_minus s :
  63 ∉ transform s -> 45 ∈ s -> 45 ∈ transform s.
Proof.
  induction s as [|c s IH]; simpl; [done|].
  intros H63 [<-|Hin]%elem_of_cons.
  - apply list_elem_of_here.
  - destruct (c <? 127).
    + apply not_elem_of_cons in H63 as [_ H63]. apply list_elem_of_further. auto.
    + destruct (is_space c).
      * apply not_elem_of_cons in H63 as [_ H63]. apply list_elem_of_further. auto.
      * destruct (todecimal c).
        -- apply not_elem_of_cons in H63 as [_ H63]. apply list_elem_of_further. auto.
        -- exfalso. apply H63. apply list_elem_of_here.
Qed.

Lemma transform_minus s : 45 ∈ transform s -> 45 ∈ s.
Proof.
  induction s as [|c s IH]; simpl; [done|].
  destruct (c <? 127).
  { intros [<-|Hin]%elem_of_cons; [apply list_elem_of_here|].
    apply list_elem_of_further; auto. }
  destruct (is_space c).
  { intros [?|Hin]%elem_of_cons; [done|]. apply list_elem_of_further; auto. }
  destruct (todecimal c).
  - intros [?|Hin]%elem_of_cons; [lia|]. apply list_elem_of_further; auto.
  - intros [?|Hin]%elem_of_cons; [done|]. by apply elem_of_nil in Hin.
Qed.

(** What [int] reads, in terms of the text brought to ASCII. *)
Lemma int_shape value z :
  int value = Some z ->
  forallb (fun c => is_digit c || (c =? 95) || (c =? 43) || (c =? 45) || is_c_space c)
    (to_ascii value) = true
  /\ ((45 ∉ value) /\ z = digits_value (List.filter is_digit (to_ascii value))
      \/ 45 ∈ value /\ z = (- digits_value (List.filter is_digit (to_ascii value)))%Z).
Proof.
  unfold Validators.int. intros H.
  destruct (long_from_string_shape _ _ H)
    as (ws & sign & text & ws' & Ht & Hws & Hws' & Htext & Hsign).
  assert (Hfilter : List.filter is_digit (to_ascii value) = List.filter is_digit text).
  { rewrite Ht, !List.filter_app.
    rewrite (filter_no_digit ws), (filter_no_digit ws'), app_nil_r; cycle 1.
    { eapply forallb_weaken; [|exact Hws']. intros c Hc%c_space_ascii.
      apply negb_true_iff. tauto. }
    { eapply forallb_weaken; [|exact Hws]. intros c Hc%c_space_ascii.
      apply negb_true_iff. tauto. }
    by destruct Hsign as [[[->| ->] _]|[-> _]]. }
  assert (Hallowed :
    forallb (fun c => is_digit c || (c =? 95) || (c =? 43) || (c =? 45) || is_c_space c)
      (to_ascii value) = true).
  { rewrite Ht, !forallb_app. repeat (apply andb_true_iff; split).
    - eapply forallb_weaken; [|exact Hws]. intros c ->. by rewrite !orb_true_r.
    - by destruct Hsign as [[[->| ->] _]|[-> _]].
    - eapply forallb_weaken; [|exact Htext]. by intros c ->.
    - eapply forallb_weaken; [|exact Hws']. intros c ->. by rewrite !orb_true_r. }
  split; [done|]. rewrite Hfilter.
  assert (H63 : 63 ∉ to_ascii value).
  { intros Hin. rewrite forallb_forall in Hallowed.
    apply list_elem_of_In, Hallowed in Hin. done. }
  assert (Hminus : 45 ∈ value <-> 45 ∈ to_ascii value).
  { unfold Validators.to_ascii in *. destruct (forallb _ value); [done|].
    split; [by apply transform_keeps_minus|apply transform_minus]. }
  assert (Hout : 45 ∉ ws ++ text ++ ws').
  { rewrite !not_elem_of_app. repeat split.
    - intros Hin. rewrite forallb_forall in Hws. apply list_elem_of_In, Hws in Hin. done.
    - intros Hin. rewrite forallb_forall in Htext. apply list_elem_of_In, Htext in Hin. done.
    - intros Hin. rewrite forallb_forall in Hws'. apply list_elem_of_In, Hws' in Hin. done. }
  rewrite !not_elem_of_app in Hout. destruct Hout as (Hw1 & Hw2 & Hw3).
  destruct Hsign as [[Hs ->]|[-> ->]]; [left|right]; split; try done.
  - rewrite Hminus, Ht, !elem_of_app.
    intros [?|[Hin|[?|?]]]; try done.
    destruct Hs as [-> | ->]; [by apply elem_of_nil in Hin|].
    by apply list_elem_of_singleton in Hin.
  - rewrite Hminus, Ht, !elem_of_app. right. left. apply list_elem_of_here.
Qed.

End Conversions.

(** *** Comparing a float with zero *)

Lemma above_zero x :
  PrimFloat.leb x PrimFloat.zero
  = negb (PrimFloat.is_nan x || PrimFloat.ltb PrimFloat.zero x).
Proof.
  unfold PrimFloat.is_nan.
  rewrite FloatAxioms.leb_spec, FloatAxioms.ltb_spec, FloatAxioms.eqb_spec.
  change (FloatOps.Prim2SF PrimFloat.zero) with (SpecFloat.S754_zero false).
  destruct (FloatOps.Prim2SF x) as [[|]|[|]| |[|] m e]; try reflexivity.
  - unfold SpecFloat.SFeqb, SpecFloat.SFcompare.
    rewrite Z.compare_refl, Pos.compare_cont_refl. reflexivity.
  - unfold SpecFloat.SFeqb, SpecFloat.SFcompare.
    rewrite Z.compare_refl, Pos.compare_cont_refl. reflexivity.
Qed.

Lemma below_zero x :
  PrimFloat.ltb x PrimFloat.zero
  = negb (PrimFloat.is_nan x || PrimFloat.leb PrimFloat.zero x).
Proof.
  unfold PrimFloat.is_nan.
  rewrite FloatAxioms.leb_spec, FloatAxioms.ltb_spec, FloatAxioms.eqb_spec.
  change (FloatOps.Prim2SF PrimFloat.zero) with (SpecFloat.S754_zero false).
  destruct (FloatOps.Prim2SF x) as [[|]|[|]| |[|] m e]; try reflexivity.
  - unfold SpecFloat.SFeqb, SpecFloat.SFcompare.
    rewrite Z.compare_refl, Pos.compare_cont_refl. reflexivity.
  - unfold SpecFloat.SFeqb, SpecFloat.SFcompare.
    rewrite Z.compare_refl, Pos.compare_cont_refl. reflexivity.
Qed.

Lemma zero_or_above x :
  PrimFloat.leb PrimFloat.zero x
  = PrimFloat.eqb x PrimFloat.zero || PrimFloat.ltb PrimFloat.zero x.
Proof.
  rewrite FloatAxioms.leb_spec, FloatAxioms.ltb_spec, FloatAxioms.eqb_spec.
  change (FloatOps.Prim2SF PrimFloat.zero) with (SpecFloat.S754_zero false).
  by destruct (FloatOps.Prim2SF x) as [[|]|[|]| |[|] m e].
Qed.

End ValidatorsFacts.

Import ValidatorsFacts.

(** ** The argument types against the code *)

Module ValidatorsSpec.

(** X1.  [header_type] raises nothing but [ArgumentTypeError].  It
    accepts a text exactly when the text has an equals sign and something
    other than whitespace before the first one; the name is then what
    precedes that sign, trimmed, and the value is all that follows it,
    untouched.  A text without equals sign, and a text whose name is blank,
    are refused, each with its own message. *)
Theorem header_type_cases header :
  match header_type header with
  | Converted (name, value) =>
      exists before,
        header = before ++ ch "=" :: value /\ (ch "=" ∉ before)
        /\ trimmed before name /\ name <> []
  | ArgumentTypeError message =>
      ((ch "=" ∉ header) /\ message = py "Header must look like NAME=VALUE")
      \/ (exists blank value,
            header = blank ++ ch "=" :: value /\ forallb is_space blank = true
            /\ message = py "Header name cannot be empty")
  | Uncaught _ => False
  end.
Proof.
  unfold header_type. destruct (contains (ch "=") header) eqn:Hc; cbn [negb].
  - destruct (contains_cut _ _ Hc) as (before & value & Hp).
    unfold split_1. rewrite Hp.
    destruct (cut_found _ _ _ _ Hp) as [-> Hb].
    destruct (strip before) as [|c name] eqn:Hs; cbn [truthy negb].
    + right. exists before, value. split; [done|]. split; [by apply strip_empty|done].
    + exists before. repeat split; try done.
      rewrite <- Hs. apply FormattingSpec.strip_trimmed.
  - left. split; [by apply contains_false|done].
Qed.

(** X2.  A name that is not empty, has no equals sign and neither starts
    nor ends with whitespace is read back from [NAME=VALUE], whatever
    whitespace surrounds the name and whatever the value is. *)
Theorem header_type_round_trip lead name trail value :
  name <> [] -> ch "=" ∉ name -> strip name = name ->
  forallb is_space lead = true -> forallb is_space trail = true ->
  header_type (lead ++ name ++ trail ++ ch "=" :: value) = Converted (name, value).
Proof.
  intros Hne Heq Hstrip Hl Hr.
  assert (Hb : ch "=" ∉ lead ++ name ++ trail).
  { rewrite !not_elem_of_app. repeat split; try done; by apply spaces_exclude. }
  unfold header_type.
  replace (lead ++ name ++ trail ++ ch "=" :: value)
    with ((lead ++ name ++ trail) ++ ch "=" :: value) by (by rewrite <- !app_assoc).
  assert (Hc : contains (ch "=") ((lead ++ name ++ trail) ++ ch "=" :: value) = true).
  { unfold contains. rewrite existsb_app. simpl. by rewrite orb_true_r. }
  rewrite Hc. cbn [negb]. unfold split_1. rewrite cut_app by done.
  rewrite strip_pad, Hstrip by done. by destruct name.
Qed.

(** X2 on a name with spaces around it and a value with an equals sign. *)
Lemma header_type_round_trip_witness :
  header_type (py " X-Env = blue=green ") = Converted (py "X-Env", py " blue=green ").
Proof.
  apply (header_type_round_trip (py " ") (py "X-Env") (py " ") (py " blue=green ")).
  - discriminate.
  - vm_compute. intros H. repeat (apply elem_of_cons in H as [H|H]; [discriminate|]).
    by apply elem_of_nil in H.
  - reflexivity.
  - reflexivity.
  - reflexivity.
Defined.


(** X3.  When [args.header] holds the conversions of the header
    arguments in their order, the header set binds a name to a value
    exactly when that value comes from the last argument whose name,
    trimmed, is that name: two arguments whose names differ only by
    surrounding whitespace are the same header, and the later one wins. *)
Theorem header_arguments_last_wins (arguments : list pystr)
    (items : list (pystr * pystr)) (name value : pystr) :
  Forall2 (fun argument item => header_type argument = Converted item) arguments items ->
  flatten_headers items !! name = Some value
  <-> exists earlier argument later,
        arguments = earlier ++ argument :: later
        /\ header_type argument = Converted (name, value)
        /\ Forall (fun a => forall v, header_type a <> Converted (name, v)) later.
Proof.
  intros Hall. rewrite flatten_headers_lookup. split.
  - intros (before & after & -> & Hafter)%last_value_split.
    apply Forall2_app_inv_r in Hall as (earlier & rest & Hearlier & Hrest & ->).
    apply Forall2_cons_inv_r in Hrest as (argument & later & Harg & Hlater & ->).
    exists earlier, argument, later. repeat split; try done.
    clear -Hlater Hafter. induction Hlater as [|a [n v'] later after Ha Hl IH]; [constructor|].
    simpl in Hafter. apply not_elem_of_cons in Hafter as [Hn Hafter].
    constructor; [|by apply IH]. intros v E. rewrite Ha in E. congruence.
  - intros (earlier & argument & later & -> & Harg & Hlater).
    apply Forall2_app_inv_l in Hall as (before & rest & Hbefore & Hrest & ->).
    apply Forall2_cons_inv_l in Hrest as (item & after & Hitem & Hafter & ->).
    rewrite Harg in Hitem. injection Hitem as <-.
    apply HeadersSpec.last_value_app.
    clear -Hlater Hafter. induction Hafter as [|a [n v'] later after Ha Hl IH]; simpl.
    + apply not_elem_of_nil.
    + apply Forall_cons in Hlater as [Hx Hlater].
      apply not_elem_of_cons. split; [|by apply IH].
      intros ->. by apply (Hx v').
Qed.

(** X3 on three arguments, the last of which repeats the name of the
    first with spaces around it. *)
Lemma header_arguments_last_wins_witness :
  flatten_headers [(py "X", py "1"); (py "Y", py "3"); (py "X", py "2")] !! py "X"
  = Some (py "2").
Proof.
  refine (proj2 (header_arguments_last_wins [py "X=1"; py "Y=3"; py " X =2"]
                   [(py "X", py "1"); (py "Y", py "3"); (py "X", py "2")]
                   (py "X") (py "2") _) _).
  - repeat constructor.
  - exists [py "X=1"; py "Y=3"], (py " X =2"), []. repeat split. constructor.
Defined.


Section Conversions.
Variable todecimal : N -> option N.
Variable max_str_digits : nat.
Variable repr : pystr -> pystr.

Abbreviation to_ascii := (to_ascii todecimal).
Abbreviation int := (int todecimal max_str_digits).
Abbreviation non_negative_int := (non_negative_int todecimal max_str_digits repr).

(** X4.  The decimal text of a natural number, with any C whitespace
    around it, is accepted by [non_negative_int] and converted to that
    number, provided its digits are within the interpreter's limit. *)
Theorem non_negative_int_reads_count (n : nat) (lead trail : pystr) :
  forallb is_c_space lead = true -> forallb is_c_space trail = true ->
  (max_str_digits = 0 \/ length (str_nat n) <= Nat.max 640 max_str_digits)%nat ->
  non_negative_int (lead ++ str_nat n ++ trail) = Converted (Z.of_nat n).
Proof.
  intros Hlead Htrail Hlimit.
  pose proof (uint_chars_digits (Nat.to_uint n)) as Hdigits. fold (str_nat n) in Hdigits.
  assert (Hascii : forallb (fun c => c <? 128) (lead ++ str_nat n ++ trail) = true).
  { rewrite !forallb_app. repeat (apply andb_true_iff; split).
    - eapply forallb_weaken; [|exact Hlead]. intros c Hc%c_space_ascii.
      apply N.ltb_lt. tauto.
    - eapply forallb_weaken; [|exact Hdigits]. intros c Hc%digit_ascii.
      apply N.ltb_lt. tauto.
    - eapply forallb_weaken; [|exact Htrail]. intros c Hc%c_space_ascii.
      apply N.ltb_lt. tauto. }
  unfold Validators.non_negative_int, Validators.int, Validators.to_ascii.
  rewrite Hascii. unfold long_from_string.
  rewrite skip_c_space_all by done.
  destruct (str_nat n) as [|d ds] eqn:Hn.
  { destruct (str_nat_head n) as [E|(c & t & E & _)]; rewrite Hn in E; done. }
  cbn [forallb] in Hdigits. apply andb_true_iff in Hdigits as [Hd Hds].
  destruct (digit_ascii d Hd) as (_ & Hsp & H95 & H43 & H45).
  cbn [app skip_c_space]. rewrite Hsp.
  rewrite (proj2 (N.eqb_neq d 43)), (proj2 (N.eqb_neq d 45)), (proj2 (N.eqb_neq d 95)) by done.
  change (d :: ds ++ trail) with ((d :: ds) ++ trail).
  rewrite scan_digits_all; cycle 1.
  { cbn [forallb]. by rewrite Hd, Hds. }
  { done. }
  { destruct trail as [|c trail]; [done|]. cbn [forallb] in Htrail.
    apply andb_true_iff in Htrail as [Hc _].
    destruct (c_space_ascii c Hc) as (_ & -> & Hc95 & _).
    by apply N.eqb_neq. }
  rewrite (skip_c_space_blank trail), filter_digits by (cbn [forallb]; by rewrite ?Hd, ?Hds). rewrite <- Hn, digits_value_nat, str_nat_value.
  replace (Nat.ltb 640 _ && Nat.ltb 0 max_str_digits && Nat.ltb max_str_digits _)
    with false.
  - destruct (Z.ltb_spec (Z.of_nat n) 0); [lia|done].
  - symmetry. rewrite <- Hn in Hlimit. rewrite !andb_false_iff, !Nat.ltb_ge. lia.
Qed.

(** X5.  What [non_negative_int] accepts is never negative.  The
    accepted text, brought to ASCII, is made of digits, underscores, a sign
    and C whitespace only, and the value is the number its digits write;
    a text with a minus sign is accepted only for the value zero.  A text
    that [int] refuses and a text that [int] reads as a negative number
    are refused, each with its own message. *)
Theorem non_negative_int_accepts (value : pystr) :
  match non_negative_int value with
  | Converted count =>
      (0 <= count)%Z
      /\ count = digits_value (List.filter is_digit (to_ascii value))
      /\ (if contains (ch "-") value then count = 0%Z else True)
      /\ forallb (fun c => is_digit c || (c =? 95) || (c =? 43) || (c =? 45)
                           || is_c_space c) (to_ascii value) = true
  | ArgumentTypeError message =>
      (int value = None /\ message = py "Expected an integer, got " ++ repr value)
      \/ (exists parsed,
            int value = Some parsed /\ (parsed < 0)%Z
            /\ contains (ch "-") value = true
            /\ message = py "Value must be >= 0")
  | Uncaught _ => False
  end.
Proof.
  unfold Validators.non_negative_int.
  destruct (int value) as [z|] eqn:Hint; [|by left].
  destruct (int_shape todecimal max_str_digits value z Hint) as [Hallowed Hz].
  pose proof (digits_value_nonneg (List.filter is_digit (to_ascii value))) as Hpos.
  assert (Hc : contains (ch "-") value = true <-> 45 ∈ value).
  { rewrite <- not_false_iff_true, contains_false. split; [|tauto].
    intros Hnn. by destruct (decide (45 ∈ value)). }
  destruct (Z.ltb_spec z 0) as [Hneg|Hge].
  - right. exists z. repeat split; try done.
    apply Hc. destruct Hz as [[_ ->]|[? _]]; [lia|done].
  - split; [done|]. split; [destruct Hz as [[_ ->]|[_ ->]]; lia|]. split; [|done].
    destruct (contains (ch "-") value) eqn:E; [|done].
    destruct Hz as [[Hn _]|[_ ->]]; [|lia]. exfalso. by apply Hn, Hc.
Qed.

Variable float : pystr -> option PrimFloat.float.

Abbreviation positive_float := (positive_float repr float).
Abbreviation non_negative_float := (non_negative_float repr float).

(** X6.  [positive_float] accepts a text exactly when [float] reads it
    as a NaN or as a value above zero; [non_negative_float] accepts in
    addition the two zeros.  So a NaN passes both checks, as does
    infinity, and [-0.0] passes the second.  Both report a text that
    [float] refuses with the same message. *)
Theorem float_validators (value : pystr) :
  match float value with
  | None =>
      positive_float value
      = ArgumentTypeError (py "Expected a number, got " ++ repr value)
      /\ non_negative_float value
         = ArgumentTypeError (py "Expected a number, got " ++ repr value)
  | Some x =>
      positive_float value
      = (if PrimFloat.is_nan x || PrimFloat.ltb PrimFloat.zero x
         then Converted x
         else ArgumentTypeError (py "Value must be greater than 0"))
      /\ non_negative_float value
         = (if PrimFloat.is_nan x || PrimFloat.eqb x PrimFloat.zero
               || PrimFloat.ltb PrimFloat.zero x
            then Converted x
            else ArgumentTypeError (py "Value must be >= 0"))
  end
  /\ PrimFloat.is_nan PrimFloat.nan = true
  /\ PrimFloat.ltb PrimFloat.zero PrimFloat.infinity = true
  /\ PrimFloat.eqb PrimFloat.neg_zero PrimFloat.zero = true.
Proof.
  split; [|by vm_compute].
  unfold Validators.positive_float, Validators.non_negative_float.
  destruct (float value) as [x|]; [|done].
  rewrite above_zero, below_zero, zero_or_above, orb_assoc.
  split; by destruct (_ || _).
Qed.

End Conversions.

(** X4 on the text of a count with a space before and a newline after,
    under the default limit. *)
Lemma non_negative_int_reads_count_witness :
  non_negative_int ValidatorsDemo.arabic_indic ValidatorsDemo.default_max_str_digits
    ValidatorsDemo.quote (py " 42" ++ [LF])
  = Converted 42%Z.
Proof.
  apply (non_negative_int_reads_count ValidatorsDemo.arabic_indic
           ValidatorsDemo.default_max_str_digits ValidatorsDemo.quote 42 (py " ") [LF]).
  - reflexivity.
  - reflexivity.
  - right. apply Nat.leb_le. vm_compute. reflexivity.
Defined.

End ValidatorsSpec.

(* ===================================================================== *)
(** * More on the header set *)
(* ===================================================================== *)

Module HeadersExtra.

Lemma last_value_distinct name value (items : list (pystr * pystr)) :
  NoDup items.*1 ->
  last_value name items = Some value <-> (name, value) ∈ items.
Proof.
  revert value.
  induction items as [|[n v] items IH]; intros value; cbn [fmap list_fmap fst last_value].
  - intros _. split; [done|]. by intros ?%elem_of_nil.
  - intros [Hn Hnd]%NoDup_cons.
    assert (IH' : forall value, last_value name items = Some value <-> (name, value) ∈ items)
      by (intros; by apply IH).
    clear IH. rename IH' into IH.
    rewrite elem_of_cons.
    destruct (last_value name items) as [v'|] eqn:Hl.
    + split.
      * intros [= ->]. right. by apply IH.
      * intros [[= -> ->]|Hin].
        -- exfalso. apply Hn. apply list_elem_of_fmap. exists (n, v').
           split; [done|]. by apply IH.
        -- by apply IH.
    + destruct (decide (n = name)) as [->|Hne].
      * split; [intros [= ->]; by left|].
        intros [[= ->]|Hin]; [done|]. by apply IH in Hin.
      * split; [done|]. intros [[= -> ->]|Hin]; [done|]. by apply IH in Hin.
Qed.

Lemma flatten_headers_snoc items name value :
  flatten_headers (items ++ [(name, value)]) = <[name := value]> (flatten_headers items).
Proof. unfold flatten_headers. by rewrite foldl_app. Qed.

(** X7.  When the names of the pairs are pairwise distinct, the header
    set does not depend on the order of the pairs, it has as many headers
    as there are pairs, and it binds a name to a value exactly when the
    pair is among them. *)
Theorem flatten_headers_distinct (items items' : list (pystr * pystr)) :
  NoDup items.*1 -> items ≡ₚ items' ->
  flatten_headers items = flatten_headers items'
  /\ size (flatten_headers items) = length items
  /\ (forall name value,
        flatten_headers items !! name = Some value <-> (name, value) ∈ items).
Proof.
  intros Hnd Hperm.
  assert (Hnd' : NoDup items'.*1) by (by rewrite <- Hperm).
  assert (Hlook : forall l, NoDup l.*1 -> forall name value,
            flatten_headers l !! name = Some value <-> (name, value) ∈ l).
  { intros l Hl name value. rewrite flatten_headers_lookup. by apply last_value_distinct. }
  split; [|split; [|by apply Hlook]].
  - apply map_eq. intros name. apply option_eq. intros value.
    rewrite !Hlook by done. by rewrite Hperm.
  - clear Hperm Hnd' Hlook items'.
    induction items as [|[n v] items IH] using rev_ind; [done|].
    rewrite fmap_app in Hnd. apply NoDup_app in Hnd as (Hnd & Hn & _).
    rewrite flatten_headers_snoc, length_app, map_size_insert_None, IH by
      (done || (rewrite flatten_headers_lookup; apply HeadersSpec.last_value_none;
                intros Hin; apply (Hn n Hin); simpl; apply list_elem_of_here)).
    simpl. lia.
Qed.

(** X7 on two headers, in both orders. *)
Lemma flatten_headers_distinct_witness :
  flatten_headers [(py "Accept", py "*/*"); (py "X-Env", py "blue")]
  = flatten_headers [(py "X-Env", py "blue"); (py "Accept", py "*/*")]
  /\ size (flatten_headers [(py "Accept", py "*/*"); (py "X-Env", py "blue")]) = 2%nat.
Proof.
  destruct (flatten_headers_distinct
              [(py "Accept", py "*/*"); (py "X-Env", py "blue")]
              [(py "X-Env", py "blue"); (py "Accept", py "*/*")])
    as (Heq & Hsize & _).
  - simpl. apply NoDup_cons. split; [|apply NoDup_singleton].
    intros H%list_elem_of_singleton. discriminate H.
  - apply perm_swap.
  - split; [exact Heq|exact Hsize].
Defined.

End HeadersExtra.

(* ===================================================================== *)
(** * Whole runs *)
(* ===================================================================== *)

Module RunFacts.

Local Open Scope nat_scope.

Section Run.
Variable float_repr : pystr -> pystr.
Variable floatstr : pystr -> pystr.
Variable time : Type.
Variable millis_1f : time -> time -> pystr.
Variable args : Namespace.
Variable headers : gmap pystr pystr.
Variable limit : option nat.
Variable verify : bool.

Abbreviation tick := (tick time).
Abbreviation iteration :=
  (iteration float_repr floatstr time millis_1f args headers limit verify).
Abbreviation while_loop :=
  (while_loop float_repr floatstr time millis_1f args headers limit verify).
Abbreviation get_event := (Vocabulary.get_event args headers verify).
Abbreviation uninterrupted := (Vocabulary.uninterrupted time).

(** One iteration, case by case: the request is interrupted; or it is
    settled with a line, and then the loop breaks at the limit, sleeps, or
    goes on at once. *)
Lemma iteration_cases tk w :
  let s1 := bump_total (stats w) in
  let w1 := record s1 [get_event] w in
  (get_outcome time tk = Interrupted
   /\ iteration tk w = (Raise KeyboardInterrupt, w1))
  \/ exists file line,
       get_outcome time tk <> Interrupted
       /\ numbered (total (stats w) + 1) line
       /\ let s2 := settle file s1 in
          let w2 := record s2 [EvPrint file line] w1 in
          iteration tk w
          = if limit_reached limit s2 then (Return true, w2)
            else if gt_zero (interval args) then
              (if sleep_interrupted time tk then Raise KeyboardInterrupt else Return false,
               record s2 [EvSleep (interval args)] w2)
            else (Return false, w2).
Proof.
  cbv zeta.
  assert (get_outcome time tk = Interrupted \/ get_outcome time tk <> Interrupted)
    as [Hget|Hget] by (destruct (get_outcome time tk); auto).
  - left. split; [done|]. by apply iteration_interrupted.
  - right. destruct (iteration_completed float_repr floatstr time millis_1f args
                       headers limit verify tk w Hget) as (file & line & Hline & ->).
    destruct (attempt_line_settle float_repr floatstr time millis_1f args
                _ _ _ _ (bump_total (stats w)) Hline) as [-> Hn].
    exists file, line. split; [done|]. split; [done|].
    unfold after_attempt. cbn [stats record]. done.
Qed.

Lemma settled_record s evs w :
  settled (record s evs w) = success s + failure s.
Proof. reflexivity. Qed.

Lemma settled_settle file s :
  success (settle file (bump_total s)) + failure (settle file (bump_total s))
  = S (success s + failure s).
Proof. destruct file; simpl; lia. Qed.

Lemma sleeps_record s ev w :
  sleeps (log (record s [ev] w))
  = sleeps (log w) ++ match ev with EvSleep q => [q] | _ => [] end.
Proof. unfold sleeps, record. cbn [log map]. rewrite omap_app. by destruct ev. Qed.

Lemma keep_going_not_reached s :
  limit_reached limit s = false -> keep_going limit s = true.
Proof.
  unfold limit_reached, keep_going. destruct limit as [n|]; [|done].
  intros H%bool_decide_eq_false. apply bool_decide_eq_true. lia.
Qed.

(** The sleeps of a run: one after each settled attempt, but for the
    attempt that reaches the limit; none when the interval is zero. *)
Lemma while_loop_sleeps script w :
  keep_going limit (stats w) = true ->
  let r := while_loop script w in
  let last_one := if stopped_at_limit r then 1 else 0 in
  settled w + last_one <= settled (world_of r)
  /\ sleeps (log (world_of r))
     = sleeps (log w)
       ++ replicate (if gt_zero (interval args)
                     then settled (world_of r) - settled w - last_one else 0)
            (interval args).
Proof.
  revert w. induction script as [|tk script IH]; intros w Hk; cbn [Polling.while_loop];
    rewrite Hk; cbv zeta.
  { cbn [world_of stopped_at_limit]. split; [lia|].
    rewrite Nat.sub_diag. destruct (gt_zero _); by rewrite app_nil_r. }
  destruct (iteration_cases tk w) as [[_ ->]|(file & line & _ & _ & ->)].
  { cbn [world_of stopped_at_limit]. rewrite sleeps_record.
    unfold settled. cbn [stats record success failure bump_total].
    split; [lia|].
    match goal with |- context [replicate (if _ then ?n else 0) _] =>
      replace n with 0 by lia end.
    destruct (gt_zero _); by rewrite !app_nil_r. }
  cbv zeta.
  pose proof (settled_settle file (stats w)) as Hset.
  destruct (limit_reached limit (settle file (bump_total (stats w)))) eqn:Hl.
  { cbn [world_of stopped_at_limit]. rewrite !sleeps_record.
    unfold settled. cbn [stats record]. rewrite Hset, !app_nil_r. split; [lia|].
    match goal with |- context [replicate (if _ then ?n else 0) _] =>
      replace n with 0 by lia end.
    destruct (gt_zero _); by rewrite !app_nil_r. }
  apply keep_going_not_reached in Hl.
  destruct (gt_zero (interval args)) eqn:Hg.
  - destruct (sleep_interrupted time tk).
    + cbn [world_of stopped_at_limit]. rewrite !sleeps_record.
      unfold settled. cbn [stats record]. rewrite Hset, !app_nil_r. split; [lia|].
      match goal with |- context [replicate ?n _] => replace n with 1 by lia end.
      done.
    + match goal with |- context [while_loop script ?w3] =>
        destruct (IH w3 Hl) as [Hle Hs]; set (r := while_loop script w3) in *
      end.
      rewrite Hs, !sleeps_record, !app_nil_r.
      unfold settled in *. cbn [stats record] in *. rewrite Hset in *.
      split; [lia|].
      rewrite <- !app_assoc. f_equal.
      change [interval args] with (replicate 1 (interval args)).
      rewrite <- replicate_add. f_equal. lia.
  - match goal with |- context [while_loop script ?w3] =>
      destruct (IH w3 Hl) as [Hle Hs]; set (r := while_loop script w3) in *
    end.
    rewrite Hs, !sleeps_record, !app_nil_r.
    unfold settled in *. cbn [stats record] in *. rewrite Hset in *.
    split; [lia|done].
Qed.

(** Without a limit the loop never ends by itself. *)
Lemma while_loop_unlimited script w :
  limit = None -> Forall uninterrupted script ->
  exists w', while_loop script w = Running w'
             /\ total (stats w') = total (stats w) + length script.
Proof.
  intros Hlim. revert w. induction script as [|tk script IH]; intros w Hun;
    cbn [Polling.while_loop]; rewrite Hlim; cbn [keep_going].
  - exists w. split; [done|]. simpl. lia.
  - apply Forall_cons in Hun as [Htk Hun].
    destruct (iteration_uninterrupted float_repr floatstr time millis_1f args
                headers limit verify tk w Htk) as [w1 Hit].
    pose proof (iteration_total float_repr floatstr time millis_1f args
                  headers limit verify tk w) as Ht.
    rewrite Hlim in Hit, Ht. rewrite Hit in Ht |- *. cbn [limit_reached snd] in *.
    destruct (IH w1 Hun) as (w' & Hw' & Htot). rewrite Hlim in Hw'.
    exists w'. split; [done|]. simpl. lia.
Qed.

Lemma while_loop_unlimited_end script w r w' :
  limit = None -> while_loop script w = Finished r w' -> r = Raise KeyboardInterrupt.
Proof.
  intros Hlim. revert w. induction script as [|tk script IH]; intros w;
    cbn [Polling.while_loop]; rewrite Hlim; cbn [keep_going]; [done|].
  rewrite <- Hlim.
  destruct (iteration_cases tk w) as [[_ ->]|(file & line & _ & _ & ->)].
  { by intros [= <- _]. }
  cbv zeta. rewrite Hlim. cbn [limit_reached]. rewrite <- Hlim.
  destruct (gt_zero (interval args)); [|apply IH].
  destruct (sleep_interrupted time tk); [by intros [= <- _]|apply IH].
Qed.

(** An interrupt during a request ends the loop there, whatever the
    script holds after it. *)
Lemma while_loop_interrupted pre tk rest w :
  Forall uninterrupted pre -> get_outcome time tk = Interrupted ->
  match limit with Some n => total (stats w) + length pre < n | None => True end ->
  exists w',
    while_loop (pre ++ tk :: rest) w = Finished (Raise KeyboardInterrupt) w'
    /\ total (stats w') = total (stats w) + length pre + 1
    /\ in_flight w' = 1
    /\ issued (log w') = issued (log (world_of (while_loop pre w))) ++ [stats w'].
Proof.
  intros Hpre Htk. revert w. induction pre as [|tk0 pre IH]; intros w Hlim;
    cbn [app Polling.while_loop].
  - assert (Hk : keep_going limit (stats w) = true).
    { unfold keep_going. destruct limit; [|done]. apply bool_decide_eq_true.
      simpl in Hlim. lia. }
    rewrite Hk, iteration_interrupted by done.
    eexists. split; [done|]. split; [simpl; lia|]. split; [by rewrite in_flight_record|].
    unfold issued, record. cbn [log map]. rewrite omap_app. done.
  - assert (Hk : keep_going limit (stats w) = true).
    { unfold keep_going. destruct limit; [|done]. apply bool_decide_eq_true.
      simpl in Hlim. lia. }
    rewrite Hk. apply Forall_cons in Hpre as [Htk0 Hpre].
    destruct (iteration_uninterrupted float_repr floatstr time millis_1f args
                headers limit verify tk0 w Htk0) as [w1 Hit].
    pose proof (iteration_total float_repr floatstr time millis_1f args
                  headers limit verify tk0 w) as Ht.
    rewrite Hit in Ht |- *. cbn [snd] in Ht.
    assert (Hl : limit_reached limit (stats w1) = false).
    { unfold limit_reached. destruct limit; [|done]. apply bool_decide_eq_false.
      simpl in Hlim. lia. }
    rewrite Hl. destruct (IH Hpre w1) as (w' & -> & Htot & Hf & Hiss).
    { destruct limit; [|done]. simpl in Hlim. lia. }
    exists w'. split; [done|]. split; [simpl; lia|]. done.
Qed.

Abbreviation transcript := (RunVocabulary.transcript float_repr floatstr time millis_1f args).
Abbreviation attempt_line :=
  (Vocabulary.attempt_line float_repr floatstr time millis_1f args).

Lemma classify_counts tk s :
  success (classify time tk (bump_total s))
  = success s + (if responded tk then 1 else 0)
  /\ failure (classify time tk (bump_total s))
     = failure s + (if failed tk then 1 else 0).
Proof.
  unfold classify, responded, failed. destruct (get_outcome time tk); simpl; lia.
Qed.

Lemma iteration_prints tk w :
  prints (log (iteration tk w).2)
  = prints (log w)
    ++ match attempt_line (total (stats w) + 1) tk with
       | Some line => [line]
       | None => []
       end.
Proof.
  assert (get_outcome time tk = Interrupted \/ get_outcome time tk <> Interrupted)
    as [Hget|Hget] by (destruct (get_outcome time tk); auto).
  - rewrite iteration_interrupted by done. unfold Vocabulary.attempt_line. rewrite Hget.
    unfold prints, record. cbn [log map snd]. rewrite omap_app. done.
  - destruct (iteration_completed float_repr floatstr time millis_1f args
                headers limit verify tk w Hget) as (file & line & -> & ->).
    rewrite after_attempt_prints. unfold prints, record. cbn [log map].
    rewrite !omap_app. cbn. by rewrite app_nil_r.
Qed.

(** The counters and the lines of a run, from the ticks it used. *)
Lemma while_loop_used script w :
  let w' := world_of (while_loop script w) in
  let used := take (total (stats w') - total (stats w)) script in
  total (stats w) <= total (stats w') <= total (stats w) + length script
  /\ success (stats w') = success (stats w) + length (List.filter responded used)
  /\ failure (stats w') = failure (stats w) + length (List.filter failed used)
  /\ prints (log w') = prints (log w) ++ transcript (total (stats w) + 1) used.
Proof.
  assert (Hstay : forall script w,
    let used := take (total (stats w) - total (stats w)) script in
    total (stats w) <= total (stats w) <= total (stats w) + length script
    /\ success (stats w) = success (stats w) + length (List.filter responded used)
    /\ failure (stats w) = failure (stats w) + length (List.filter failed used)
    /\ prints (log w) = prints (log w) ++ transcript (total (stats w) + 1) used).
  { intros script0 w0. cbv zeta. rewrite Nat.sub_diag, take_0. cbn [List.filter length].
    cbn [RunVocabulary.transcript]. rewrite app_nil_r. repeat split; lia. }
  revert w. induction script as [|tk script IH]; intros w; cbn [Polling.while_loop].
  { destruct (keep_going limit (stats w)); apply Hstay. }
  destruct (keep_going limit (stats w)); [|apply Hstay].
  pose proof (iteration_total float_repr floatstr time millis_1f args
                headers limit verify tk w) as Ht.
  pose proof (iteration_stats float_repr floatstr time millis_1f args
                headers limit verify tk w) as Hs.
  pose proof (iteration_prints tk w) as Hp.
  destruct (classify_counts tk (stats w)) as [Hsucc Hfail]. rewrite <- Hs in Hsucc, Hfail.
  assert (Hone : forall w1, (iteration tk w).2 = w1 ->
    let used := take (total (stats w1) - total (stats w)) (tk :: script) in
    total (stats w) <= total (stats w1) <= total (stats w) + length (tk :: script)
    /\ success (stats w1) = success (stats w) + length (List.filter responded used)
    /\ failure (stats w1) = failure (stats w) + length (List.filter failed used)
    /\ prints (log w1) = prints (log w) ++ transcript (total (stats w) + 1) used).
  { intros w1 <-. cbv zeta. rewrite Ht.
    replace (S (total (stats w)) - total (stats w)) with 1 by lia.
    rewrite firstn_cons, take_0. cbn [List.filter RunVocabulary.transcript]. rewrite Hsucc, Hfail, Hp, app_nil_r.
    cbn [length]. repeat split; try lia.
    - by destruct (responded tk).
    - by destruct (failed tk). }
  destruct (iteration tk w) as [[[|]|e] w1] eqn:Hit; cbn [snd] in *.
  - by apply Hone.
  - destruct (IH w1) as (Hle & Hsu & Hfa & Hpr). cbv zeta.
    set (w' := world_of (while_loop script w1)) in *.
    replace (total (stats w') - total (stats w))
      with (S (total (stats w') - total (stats w1))) by lia.
    rewrite firstn_cons. cbn [List.filter RunVocabulary.transcript].
    rewrite Hsu, Hfa, Hpr, Hsucc, Hfail, Hp, Ht.
    replace (total (stats w) + 1) with (S (total (stats w))) by lia.
    replace (S (total (stats w)) + 1) with (S (S (total (stats w)))) by lia.
    rewrite <- !app_assoc. cbn [length]. repeat split; try lia.
    + destruct (responded tk); simpl; lia.
    + destruct (failed tk); simpl; lia.
  - by apply Hone.
Qed.

(** What holds of every event the loop can add holds of every event of
    a run. *)
Lemma while_loop_events (P : event -> Prop) script w :
  P get_event ->
  (gt_zero (interval args) = true -> P (EvSleep (interval args))) ->
  (forall file line, P (EvPrint file line)) ->
  Forall (fun se => P se.2) (log w) ->
  Forall (fun se => P se.2) (log (world_of (while_loop script w))).
Proof.
  intros Hget Hsleep Hprint. revert w.
  induction script as [|tk script IH]; intros w Hw; cbn [Polling.while_loop].
  { by destruct (keep_going limit (stats w)). }
  destruct (keep_going limit (stats w)); [|done].
  assert (Hrec : forall s ev w0, P ev -> Forall (fun se => P se.2) (log w0) ->
                   Forall (fun se => P se.2) (log (record s [ev] w0))).
  { intros s ev w0 Hev Hw0. unfold record. cbn [log map].
    apply Forall_app. split; [done|]. by repeat constructor. }
  destruct (iteration_cases tk w) as [[_ ->]|(file & line & _ & _ & ->)].
  { cbn [world_of]. by apply Hrec. }
  cbv zeta. destruct (limit_reached limit _).
  { cbn [world_of]. apply Hrec; [done|]. by apply Hrec. }
  destruct (gt_zero (interval args)).
  - destruct (sleep_interrupted time tk).
    + cbn [world_of]. repeat (apply Hrec; auto).
    + apply IH. repeat (apply Hrec; auto).
  - apply IH. repeat (apply Hrec; auto).
Qed.

End Run.

Lemma observe_print file line w :
  stats (print file line w).2 = stats w
  /\ prints (log (print file line w).2) = prints (log w) ++ [(file, line)]
  /\ issued (log (print file line w).2) = issued (log w)
  /\ sleeps (log (print file line w).2) = sleeps (log w).
Proof.
  unfold print, emit, prints, issued, sleeps. cbn [snd stats log].
  rewrite !omap_app. cbn. by rewrite !app_nil_r.
Qed.

Lemma count_line file file' (line : pystr) :
  length (filter (on_stream file) [(file', line)])
  = if on_stream file (file', line) then 1 else 0.
Proof. by destruct file, file'. Qed.

Lemma gt_zero_spec x : gt_zero x = true <-> (0 < x)%Q.
Proof.
  unfold gt_zero. rewrite negb_true_iff, <- not_true_iff_false, Qle_bool_iff.
  split; [apply Qnot_le_lt|apply Qlt_not_le].
Qed.

Lemma keep_going_initial args : keep_going (limit_of args) (stats initial_world) = true.
Proof.
  unfold limit_of, keep_going. destruct (bool_decide_reflect (count args = 0)); [done|].
  apply bool_decide_eq_true. simpl. lia.
Qed.

End RunFacts.

Import RunFacts.

Module RunSpec.

Local Open Scope nat_scope.

Section Engine.
Variable float_repr : pystr -> pystr.
Variable floatstr : pystr -> pystr.
Variable time : Type.
Variable millis_1f : time -> time -> pystr.
Variable seconds_1f : time -> time -> pystr.
Variable args : Namespace.

Abbreviation poll_while :=
  (Vocabulary.poll_while float_repr floatstr time millis_1f args).
Abbreviation poll := (poll float_repr floatstr time millis_1f seconds_1f args).

(** X8.  Every request of a run is sent to [args.url] with
    [args.timeout], the flattened headers and [verify = not args.insecure];
    every sleep lasts [args.interval], which is then above zero; and the
    run has sent as many requests as [total] counts. *)
Theorem requests_as_configured script :
  let w := world_of (poll_while script) in
  Forall (fun se => as_configured args se.2) (log w)
  /\ length (issued (log w)) = total (stats w).
Proof.
  intros w. split.
  - apply while_loop_events; try done.
    intros Hg. split; [done|]. by apply gt_zero_spec.
  - pose proof (while_loop_reachable_world float_repr floatstr time millis_1f args
                  (flatten_headers (header args)) (limit_of args)
                  (negb (insecure args)) script) as Hr.
    apply reachable_issued in Hr as [Hseq _].
    apply (f_equal length) in Hseq. by rewrite length_map, length_seq in Hseq.
Qed.







End Engine.



End RunSpec.

(* ===================================================================== *)
(** * More on the response formatter *)
(* ===================================================================== *)

(** ** Whitespace around a JSON document *)

Module PaddingFacts.

Lemma json_ws_cases w : is_json_ws w = true -> w = 32 \/ w = 9 \/ w = 10 \/ w = 13.
Proof.
  unfold is_json_ws. rewrite !orb_true_iff, !N.eqb_eq. tauto.
Qed.

Lemma pad_cons_char w c x :
  cons_char c (pad_rest [w] x) = pad_rest [w] (cons_char c x).
Proof. by destruct x as [[] |]. Qed.

Lemma hex_value_ws w : is_json_ws w = true -> hex_value w = None.
Proof. intros H. by apply json_ws_cases in H as [->|[->|[->| ->]]]. Qed.

Lemma decode_uXXXX_ws h1 h2 h3 h4 :
  is_json_ws h1 = true \/ is_json_ws h2 = true \/ is_json_ws h3 = true
  \/ is_json_ws h4 = true ->
  decode_uXXXX h1 h2 h3 h4 = None.
Proof.
  unfold decode_uXXXX.
  intros [H|[H|[H|H]]]; rewrite (hex_value_ws _ H);
    repeat match goal with |- context [hex_value ?x] => destruct (hex_value x) end;
    done.
Qed.

Lemma scanstring_pad w s :
  is_json_ws w = true -> scanstring (s ++ [w]) = pad_rest [w] (scanstring s).
Proof.
  intros Hw.
  remember (length s) as n eqn:Hn. revert s Hn.
  induction n as [n IH] using lt_wf_ind. intros s ->.
  assert (IH' : forall s' c, (length s' < length s)%nat ->
            cons_char c (scanstring (s' ++ [w])) = pad_rest [w] (cons_char c (scanstring s'))).
  { intros s' c Hlt. rewrite (IH (length s') Hlt s' eq_refl). apply pad_cons_char. }
  clear IH.
  assert (Hw1 : scanstring [w] = None).
  { apply json_ws_cases in Hw as [->|[->|[->| ->]]]; reflexivity. }
  assert (Hw34 : (w =? 34) = false /\ (w =? 92) = false /\ (w =? 117) = false).
  { apply json_ws_cases in Hw as [->|[->|[->| ->]]]; done. }
  destruct Hw34 as (Hw34 & Hw92 & Hw117).
  assert (Hwb : backslash w = None).
  { apply json_ws_cases in Hw as [->|[->|[->| ->]]]; reflexivity. }
  destruct s as [|c s']; [exact Hw1|].
  cbn [app scanstring].
  destruct (N.eqb c 34); [done|].
  destruct (N.eqb c 92).
  - destruct s' as [|e s'']; cbn [app].
    { by rewrite Hw117, Hwb. }
    destruct (N.eqb e 117).
    + destruct s'' as [|h1 [|h2 [|h3 [|h4 r]]]]; cbn [app]; try done.
      * by rewrite decode_uXXXX_ws by auto.
      * destruct (decode_uXXXX h1 h2 h3 h4) as [uni|]; [|done].
        destruct r as [|b [|u [|g1 [|g2 [|g3 [|g4 r2]]]]]]; cbn [app].
        -- apply (IH' []). simpl. lia.
        -- apply (IH' [b]). simpl. lia.
        -- apply (IH' [b; u]). simpl. lia.
        -- apply (IH' [b; u; g1]). simpl. lia.
        -- apply (IH' [b; u; g1; g2]). simpl. lia.
        -- destruct (is_high_surrogate uni && N.eqb b 92 && N.eqb u 117) eqn:Hc.
           ++ rewrite decode_uXXXX_ws by auto.
              apply andb_true_iff in Hc as [[_ ->%N.eqb_eq]%andb_true_iff ->%N.eqb_eq].
              reflexivity.
           ++ apply (IH' [b; u; g1; g2; g3]). simpl. lia.
        -- destruct (is_high_surrogate uni && N.eqb b 92 && N.eqb u 117).
           ++ destruct (decode_uXXXX g1 g2 g3 g4) as [uni2|]; [|done].
              destruct (is_low_surrogate uni2).
              ** apply IH'. simpl. lia.
              ** apply (IH' (b :: u :: g1 :: g2 :: g3 :: g4 :: r2)). simpl. lia.
           ++ apply (IH' (b :: u :: g1 :: g2 :: g3 :: g4 :: r2)). simpl. lia.
    + destruct (backslash e); [|done]. apply IH'. simpl. lia.
  - destruct (N.ltb c 32); [done|]. apply IH'. simpl. lia.
Qed.


Lemma ws_not_digit w : is_json_ws w = true -> is_digit w = false.
Proof. intros H. by apply json_ws_cases in H as [->|[->|[->| ->]]]. Qed.

Lemma span_digits_pad w s :
  is_json_ws w = true ->
  span_digits (s ++ [w]) = ((span_digits s).1, (span_digits s).2 ++ [w]).
Proof.
  intros Hw. induction s as [|c s IH]; cbn [app span_digits].
  - by rewrite ws_not_digit.
  - destruct (is_digit c); [|done]. rewrite IH. by destruct (span_digits s).
Qed.

Lemma match_integer_pad w s :
  is_json_ws w = true -> match_integer (s ++ [w]) = pad_rest [w] (match_integer s).
Proof.
  intros Hw. pose proof (ws_not_digit w Hw) as Hd.
  assert (H45 : (w =? 45) = false /\ (w =? 48) = false).
  { by apply json_ws_cases in Hw as [->|[->|[->| ->]]]. }
  destruct H45 as [H45 H48].
  assert (Hbody : forall sign s1,
    match s1 ++ [w] with
    | c :: s2 =>
        if c =? 48 then Some (sign ++ [c], s2)
        else if is_digit c then
          let '(ds, r) := span_digits s2 in Some (sign ++ c :: ds, r)
        else None
    | [] => None
    end
    = pad_rest [w]
        match s1 with
        | c :: s2 =>
            if c =? 48 then Some (sign ++ [c], s2)
            else if is_digit c then
              let '(ds, r) := span_digits s2 in Some (sign ++ c :: ds, r)
            else None
        | [] => None
        end).
  { intros sign [|c s2]; cbn [app].
    - by rewrite H48, Hd.
    - destruct (c =? 48); [done|]. destruct (is_digit c); [|done].
      rewrite span_digits_pad by done. by destruct (span_digits s2). }
  unfold match_integer. destruct s as [|c s']; cbn [app].
  - rewrite H45. apply (Hbody [] []).
  - destruct (c =? 45).
    + apply (Hbody [c] s').
    + apply (Hbody [] (c :: s')).
Qed.

Lemma match_frac_pad w s :
  is_json_ws w = true ->
  match_frac (s ++ [w]) = ((match_frac s).1, (match_frac s).2 ++ [w]).
Proof.
  intros Hw. unfold match_frac. destruct s as [|c s']; cbn [app].
  - assert ((w =? 46) = false) as ->; [|done].
    by apply json_ws_cases in Hw as [->|[->|[->| ->]]].
  - destruct (c =? 46); [|done]. rewrite span_digits_pad by done.
    by destruct (span_digits s') as [[|d ds] r].
Qed.

Lemma match_exp_pad w s :
  is_json_ws w = true ->
  match_exp (s ++ [w]) = ((match_exp s).1, (match_exp s).2 ++ [w]).
Proof.
  intros Hw. pose proof (ws_not_digit w Hw) as Hd.
  assert (Hne : ((w =? 101) || (w =? 69)) = false /\ ((w =? 45) || (w =? 43)) = false).
  { by apply json_ws_cases in Hw as [->|[->|[->| ->]]]. }
  destruct Hne as [He Hs].
  unfold match_exp. destruct s as [|c s']; cbn [app].
  - by rewrite He.
  - destruct ((c =? 101) || (c =? 69)); [|done].
    destruct s' as [|d s'']; cbn [app].
    + rewrite Hs. cbn [span_digits]. by rewrite Hd.
    + destruct ((d =? 45) || (d =? 43)).
      * rewrite span_digits_pad by done. by destruct (span_digits s'') as [[|x ds] r].
      * change (d :: s'' ++ [w]) with ((d :: s'') ++ [w]).
        rewrite (span_digits_pad w (d :: s'')) by done.
        by destruct (span_digits (d :: s'')) as [[|x ds] r].
Qed.

Lemma match_number_pad w s :
  is_json_ws w = true -> match_number (s ++ [w]) = pad_rest [w] (match_number s).
Proof.
  intros Hw. unfold match_number. rewrite match_integer_pad by done.
  destruct (match_integer s) as [[integer r1]|]; [|done]. cbn [pad_rest].
  rewrite match_frac_pad by done. destruct (match_frac r1) as [frac r2]. cbn [fst snd].
  rewrite match_exp_pad by done. destruct (match_exp r2) as [exp r3]. cbn [fst snd].
  by destruct (truthy frac || truthy exp).
Qed.

Lemma startswith_pad w word s :
  Forall (fun c => (c =? w) = false) word ->
  startswith word (s ++ [w])
  = match startswith word s with Some r => Some (r ++ [w]) | None => None end.
Proof.
  intros Hword. revert s. induction Hword as [|c word Hc Hword IH]; intros s.
  - by destruct s.
  - destruct s as [|x s]; cbn [app startswith].
    + by rewrite Hc.
    + destruct (c =? x); [apply IH|done].
Qed.

Lemma scan_literal_pad w s :
  is_json_ws w = true -> scan_literal (s ++ [w]) = padded [w] (scan_literal s).
Proof.
  intros Hw. unfold scan_literal.
  rewrite !startswith_pad, match_number_pad
    by (done || apply json_ws_cases in Hw as [->|[->|[->| ->]]]; by repeat constructor).
  repeat match goal with
         | |- context [match startswith ?word s with _ => _ end] =>
             destruct (startswith word s)
         | |- context [match_number s] => destruct (match_number s) as [[? ?]|]
         end; done.
Qed.


Lemma skip_ws_pad w s :
  is_json_ws w = true ->
  skip_ws (s ++ [w]) = match skip_ws s with [] => [] | t => t ++ [w] end.
Proof.
  intros Hw. induction s as [|c s IH]; cbn [app skip_ws].
  - by rewrite Hw.
  - by destruct (is_json_ws c).
Qed.

Lemma scan_once_nil f : scan_once f [] = ScanError \/ scan_once f [] = OutOfFuel.
Proof. destruct f; auto. Qed.

Lemma array_loop_nil f values :
  array_loop f values [] = ScanError \/ array_loop f values [] = OutOfFuel.
Proof.
  destruct f as [|f]; [auto|]. rewrite array_loop_S.
  destruct (scan_once_nil f) as [-> | ->]; auto.
Qed.

(** One whitespace character after a text changes nothing to what the
    decoder reads of it. *)
Lemma scan_pad w f :
  is_json_ws w = true ->
  (forall s, scan_once f (s ++ [w]) = padded [w] (scan_once f s))
  /\ (forall values s, array_loop f values (s ++ [w]) = padded [w] (array_loop f values s))
  /\ (forall pairs s, object_loop f pairs (s ++ [w]) = padded [w] (object_loop f pairs s)).
Proof.
  intros Hw.
  assert (Hq : (w =? 34) = false /\ (w =? 123) = false /\ (w =? 91) = false).
  { by apply json_ws_cases in Hw as [->|[->|[->| ->]]]. }
  destruct Hq as (H34 & H123 & H91).
  induction f as [|f (IHs & IHa & IHo)]; [done|].
  split; [|split].
  - intros [|c s']; cbn [app].
    + rewrite scan_once_S, H34, H123, H91.
      apply (scan_literal_pad w []). done.
    + rewrite !scan_once_S.
      destruct (N.eqb c 34).
      { rewrite scanstring_pad by done. by destruct (scanstring s') as [[str r]|]. }
      destruct (N.eqb c 123).
      { rewrite skip_ws_pad by done. destruct (skip_ws s') as [|q r]; [done|].
        cbn [app]. destruct (N.eqb q 125); [done|].
        destruct (N.eqb q 34); [apply IHo|done]. }
      destruct (N.eqb c 91).
      { rewrite skip_ws_pad by done. destruct (skip_ws s') as [|q r].
        - by destruct (array_loop_nil f []) as [-> | ->].
        - cbn [app]. destruct (N.eqb q 93); [done|]. apply (IHa [] (q :: r)). }
      apply (scan_literal_pad w (c :: s')). done.
  - intros values s. rewrite !array_loop_S, IHs.
    destruct (scan_once f s) as [value r| |]; [|done|done]. cbn [padded].
    rewrite skip_ws_pad by done. destruct (skip_ws r) as [|c r']; [done|].
    cbn [app]. destruct (N.eqb c 93); [done|]. destruct (N.eqb c 44); [|done].
    rewrite skip_ws_pad by done. destruct (skip_ws r') as [|x t].
    + by destruct (array_loop_nil f (values ++ [value])) as [-> | ->].
    + apply IHa.
  - intros pairs s. rewrite !object_loop_S, scanstring_pad by done.
    destruct (scanstring s) as [[key r]|]; [|done]. cbn [pad_rest].
    rewrite skip_ws_pad by done. destruct (skip_ws r) as [|c r1]; [done|].
    cbn [app]. destruct (N.eqb c 58); [|done].
    rewrite skip_ws_pad by done. destruct (skip_ws r1) as [|x t].
    { by destruct (scan_once_nil f) as [-> | ->]. }
    rewrite IHs. destruct (scan_once f (x :: t)) as [value r2| |]; [|done|done].
    cbn [padded]. rewrite skip_ws_pad by done.
    destruct (skip_ws r2) as [|c2 r3]; [done|]. cbn [app].
    destruct (N.eqb c2 125); [done|]. destruct (N.eqb c2 44); [|done].
    rewrite skip_ws_pad by done. destruct (skip_ws r3) as [|q r4]; [done|].
    cbn [app]. destruct (N.eqb q 34); [apply IHo|done].
Qed.

Lemma skip_ws_all ws s : forallb is_json_ws ws = true -> skip_ws (ws ++ s) = skip_ws s.
Proof.
  induction ws as [|c ws IH]; cbn [app skip_ws forallb]; [done|].
  intros [-> Hws]%andb_true_iff. auto.
Qed.

(** The decoder at any fuel that suffices. *)
Lemma scan_once_fuel f s :
  (2 * length s < f)%nat -> scan_once f s = scan_once (S (2 * length s)) s.
Proof.
  intros Hf. apply (proj1 (scan_fuel_mono (S (2 * length s)))); [lia|].
  pose proof (proj1 (scan_fuel (S (2 * length s))) s ltac:(lia)) as H.
  intros E. by rewrite E in H.
Qed.

Lemma json_loads_lead ws s :
  forallb is_json_ws ws = true -> json_loads (ws ++ s) = json_loads s.
Proof.
  intros Hws. unfold json_loads, decode. rewrite skip_ws_all by done.
  pose proof (skip_ws_length s) as Hlen.
  rewrite (scan_once_fuel (loads_fuel (ws ++ s))), (scan_once_fuel (loads_fuel s));
    [done|unfold loads_fuel..]; rewrite ?length_app; lia.
Qed.

Lemma json_loads_pad w s : is_json_ws w = true -> json_loads (s ++ [w]) = json_loads s.
Proof.
  intros Hw. unfold json_loads, decode. rewrite skip_ws_pad by done.
  pose proof (skip_ws_length s) as Hlen.
  destruct (skip_ws s) as [|c t] eqn:Hs.
  - destruct (scan_once_nil (loads_fuel (s ++ [w]))) as [-> | ->];
      destruct (scan_once_nil (loads_fuel s)) as [-> | ->]; done.
  - rewrite (proj1 (scan_pad w _ Hw)).
    rewrite (scan_once_fuel (loads_fuel (s ++ [w]))), (scan_once_fuel (loads_fuel s));
      [|unfold loads_fuel..]; rewrite ?length_app; try (simpl in *; lia).
    destruct (scan_once _ (c :: t)) as [obj r| |]; [|done|done]. cbn [padded].
    rewrite skip_ws_pad by done. by destruct (skip_ws r).
Qed.

Lemma json_loads_trail ws s :
  forallb is_json_ws ws = true -> json_loads (s ++ ws) = json_loads s.
Proof.
  revert s. induction ws as [|w ws IH]; intros s; cbn [forallb].
  - by rewrite app_nil_r.
  - intros [Hw Hws]%andb_true_iff.
    change (w :: ws) with ([w] ++ ws). rewrite app_assoc, IH by done.
    by apply json_loads_pad.
Qed.

Lemma json_ws_space ws : forallb is_json_ws ws = true -> forallb is_space ws = true.
Proof.
  induction ws as [|w ws IH]; cbn [forallb]; [done|].
  intros [Hw Hws]%andb_true_iff. rewrite IH by done.
  by apply json_ws_cases in Hw as [->|[->|[->| ->]]].
Qed.


(** *** The empty string among the decoded values *)

Lemma skip_ws_prefix s :
  exists ws, s = ws ++ skip_ws s /\ forallb is_json_ws ws = true.
Proof.
  induction s as [|c s (ws & Hs & Hws)]; cbn [skip_ws].
  - by exists [].
  - destruct (is_json_ws c) eqn:Hc.
    + exists (c :: ws). cbn [forallb app]. rewrite Hc, Hws. split; [by f_equal|done].
    + by exists [].
Qed.

Lemma skip_ws_nil s : skip_ws s = [] -> forallb is_json_ws s = true.
Proof.
  intros H. destruct (skip_ws_prefix s) as (ws & Hs & Hws).
  rewrite H, app_nil_r in Hs. by subst.
Qed.

Lemma cons_char_nonempty c x rest : cons_char c x <> Some ([], rest).
Proof. by destruct x as [[] |]. Qed.

Lemma scanstring_empty s rest : scanstring s = Some ([], rest) -> s = 34 :: rest.
Proof.
  destruct s as [|c s']; [done|]. cbn [scanstring].
  destruct (N.eqb_spec c 34) as [->|_]; [by intros [= ->]|].
  intros H. exfalso. revert H.
  destruct (N.eqb c 92).
  - destruct s' as [|e s'']; [done|].
    destruct (N.eqb e 117).
    + destruct s'' as [|h1 [|h2 [|h3 [|h4 r]]]]; try done.
      destruct (decode_uXXXX h1 h2 h3 h4) as [uni|]; [|done].
      destruct r as [|b [|u [|g1 [|g2 [|g3 [|g4 r2]]]]]];
        try apply cons_char_nonempty.
      destruct (is_high_surrogate uni && N.eqb b 92 && N.eqb u 117);
        [|apply cons_char_nonempty].
      destruct (decode_uXXXX g1 g2 g3 g4) as [uni2|]; [|done].
      destruct (is_low_surrogate uni2); apply cons_char_nonempty.
    + destruct (backslash e); [apply cons_char_nonempty|done].
  - destruct (N.ltb c 32); [done|apply cons_char_nonempty].
Qed.

Lemma scan_literal_not_str s str rest :
  scan_literal s <> Scanned (PyScalar (PyStr str)) rest.
Proof.
  unfold scan_literal, match_number.
  repeat match goal with
         | |- context [match startswith ?w s with _ => _ end] =>
             destruct (startswith w s)
         | |- context [match match_integer s with _ => _ end] =>
             destruct (match_integer s) as [[? ?]|]
         | |- context [match_frac ?r] => destruct (match_frac r)
         | |- context [match_exp ?r] => destruct (match_exp r)
         | |- context [truthy ?a || truthy ?b] => destruct (truthy a || truthy b)
         end; done.
Qed.

(** The texts that decode to the empty string. *)
Lemma json_loads_empty_string s :
  json_loads s = Some (PyScalar (PyStr []))
  <-> exists lead trail,
        s = lead ++ [34; 34] ++ trail
        /\ forallb is_json_ws lead = true /\ forallb is_json_ws trail = true.
Proof.
  split.
  - unfold json_loads, decode.
    destruct (skip_ws_prefix s) as (lead & Hs & Hlead).
    destruct (scan_once (loads_fuel s) (skip_ws s)) as [obj r| |] eqn:Hscan; [|done..].
    destruct (skip_ws r) eqn:Hr; [|done]. intros [= ->].
    apply skip_ws_nil in Hr.
    destruct (skip_ws s) as [|c s'] eqn:Hskip.
    { by destruct (scan_once_nil (loads_fuel s)) as [E|E]; rewrite E in Hscan. }
    unfold loads_fuel in Hscan. rewrite scan_once_S in Hscan.
    destruct (N.eqb_spec c 34) as [->|_].
    { destruct (scanstring s') as [[str r']|] eqn:Hstr; [|done].
      injection Hscan as -> ->. apply scanstring_empty in Hstr as ->.
      by exists lead, r. }
    exfalso. destruct (N.eqb c 123).
    { destruct (skip_ws s') as [|q r']; [done|].
      destruct (N.eqb q 125); [done|]. destruct (N.eqb q 34); [|done].
      by apply object_loop_dict in Hscan as [? ?]. }
    destruct (N.eqb c 91).
    { destruct (skip_ws s') as [|q r'].
      - by apply array_loop_list in Hscan as [? ?].
      - destruct (N.eqb q 93); [done|]. by apply array_loop_list in Hscan as [? ?]. }
    by apply scan_literal_not_str in Hscan.
  - intros (lead & trail & -> & Hlead & Htrail).
    by rewrite json_loads_lead, json_loads_trail.
Qed.

End PaddingFacts.

Import PaddingFacts.

Module FormattingExtra.

Section WithFloats.
Variable float_repr : pystr -> pystr.
Variable floatstr : pystr -> pystr.

Abbreviation format_body := (format_body float_repr floatstr).

(** X14.  Spaces, tabs, carriage returns and newlines around a body do
    not change what [format_body] makes of it, in either mode. *)
Theorem format_body_ignores_padding response raw lead trail :
  forallb is_json_ws lead = true -> forallb is_json_ws trail = true ->
  format_body {| status_code := status_code response;
                 text := lead ++ text response ++ trail |} raw
  = format_body response raw.
Proof.
  intros Hlead Htrail. unfold Formatting.format_body, Response_json. cbn [text].
  rewrite json_loads_lead, json_loads_trail by done.
  rewrite strip_pad by (by apply json_ws_space). done.
Qed.

(** X15.  When the [repr] of a float is never empty, [format_body]
    returns the empty text in one case only: in parsed mode, for a body
    that is the empty JSON string, with or without JSON whitespace around
    it. *)
Theorem format_body_empty_output response raw :
  (forall lit, float_repr lit <> []) ->
  format_body response raw = Return []
  <-> raw = false
      /\ exists lead trail,
           text response = lead ++ [34; 34] ++ trail
           /\ forallb is_json_ws lead = true /\ forallb is_json_ws trail = true.
Proof.
  intros Hrepr. rewrite <- json_loads_empty_string.
  unfold Formatting.format_body, Response_json, str_or.
  destruct raw.
  { split; [|by intros [? _]]. by destruct (strip (text response)). }
  destruct (json_loads (text response)) as [[a|l|d]|]; cbn [is_ValueError].
  - split.
    + intros [= Ha]. split; [done|].
      destruct a as [|[|]|z|lit|s]; cbn [Formatting.str] in Ha; try done.
      * by destruct (str_int_head z) as (c & ds & E & _); rewrite E in Ha.
      * by apply Hrepr in Ha.
      * by subst.
    + by intros [_ [= ->]].
  - split; [done|by intros [_ ?]].
  - split; [done|by intros [_ ?]].
  - split; [by destruct (strip (text response))|by intros [_ ?]].
Qed.


(** X17.  A body that is the JSON text of [null], a boolean, an integer
    or a string of Unicode scalar values is shown as [str] shows that
    value: a string without its quotes and with its escapes undone. *)
Theorem json_scalar_body status (a : pyscalar) :
  reloadable (PyScalar a) = true ->
  format_body {| status_code := status; text := dumps_scalar floatstr a |} false
  = Return (str float_repr a).
Proof.
  intros Ha. unfold Formatting.format_body, Response_json. cbn [text].
  change (dumps_scalar floatstr a) with (json_dumps floatstr (PyScalar a)).
  by rewrite loads_dumps.
Qed.

End WithFloats.

(** X14 on the demo body with a space before and a newline after. *)
Lemma format_body_ignores_padding_witness :
  format_body Demo.fixed_float Demo.fixed_float
    {| status_code := 200; text := py " " ++ Demo.blue ++ [LF] |} false
  = format_body Demo.fixed_float Demo.fixed_float
      {| status_code := 200; text := Demo.blue |} false.
Proof.
  apply (format_body_ignores_padding Demo.fixed_float Demo.fixed_float
           {| status_code := 200; text := Demo.blue |} false (py " ") [LF]).
  - reflexivity.
  - reflexivity.
Defined.

(** X15 on the empty JSON string between a space and a newline. *)
Lemma format_body_empty_output_witness :
  format_body Demo.fixed_float Demo.fixed_float
    {| status_code := 200; text := py " " ++ [34; 34] ++ [LF] |} false
  = Return [].
Proof.
  refine (proj2 (format_body_empty_output Demo.fixed_float Demo.fixed_float
                   {| status_code := 200; text := py " " ++ [34; 34] ++ [LF] |} false _) _).
  - intros lit. discriminate.
  - split; [reflexivity|]. exists (py " "), [LF]. repeat split.
Defined.

(** X17 on a string that holds double quotes. *)
Lemma json_scalar_body_witness :
  format_body Demo.fixed_float Demo.fixed_float
    {| status_code := 200;
       text := dumps_scalar Demo.fixed_float (PyStr (Demo.quoted "say 'hi'")) |} false
  = Return (Demo.quoted "say 'hi'").
Proof.
  apply (json_scalar_body Demo.fixed_float Demo.fixed_float 200
           (PyStr (Demo.quoted "say 'hi'"))).
  reflexivity.
Defined.

End FormattingExtra.
